(** * Deterministic models of sex inconstancy (Ehlers and Bataillon 2007)

    A shallow embedding of [deterministic_model1.c] (one locus, six
    genotypes) and [deterministic_model2.c] (two loci, nine genotypes).

    The C programs compute in [float].  Here every [float] is a rational
    number and [+], [-], [*], [/] are exact.  A division whose divisor is
    zero has no rational value (the C program gets an infinity or a NaN
    there): it makes the computation fail.  Every divisor is recorded, so
    that statements about the divisions of the program can be made.

    The exact arithmetic stands for the machine's as long as the numbers
    stay in the range of [float]; the statements about whole generations
    take their parameters in [params_in_range] for that reason.  The
    generation step of model 1 is embedded a second time, in binary32 with
    its roundings ([Model1Float]), to evaluate the program where a product
    overflows. *)

From Stdlib Require Import QArith Lqa Qfield List Bool ZArith Lia.
From Stdlib Require Ascii String SpecFloat.
Import ListNotations.

Open Scope Q_scope.

(** ** Comparisons of the C code *)

(** [x > y] *)
Definition Qgt_bool (x y : Q) : bool := negb (Qle_bool x y).

(** [x >= y] *)
Definition Qge_bool (x y : Q) : bool := Qle_bool y x.

(** ** Computations that divide *)

Record comp (A : Type) : Type := Comp {
  divisors : list Q;      (* the divisors met, in order *)
  value : option A        (* [None]: some divisor was zero *)
}.
Arguments Comp {A} _ _.
Arguments divisors {A} _.
Arguments value {A} _.

Definition ret {A} (a : A) : comp A := Comp [] (Some a).

Definition bind {A B} (m : comp A) (k : A -> comp B) : comp B :=
  match value m with
  | None => Comp (divisors m) None
  | Some a => Comp (divisors m ++ divisors (k a)) (value (k a))
  end.

(** [x / y] *)
Definition fdiv (x y : Q) : comp Q :=
  Comp [y] (if Qeq_bool y 0 then None else Some (x / y)).

Notation "x <- m ;; k" := (bind m (fun x => k))
  (at level 61, m at next level, right associativity).
Notation "' pat <- m ;; k" := (bind m (fun x => match x with pat => k end))
  (at level 61, pat pattern, m at next level, right associativity).

(** [runs D m P]: [m] divides only by numbers in [D], has a value, and the
    value satisfies [P]. *)
Definition runs {A} (D : Q -> Prop) (m : comp A) (P : A -> Prop) : Prop :=
  Forall D (divisors m) /\ exists a, value m = Some a /\ P a.

(** Every divisor strictly positive. *)
Definition safe {A} (m : comp A) (P : A -> Prop) : Prop :=
  runs (fun y => 0 < y) m P.

(** No divisor zero. *)
Definition defined {A} (m : comp A) (P : A -> Prop) : Prop :=
  runs (fun y => ~ y == 0) m P.

(** ** The categories of an equilibrium *)

Inductive category : Type := NONE | PGD | SSD | DIO | PAD | INC.

(** The [#define]s; [0] is what the program stores when no case applies. *)
Definition code (c : category) : Z :=
  match c with
  | NONE => 0 | PGD => 1 | SSD => 2 | DIO => 3 | PAD => 4 | INC => 5
  end%Z.

(** The chain of tests that ends both programs' grid cell. *)
Definition classify (threshold female male inconstant : Q) : category :=
  if Qgt_bool male threshold && Qgt_bool female threshold
     && Qgt_bool inconstant threshold then SSD
  else if Qgt_bool male threshold && Qgt_bool female threshold then DIO
  else if Qgt_bool female threshold && Qgt_bool inconstant threshold then PGD
  else if Qgt_bool male threshold && Qgt_bool inconstant threshold then PAD
  else if Qgt_bool inconstant threshold then INC
  else NONE.

(** ** The two parameterisations of a grid point *)

(** [Q = 1 / (1 + K)], also [F = 1 / (1 + k)]. *)
Definition of_K (K : Q) : comp Q := fdiv 1 (1 + K).

(** [(1 / Q) - 1], printed as [K]; also [(1 / F) - 1], printed as [k]. *)
Definition to_K (q : Q) : comp Q := x <- fdiv 1 q ;; ret (x - 1).

(** The axis value of pixel [x]: [(float) x / (subdivisions - 1)], times
    [oldformatlimit] and through [of_K] in the old format. *)
Definition axis (oldformat : bool) (oldformatlimit subdivisions x : Z)
  : comp Q :=
  if negb oldformat then fdiv (inject_Z x) (inject_Z (subdivisions - 1))
  else
    t <- fdiv (inject_Z x) (inject_Z (subdivisions - 1)) ;;
    of_K (t * inject_Z oldformatlimit).

(** ** The parameters, globals of both programs *)

Record params : Type := Params {
  par_h : Q;        (* probability that an inconstant is a cosex *)
  par_S : Q;        (* selfing rate *)
  par_d : Q;        (* inbreeding depression *)
  par_V : Q;        (* fitness of YY individuals *)
  par_Q : Q;        (* cosex production of pollen *)
  par_F : Q;        (* cosex production of ovules *)
  par_PSatF : Q;    (* pollen saturation point for female receivers *)
  par_ppY : Q       (* viability of Y pollen; model 1 only *)
}.

(** The defaults. *)
Definition default_params : params := Params 0.5 0 0 1 1 1 0 1.

Definition unit_interval (x : Q) : Prop := 0 <= x <= 1.

(** The parameters the programs are meant for: probabilities and rates
    between 0 and 1, the others not negative. *)
Definition valid_params (c : params) : Prop :=
  unit_interval (par_h c) /\ unit_interval (par_S c) /\
  unit_interval (par_d c) /\ unit_interval (par_V c) /\
  0 <= par_Q c /\ 0 <= par_F c /\ 0 <= par_PSatF c /\ 0 <= par_ppY c.

(** The ranges in which the programs are used, and in which no product of
    the [float] arithmetic leaves the range of [float]: [h], [S], [d], [V],
    [Q], [F] and [ppY] between 0 and 1, [PSatF] not negative. *)
Definition params_in_range (c : params) : Prop :=
  unit_interval (par_h c) /\ unit_interval (par_S c) /\
  unit_interval (par_d c) /\ unit_interval (par_V c) /\
  unit_interval (par_Q c) /\ unit_interval (par_F c) /\
  0 <= par_PSatF c /\ unit_interval (par_ppY c).

(** [FLT_MAX], the largest [float]: [(2^24 - 1) * 2^104]. *)
Definition FLT_MAX : Q := inject_Z ((2 ^ 24 - 1) * 2 ^ 104).

(** A number that a [float] operation does not round to an infinity. *)
Definition in_float_range (x : Q) : Prop := - FLT_MAX <= x <= FLT_MAX.

(** * Model 1: one locus, alleles [A], [a], [a*] *)

Module Model1.

(** Plant frequencies. *)
Record freqs : Type := Freqs {
  f_AA : Q; f_Aa : Q; f_Aas : Q; f_aa : Q; f_aas : Q; f_asas : Q
}.

(** Pollen frequencies. *)
Record pollen : Type := Pollen { p_A : Q; p_a : Q; p_as : Q }.

(** Egg frequencies. *)
Record eggs : Type := Eggs { e_A : Q; e_a : Q; e_as : Q }.

(** Set start plant frequencies. *)
Definition start (pgd : bool) : freqs :=
  if negb pgd then Freqs 0.499 0.499 0.002 0 0 0
  else Freqs 0.499 0.002 0.499 0 0 0.

(** Outcrossed pollen frequencies, source by source. *)
Definition pollen_sources (c : params) (f : freqs) : pollen :=
  let h := par_h c in
  let Q := par_Q c in
  let '(Freqs f_AA f_Aa f_Aas f_aa f_aas f_asas) := f in
  let p_A := 0 in
  let p_a := 0 in
  let p_as := 0 in
  (* Aa pure males *)
  let p_A := p_A + f_Aa * 0.5 in
  let p_a := p_a + f_Aa * 0.5 in
  (* Aa* inconstants as cosexes *)
  let p_A := p_A + f_Aas * 0.5 * h * Q in
  let p_as := p_as + f_Aas * 0.5 * h * Q in
  (* Aa* inconstants as males *)
  let p_A := p_A + f_Aas * 0.5 * (1 - h) in
  let p_as := p_as + f_Aas * 0.5 * (1 - h) in
  (* aa pure males *)
  let p_a := p_a + f_aa in
  (* aa* inconstants as cosexes *)
  let p_a := p_a + f_aas * 0.5 * h * Q in
  let p_as := p_as + f_aas * 0.5 * h * Q in
  (* aa* inconstants as males *)
  let p_a := p_a + f_aas * 0.5 * (1 - h) in
  let p_as := p_as + f_aas * 0.5 * (1 - h) in
  (* a*a* inconstants as cosexes *)
  let p_as := p_as + f_asas * h * Q in
  (* a*a* inconstants as males *)
  let p_as := p_as + f_asas * (1 - h) in
  Pollen p_A p_a p_as.

(** Apply Y pollen viability penalty. *)
Definition pollen_viability (c : params) (p : pollen) : pollen :=
  Pollen (p_A p) (p_a p * par_ppY c) (p_as p * par_ppY c).

Definition total_pollen (p : pollen) : Q := p_A p + p_a p + p_as p.

(** The pollen produced, before it is normalised. *)
Definition raw_pollen (c : params) (f : freqs) : pollen :=
  pollen_viability c (pollen_sources c f).

(** Normalise pollen frequencies to add up to 1. *)
Definition normalise_pollen (p : pollen) : comp pollen :=
  let totalpollen := total_pollen p in
  if Qgt_bool totalpollen 0 then
    a <- fdiv (p_A p) totalpollen ;;
    b <- fdiv (p_a p) totalpollen ;;
    c <- fdiv (p_as p) totalpollen ;;
    ret (Pollen a b c)
  else ret p.

(** The pollen pool of one generation. *)
Definition pollen_pool (c : params) (f : freqs) : comp pollen :=
  normalise_pollen (raw_pollen c f).

(** Outcrossed egg frequencies; [totalpollen] is the total before the pollen
    was normalised. *)
Definition egg_pool (c : params) (f : freqs) (totalpollen : Q) : comp eggs :=
  let h := par_h c in
  let S := par_S c in
  let F := par_F c in
  let PSatF := par_PSatF c in
  let '(Freqs f_AA f_Aa f_Aas f_aa f_aas f_asas) := f in
  (* pollen required to fertilise a cosex's outcrossing ovules *)
  let PSatC := PSatF * F * (1 - S) in
  let e_A := 0 in
  let e_a := 0 in
  let e_as := 0 in
  (* AA pure females *)
  e_A <- (if Qge_bool totalpollen PSatF then ret (e_A + f_AA)
          else x <- fdiv (f_AA * totalpollen) PSatF ;; ret (e_A + x)) ;;
  (* Aa* inconstants as cosexes *)
  '(e_A, e_as) <-
     (if Qge_bool totalpollen PSatC then
        ret (e_A + f_Aas * h * 0.5 * (1 - S) * F,
             e_as + f_Aas * h * 0.5 * (1 - S) * F)
      else
        x <- fdiv (f_Aas * h * 0.5 * (1 - S) * F * totalpollen) PSatC ;;
        y <- fdiv (f_Aas * h * 0.5 * (1 - S) * F * totalpollen) PSatC ;;
        ret (e_A + x, e_as + y)) ;;
  (* aa* inconstants as cosexes *)
  '(e_a, e_as) <-
     (if Qge_bool totalpollen PSatC then
        ret (e_a + f_aas * h * 0.5 * (1 - S) * F,
             e_as + f_aas * h * 0.5 * (1 - S) * F)
      else
        x <- fdiv (f_aas * h * 0.5 * (1 - S) * F * totalpollen) PSatC ;;
        y <- fdiv (f_aas * h * 0.5 * (1 - S) * F * totalpollen) PSatC ;;
        ret (e_a + x, e_as + y)) ;;
  (* a*a* inconstants as cosexes *)
  e_as <- (if Qge_bool totalpollen PSatC then
             ret (e_as + f_asas * h * (1 - S) * F)
           else
             x <- fdiv (f_asas * h * (1 - S) * F * totalpollen) PSatC ;;
             ret (e_as + x)) ;;
  ret (Eggs e_A e_a e_as).

(** Plant frequencies from outcrossing. *)
Definition outcross (p : pollen) (e : eggs) : freqs :=
  let '(Pollen p_A p_a p_as) := p in
  let '(Eggs e_A e_a e_as) := e in
  Freqs (p_A * e_A)
        (p_A * e_a + p_a * e_A)
        (p_A * e_as + p_as * e_A)
        (p_a * e_a)
        (p_a * e_as + p_as * e_a)
        (p_as * e_as).

(** Additional plants from selfing: from Aa* inconstants, where X and Y
    pollen compete. *)
Definition self_Aas (c : params) (f_Aas : Q) (next : freqs) : comp freqs :=
  let h := par_h c in
  let S := par_S c in
  let d := par_d c in
  let F := par_F c in
  let ppY := par_ppY c in
  let '(Freqs next_f_AA next_f_Aa next_f_Aas next_f_aa next_f_aas next_f_asas)
    := next in
  k <- fdiv 0.5 (1 + ppY) ;;
  let next_f_AA := next_f_AA + f_Aas * k * S * (1 - d) * h * F in
  let next_f_Aas := next_f_Aas + f_Aas * 0.5 * S * (1 - d) * h * F in
  k <- fdiv (0.5 * ppY) (1 + ppY) ;;
  let next_f_asas := next_f_asas + f_Aas * k * S * (1 - d) * h * F in
  ret (Freqs next_f_AA next_f_Aa next_f_Aas next_f_aa next_f_aas next_f_asas).

(** From aa* inconstants. *)
Definition self_aas (c : params) (f_aas : Q) (next : freqs) : freqs :=
  let h := par_h c in
  let S := par_S c in
  let d := par_d c in
  let F := par_F c in
  let '(Freqs next_f_AA next_f_Aa next_f_Aas next_f_aa next_f_aas next_f_asas)
    := next in
  let next_f_aa := next_f_aa + f_aas * 0.25 * S * (1 - d) * h * F in
  let next_f_aas := next_f_aas + f_aas * 0.5 * S * (1 - d) * h * F in
  let next_f_asas := next_f_asas + f_aas * 0.25 * S * (1 - d) * h * F in
  Freqs next_f_AA next_f_Aa next_f_Aas next_f_aa next_f_aas next_f_asas.

(** From a*a* inconstants. *)
Definition self_asas (c : params) (f_asas : Q) (next : freqs) : freqs :=
  let h := par_h c in
  let S := par_S c in
  let d := par_d c in
  let F := par_F c in
  let '(Freqs next_f_AA next_f_Aa next_f_Aas next_f_aa next_f_aas next_f_asas)
    := next in
  let next_f_asas := next_f_asas + f_asas * S * (1 - d) * h * F in
  Freqs next_f_AA next_f_Aa next_f_Aas next_f_aa next_f_aas next_f_asas.

(** Additional plants from selfing. *)
Definition selfing (c : params) (f : freqs) (next : freqs) : comp freqs :=
  next <- self_Aas c (f_Aas f) next ;;
  let next := self_aas c (f_aas f) next in
  ret (self_asas c (f_asas f) next).

(** Apply YY penalty. *)
Definition yy_penalty (c : params) (next : freqs) : freqs :=
  let '(Freqs next_f_AA next_f_Aa next_f_Aas next_f_aa next_f_aas next_f_asas)
    := next in
  let V := par_V c in
  Freqs next_f_AA next_f_Aa next_f_Aas
        (next_f_aa * V) (next_f_aas * V) (next_f_asas * V).

Definition total_plants (f : freqs) : Q :=
  f_AA f + f_Aa f + f_Aas f + f_aa f + f_aas f + f_asas f.

(** Normalise plant frequencies to add up to 1. *)
Definition normalise_plants (f : freqs) : comp freqs :=
  let totalplants := total_plants f in
  if Qgt_bool totalplants 0 then
    x1 <- fdiv (f_AA f) totalplants ;;
    x2 <- fdiv (f_Aa f) totalplants ;;
    x3 <- fdiv (f_Aas f) totalplants ;;
    x4 <- fdiv (f_aa f) totalplants ;;
    x5 <- fdiv (f_aas f) totalplants ;;
    x6 <- fdiv (f_asas f) totalplants ;;
    ret (Freqs x1 x2 x3 x4 x5 x6)
  else ret f.

(** The plants of the next generation, before they are normalised. *)
Definition offspring (c : params) (f : freqs) : comp freqs :=
  let raw := raw_pollen c f in
  let totalpollen := total_pollen raw in
  p <- normalise_pollen raw ;;
  e <- egg_pool c f totalpollen ;;
  next <- selfing c f (outcross p e) ;;
  ret (yy_penalty c next).

(** One pass of the loop body. *)
Definition generation (c : params) (f : freqs) : comp freqs :=
  next <- offspring c f ;;
  normalise_plants next.

(** [for (n = 0; n < endpoint; n++)] *)
Fixpoint iterate (c : params) (n : nat) (f : freqs) : comp freqs :=
  match n with
  | O => ret f
  | Datatypes.S n => f <- generation c f ;; iterate c n f
  end.

Definition female (f : freqs) : Q := f_AA f.
Definition male (f : freqs) : Q := f_Aa f + f_aa f.
Definition inconstant (f : freqs) : Q := f_Aas f + f_aas f + f_asas f.

Definition category_of (threshold : Q) (f : freqs) : category :=
  classify threshold (female f) (male f) (inconstant f).

(** One grid point.  [f] holds what the plant frequency variables contain
    when the grid point is reached (zeros, or what the previous grid point
    left); the start frequencies overwrite it. *)
Definition simulate (c : params) (pgd : bool) (endpoint : Z) (f : freqs)
  : comp freqs :=
  let f := start pgd in
  iterate c (Z.to_nat endpoint) f.

Definition run (c : params) (pgd : bool) (endpoint : Z) (threshold : Q)
  (f : freqs) : comp (freqs * category) :=
  f <- simulate c pgd endpoint f ;;
  ret (f, category_of threshold f).

(** What the statements below say about a vector of plant frequencies. *)
Definition nonneg (f : freqs) : Prop :=
  0 <= f_AA f /\ 0 <= f_Aa f /\ 0 <= f_Aas f /\
  0 <= f_aa f /\ 0 <= f_aas f /\ 0 <= f_asas f.

Definition extinct (f : freqs) : Prop :=
  f_AA f == 0 /\ f_Aa f == 0 /\ f_Aas f == 0 /\
  f_aa f == 0 /\ f_aas f == 0 /\ f_asas f == 0.

(** Nothing but AA pure females. *)
Definition all_female (f : freqs) : Prop :=
  f_Aa f == 0 /\ f_Aas f == 0 /\ f_aa f == 0 /\ f_aas f == 0 /\ f_asas f == 0.

Definition pollen_nonneg (p : pollen) : Prop :=
  0 <= p_A p /\ 0 <= p_a p /\ 0 <= p_as p.

Definition no_pollen (p : pollen) : Prop :=
  p_A p == 0 /\ p_a p == 0 /\ p_as p == 0.

End Model1.

(** * Model 2: two loci, alleles [A], [a] and [M], [m] *)

Module Model2.

(** Plant frequencies. *)
Record freqs : Type := Freqs {
  f_AA_MM : Q; f_AA_Mm : Q; f_AA_mm : Q;
  f_Aa_MM : Q; f_Aa_Mm : Q; f_Aa_mm : Q;
  f_aa_MM : Q; f_aa_Mm : Q; f_aa_mm : Q
}.

(** Pollen frequencies. *)
Record pollen : Type := Pollen { p_A_M : Q; p_A_m : Q; p_a_M : Q; p_a_m : Q }.

(** Egg frequencies. *)
Record eggs : Type := Eggs { e_A_M : Q; e_A_m : Q; e_a_M : Q; e_a_m : Q }.

(** Set start plant frequencies. *)
Definition start (pgd : bool) : freqs :=
  if negb pgd then Freqs 0 0 0.499 0 0.002 0.499 0 0 0
  else Freqs 0.499 0 0 0.499 0 0.002 0 0 0.

(** Outcrossed pollen frequencies, source by source. *)
Definition raw_pollen (c : params) (f : freqs) : pollen :=
  let h := par_h c in
  let Q := par_Q c in
  let '(Freqs f_AA_MM f_AA_Mm f_AA_mm f_Aa_MM f_Aa_Mm f_Aa_mm
              f_aa_MM f_aa_Mm f_aa_mm) := f in
  let p_A_M := 0 in
  let p_A_m := 0 in
  let p_a_M := 0 in
  let p_a_m := 0 in
  (* Aa MM inconstants as cosexes *)
  let p_A_M := p_A_M + f_Aa_MM * 0.5 * h * Q in
  let p_a_M := p_a_M + f_Aa_MM * 0.5 * h * Q in
  (* Aa MM inconstants as males *)
  let p_A_M := p_A_M + f_Aa_MM * 0.5 * (1 - h) in
  let p_a_M := p_a_M + f_Aa_MM * 0.5 * (1 - h) in
  (* Aa Mm inconstants as cosexes *)
  let p_A_M := p_A_M + f_Aa_Mm * 0.25 * h * Q in
  let p_A_m := p_A_m + f_Aa_Mm * 0.25 * h * Q in
  let p_a_M := p_a_M + f_Aa_Mm * 0.25 * h * Q in
  let p_a_m := p_a_m + f_Aa_Mm * 0.25 * h * Q in
  (* Aa Mm inconstants as males *)
  let p_A_M := p_A_M + f_Aa_Mm * 0.25 * (1 - h) in
  let p_A_m := p_A_m + f_Aa_Mm * 0.25 * (1 - h) in
  let p_a_M := p_a_M + f_Aa_Mm * 0.25 * (1 - h) in
  let p_a_m := p_a_m + f_Aa_Mm * 0.25 * (1 - h) in
  (* Aa mm pure males *)
  let p_A_m := p_A_m + f_Aa_mm * 0.5 in
  let p_a_m := p_a_m + f_Aa_mm * 0.5 in
  (* aa MM inconstants as cosexes *)
  let p_a_M := p_a_M + f_aa_MM * h * Q in
  (* aa MM inconstants as males *)
  let p_a_M := p_a_M + f_aa_MM * (1 - h) in
  (* aa Mm inconstants as cosexes *)
  let p_a_M := p_a_M + f_aa_Mm * 0.5 * h * Q in
  let p_a_m := p_a_m + f_aa_Mm * 0.5 * h * Q in
  (* aa Mm inconstants as males *)
  let p_a_M := p_a_M + f_aa_Mm * 0.5 * (1 - h) in
  let p_a_m := p_a_m + f_aa_Mm * 0.5 * (1 - h) in
  (* aa mm pure males *)
  let p_a_m := p_a_m + f_aa_mm in
  Pollen p_A_M p_A_m p_a_M p_a_m.

Definition total_pollen (p : pollen) : Q :=
  p_A_M p + p_A_m p + p_a_M p + p_a_m p.

(** Normalise pollen frequencies to add up to 1. *)
Definition normalise_pollen (p : pollen) : comp pollen :=
  let totalpollen := total_pollen p in
  if Qgt_bool totalpollen 0 then
    x1 <- fdiv (p_A_M p) totalpollen ;;
    x2 <- fdiv (p_A_m p) totalpollen ;;
    x3 <- fdiv (p_a_M p) totalpollen ;;
    x4 <- fdiv (p_a_m p) totalpollen ;;
    ret (Pollen x1 x2 x3 x4)
  else ret p.

(** The pollen pool of one generation. *)
Definition pollen_pool (c : params) (f : freqs) : comp pollen :=
  normalise_pollen (raw_pollen c f).

(** Outcrossed egg frequencies; [totalpollen] is the total before the pollen
    was normalised. *)
Definition egg_pool (c : params) (f : freqs) (totalpollen : Q) : comp eggs :=
  let h := par_h c in
  let S := par_S c in
  let F := par_F c in
  let PSatF := par_PSatF c in
  let '(Freqs f_AA_MM f_AA_Mm f_AA_mm f_Aa_MM f_Aa_Mm f_Aa_mm
              f_aa_MM f_aa_Mm f_aa_mm) := f in
  (* pollen required to fertilise a cosex's outcrossing ovules *)
  let PSatC := PSatF * F * (1 - S) in
  let e_A_M := 0 in
  let e_A_m := 0 in
  let e_a_M := 0 in
  let e_a_m := 0 in
  (* AA MM pure females *)
  e_A_M <- (if Qge_bool totalpollen PSatF then ret (e_A_M + f_AA_MM)
            else x <- fdiv (f_AA_MM * totalpollen) PSatF ;; ret (e_A_M + x)) ;;
  (* AA Mm pure females *)
  '(e_A_M, e_A_m) <-
     (if Qge_bool totalpollen PSatF then
        ret (e_A_M + f_AA_Mm * 0.5, e_A_m + f_AA_Mm * 0.5)
      else
        x <- fdiv (f_AA_Mm * 0.5 * totalpollen) PSatF ;;
        y <- fdiv (f_AA_Mm * 0.5 * totalpollen) PSatF ;;
        ret (e_A_M + x, e_A_m + y)) ;;
  (* AA mm pure females *)
  e_A_m <- (if Qge_bool totalpollen PSatF then ret (e_A_m + f_AA_mm)
            else x <- fdiv (f_AA_mm * totalpollen) PSatF ;; ret (e_A_m + x)) ;;
  (* Aa MM inconstants as cosexes *)
  '(e_A_M, e_a_M) <-
     (if Qge_bool totalpollen PSatC then
        ret (e_A_M + f_Aa_MM * h * 0.5 * (1 - S) * F,
             e_a_M + f_Aa_MM * h * 0.5 * (1 - S) * F)
      else
        x <- fdiv (f_Aa_MM * h * 0.5 * (1 - S) * F * totalpollen) PSatC ;;
        y <- fdiv (f_Aa_MM * h * 0.5 * (1 - S) * F * totalpollen) PSatC ;;
        ret (e_A_M + x, e_a_M + y)) ;;
  (* Aa Mm inconstants as cosexes *)
  '(e_A_M, e_A_m, e_a_M, e_a_m) <-
     (if Qge_bool totalpollen PSatC then
        ret (e_A_M + f_Aa_Mm * h * 0.25 * (1 - S) * F,
             e_A_m + f_Aa_Mm * h * 0.25 * (1 - S) * F,
             e_a_M + f_Aa_Mm * h * 0.25 * (1 - S) * F,
             e_a_m + f_Aa_Mm * h * 0.25 * (1 - S) * F)
      else
        x1 <- fdiv (f_Aa_Mm * h * 0.25 * (1 - S) * F * totalpollen) PSatC ;;
        x2 <- fdiv (f_Aa_Mm * h * 0.25 * (1 - S) * F * totalpollen) PSatC ;;
        x3 <- fdiv (f_Aa_Mm * h * 0.25 * (1 - S) * F * totalpollen) PSatC ;;
        x4 <- fdiv (f_Aa_Mm * h * 0.25 * (1 - S) * F * totalpollen) PSatC ;;
        ret (e_A_M + x1, e_A_m + x2, e_a_M + x3, e_a_m + x4)) ;;
  (* aa MM inconstants as cosexes *)
  e_a_M <- (if Qge_bool totalpollen PSatC then
              ret (e_a_M + f_aa_MM * h * (1 - S) * F)
            else
              x <- fdiv (f_aa_MM * h * (1 - S) * F * totalpollen) PSatC ;;
              ret (e_a_M + x)) ;;
  (* aa Mm inconstants as cosexes *)
  '(e_a_M, e_a_m) <-
     (if Qge_bool totalpollen PSatC then
        ret (e_a_M + f_aa_Mm * h * 0.5 * (1 - S) * F,
             e_a_m + f_aa_Mm * h * 0.5 * (1 - S) * F)
      else
        x <- fdiv (f_aa_Mm * h * 0.5 * (1 - S) * F * totalpollen) PSatC ;;
        y <- fdiv (f_aa_Mm * h * 0.5 * (1 - S) * F * totalpollen) PSatC ;;
        ret (e_a_M + x, e_a_m + y)) ;;
  ret (Eggs e_A_M e_A_m e_a_M e_a_m).

(** Plant frequencies from outcrossing. *)
Definition outcross (p : pollen) (e : eggs) : freqs :=
  let '(Pollen p_A_M p_A_m p_a_M p_a_m) := p in
  let '(Eggs e_A_M e_A_m e_a_M e_a_m) := e in
  Freqs (p_A_M * e_A_M)
        (p_A_M * e_A_m + p_A_m * e_A_M)
        (p_A_m * e_A_m)
        (p_A_M * e_a_M + p_a_M * e_A_M)
        (p_A_M * e_a_m + p_A_m * e_a_M + p_a_M * e_A_m + p_a_m * e_A_M)
        (p_A_m * e_a_m + p_a_m * e_A_m)
        (p_a_M * e_a_M)
        (p_a_M * e_a_m + p_a_m * e_a_M)
        (p_a_m * e_a_m).

(** Additional plants from selfing: from Aa MM inconstants. *)
Definition self_Aa_MM (c : params) (f_Aa_MM : Q) (next : freqs) : freqs :=
  let h := par_h c in
  let S := par_S c in
  let d := par_d c in
  let F := par_F c in
  let '(Freqs next_f_AA_MM next_f_AA_Mm next_f_AA_mm
              next_f_Aa_MM next_f_Aa_Mm next_f_Aa_mm
              next_f_aa_MM next_f_aa_Mm next_f_aa_mm) := next in
  let next_f_AA_MM := next_f_AA_MM + f_Aa_MM * 0.25 * S * (1 - d) * h * F in
  let next_f_Aa_MM := next_f_Aa_MM + f_Aa_MM * 0.5 * S * (1 - d) * h * F in
  let next_f_aa_MM := next_f_aa_MM + f_Aa_MM * 0.25 * S * (1 - d) * h * F in
  Freqs next_f_AA_MM next_f_AA_Mm next_f_AA_mm
        next_f_Aa_MM next_f_Aa_Mm next_f_Aa_mm
        next_f_aa_MM next_f_aa_Mm next_f_aa_mm.

(** From Aa Mm inconstants. *)
Definition self_Aa_Mm (c : params) (f_Aa_Mm : Q) (next : freqs) : freqs :=
  let h := par_h c in
  let S := par_S c in
  let d := par_d c in
  let F := par_F c in
  let '(Freqs next_f_AA_MM next_f_AA_Mm next_f_AA_mm
              next_f_Aa_MM next_f_Aa_Mm next_f_Aa_mm
              next_f_aa_MM next_f_aa_Mm next_f_aa_mm) := next in
  let next_f_AA_MM := next_f_AA_MM + f_Aa_Mm * 0.0625 * S * (1 - d) * h * F in
  let next_f_AA_Mm := next_f_AA_Mm + f_Aa_Mm * 0.125 * S * (1 - d) * h * F in
  let next_f_AA_mm := next_f_AA_mm + f_Aa_Mm * 0.0625 * S * (1 - d) * h * F in
  let next_f_Aa_MM := next_f_Aa_MM + f_Aa_Mm * 0.125 * S * (1 - d) * h * F in
  let next_f_Aa_Mm := next_f_Aa_Mm + f_Aa_Mm * 0.25 * S * (1 - d) * h * F in
  let next_f_Aa_mm := next_f_Aa_mm + f_Aa_Mm * 0.125 * S * (1 - d) * h * F in
  let next_f_aa_MM := next_f_aa_MM + f_Aa_Mm * 0.0625 * S * (1 - d) * h * F in
  let next_f_aa_Mm := next_f_aa_Mm + f_Aa_Mm * 0.125 * S * (1 - d) * h * F in
  let next_f_aa_mm := next_f_aa_mm + f_Aa_Mm * 0.0625 * S * (1 - d) * h * F in
  Freqs next_f_AA_MM next_f_AA_Mm next_f_AA_mm
        next_f_Aa_MM next_f_Aa_Mm next_f_Aa_mm
        next_f_aa_MM next_f_aa_Mm next_f_aa_mm.

(** From aa MM inconstants. *)
Definition self_aa_MM (c : params) (f_aa_MM : Q) (next : freqs) : freqs :=
  let h := par_h c in
  let S := par_S c in
  let d := par_d c in
  let F := par_F c in
  let '(Freqs next_f_AA_MM next_f_AA_Mm next_f_AA_mm
              next_f_Aa_MM next_f_Aa_Mm next_f_Aa_mm
              next_f_aa_MM next_f_aa_Mm next_f_aa_mm) := next in
  let next_f_aa_MM := next_f_aa_MM + f_aa_MM * S * (1 - d) * h * F in
  Freqs next_f_AA_MM next_f_AA_Mm next_f_AA_mm
        next_f_Aa_MM next_f_Aa_Mm next_f_Aa_mm
        next_f_aa_MM next_f_aa_Mm next_f_aa_mm.

(** From aa Mm inconstants. *)
Definition self_aa_Mm (c : params) (f_aa_Mm : Q) (next : freqs) : freqs :=
  let h := par_h c in
  let S := par_S c in
  let d := par_d c in
  let F := par_F c in
  let '(Freqs next_f_AA_MM next_f_AA_Mm next_f_AA_mm
              next_f_Aa_MM next_f_Aa_Mm next_f_Aa_mm
              next_f_aa_MM next_f_aa_Mm next_f_aa_mm) := next in
  let next_f_aa_MM := next_f_aa_MM + f_aa_Mm * 0.25 * S * (1 - d) * h * F in
  let next_f_aa_Mm := next_f_aa_Mm + f_aa_Mm * 0.5 * S * (1 - d) * h * F in
  let next_f_aa_mm := next_f_aa_mm + f_aa_Mm * 0.25 * S * (1 - d) * h * F in
  Freqs next_f_AA_MM next_f_AA_Mm next_f_AA_mm
        next_f_Aa_MM next_f_Aa_Mm next_f_Aa_mm
        next_f_aa_MM next_f_aa_Mm next_f_aa_mm.

(** Additional plants from selfing. *)
Definition selfing (c : params) (f : freqs) (next : freqs) : freqs :=
  let next := self_Aa_MM c (f_Aa_MM f) next in
  let next := self_Aa_Mm c (f_Aa_Mm f) next in
  let next := self_aa_MM c (f_aa_MM f) next in
  self_aa_Mm c (f_aa_Mm f) next.

(** Apply YY penalty. *)
Definition yy_penalty (c : params) (next : freqs) : freqs :=
  let '(Freqs next_f_AA_MM next_f_AA_Mm next_f_AA_mm
              next_f_Aa_MM next_f_Aa_Mm next_f_Aa_mm
              next_f_aa_MM next_f_aa_Mm next_f_aa_mm) := next in
  let V := par_V c in
  Freqs next_f_AA_MM next_f_AA_Mm next_f_AA_mm
        next_f_Aa_MM next_f_Aa_Mm next_f_Aa_mm
        (next_f_aa_MM * V) (next_f_aa_Mm * V) (next_f_aa_mm * V).

Definition total_plants (f : freqs) : Q :=
  f_AA_MM f + f_AA_Mm f + f_AA_mm f + f_Aa_MM f + f_Aa_Mm f + f_Aa_mm f
  + f_aa_MM f + f_aa_Mm f + f_aa_mm f.

(** Normalise plant frequencies to add up to 1. *)
Definition normalise_plants (f : freqs) : comp freqs :=
  let totalplants := total_plants f in
  if Qgt_bool totalplants 0 then
    x1 <- fdiv (f_AA_MM f) totalplants ;;
    x2 <- fdiv (f_AA_Mm f) totalplants ;;
    x3 <- fdiv (f_AA_mm f) totalplants ;;
    x4 <- fdiv (f_Aa_MM f) totalplants ;;
    x5 <- fdiv (f_Aa_Mm f) totalplants ;;
    x6 <- fdiv (f_Aa_mm f) totalplants ;;
    x7 <- fdiv (f_aa_MM f) totalplants ;;
    x8 <- fdiv (f_aa_Mm f) totalplants ;;
    x9 <- fdiv (f_aa_mm f) totalplants ;;
    ret (Freqs x1 x2 x3 x4 x5 x6 x7 x8 x9)
  else ret f.

(** The plants of the next generation, before they are normalised. *)
Definition offspring (c : params) (f : freqs) : comp freqs :=
  let raw := raw_pollen c f in
  let totalpollen := total_pollen raw in
  p <- normalise_pollen raw ;;
  e <- egg_pool c f totalpollen ;;
  let next := selfing c f (outcross p e) in
  ret (yy_penalty c next).

(** One pass of the loop body. *)
Definition generation (c : params) (f : freqs) : comp freqs :=
  next <- offspring c f ;;
  normalise_plants next.

(** [for (n = 0; n < endpoint; n++)] *)
Fixpoint iterate (c : params) (n : nat) (f : freqs) : comp freqs :=
  match n with
  | O => ret f
  | Datatypes.S n => f <- generation c f ;; iterate c n f
  end.

Definition female (f : freqs) : Q := f_AA_MM f + f_AA_Mm f + f_AA_mm f.
Definition male (f : freqs) : Q := f_Aa_mm f + f_aa_mm f.
Definition inconstant (f : freqs) : Q :=
  f_Aa_MM f + f_Aa_Mm f + f_aa_MM f + f_aa_Mm f.

Definition category_of (threshold : Q) (f : freqs) : category :=
  classify threshold (female f) (male f) (inconstant f).

(** One grid point.  [f] holds what the plant frequency variables contain
    when the grid point is reached; the start frequencies overwrite it. *)
Definition simulate (c : params) (pgd : bool) (endpoint : Z) (f : freqs)
  : comp freqs :=
  let f := start pgd in
  iterate c (Z.to_nat endpoint) f.

Definition run (c : params) (pgd : bool) (endpoint : Z) (threshold : Q)
  (f : freqs) : comp (freqs * category) :=
  f <- simulate c pgd endpoint f ;;
  ret (f, category_of threshold f).

(** What the statements below say about a vector of plant frequencies. *)
Definition nonneg (f : freqs) : Prop :=
  0 <= f_AA_MM f /\ 0 <= f_AA_Mm f /\ 0 <= f_AA_mm f /\
  0 <= f_Aa_MM f /\ 0 <= f_Aa_Mm f /\ 0 <= f_Aa_mm f /\
  0 <= f_aa_MM f /\ 0 <= f_aa_Mm f /\ 0 <= f_aa_mm f.

Definition extinct (f : freqs) : Prop :=
  f_AA_MM f == 0 /\ f_AA_Mm f == 0 /\ f_AA_mm f == 0 /\
  f_Aa_MM f == 0 /\ f_Aa_Mm f == 0 /\ f_Aa_mm f == 0 /\
  f_aa_MM f == 0 /\ f_aa_Mm f == 0 /\ f_aa_mm f == 0.

(** Nothing but AA pure females. *)
Definition all_female (f : freqs) : Prop :=
  f_Aa_MM f == 0 /\ f_Aa_Mm f == 0 /\ f_Aa_mm f == 0 /\
  f_aa_MM f == 0 /\ f_aa_Mm f == 0 /\ f_aa_mm f == 0.

Definition pollen_nonneg (p : pollen) : Prop :=
  0 <= p_A_M p /\ 0 <= p_A_m p /\ 0 <= p_a_M p /\ 0 <= p_a_m p.

Definition no_pollen (p : pollen) : Prop :=
  p_A_M p == 0 /\ p_A_m p == 0 /\ p_a_M p == 0 /\ p_a_m p == 0.

End Model2.

(** * The classification rule as the specification words it *)

(** The rules in the words of the specification, first match wins. *)
Definition rules (threshold female male inconstant : Q)
  : list (bool * category) :=
  [ (Qgt_bool female threshold && Qgt_bool male threshold
     && Qgt_bool inconstant threshold, SSD);
    (Qgt_bool female threshold && Qgt_bool male threshold, DIO);
    (Qgt_bool female threshold && Qgt_bool inconstant threshold, PGD);
    (Qgt_bool male threshold && Qgt_bool inconstant threshold, PAD);
    (Qgt_bool inconstant threshold, INC) ].

Definition first_match (rs : list (bool * category)) : category :=
  match find fst rs with
  | Some r => snd r
  | None => NONE
  end.

(** A genotype with frequency [x] counted in exactly one of the three
    classes. *)
Definition counted_once (female male inconstant x : Q) : Prop :=
  (female == x /\ male == 0 /\ inconstant == 0) \/
  (female == 0 /\ male == x /\ inconstant == 0) \/
  (female == 0 /\ male == 0 /\ inconstant == x).

(** * The rest of the programs *)

(** ** Assignments to the globals [Q], [F] and [PSatF] *)

Definition set_Q (c : params) (v : Q) : params :=
  Params (par_h c) (par_S c) (par_d c) (par_V c) v (par_F c)
         (par_PSatF c) (par_ppY c).

Definition set_F (c : params) (v : Q) : params :=
  Params (par_h c) (par_S c) (par_d c) (par_V c) (par_Q c) v
         (par_PSatF c) (par_ppY c).

Definition set_PSatF (c : params) (v : Q) : params :=
  Params (par_h c) (par_S c) (par_d c) (par_V c) (par_Q c) (par_F c)
         v (par_ppY c).

(** ** The other globals *)

Record options : Type := Options {
  opt_params : params;
  opt_pgd : bool;             (* start in PGD and see if males invade? *)
  opt_subdivisions : Z;       (* width and height of the graph *)
  opt_gnuplot : bool;         (* text output of female frequencies *)
  opt_endpoint : Z;           (* number of iterations to run *)
  opt_threshold : Q;
  opt_onerun : bool;          (* one run with the given Q and F? *)
  opt_oldformat : bool;       (* graph of k and K? *)
  opt_oldformatlimit : Z      (* axis size of the old format *)
}.

(** The defaults. *)
Definition default_options : options :=
  Options default_params false 201 false 10000 0.01 false false 4.

(** ** The sweep over the grid *)

(** Map the coordinates [x], [y] of a pixel onto [Q] and [F]; [c] holds the
    globals as the previous grid point left them. *)
Definition grid_point (o : options) (c : params) (x y : Z) : comp params :=
  let subdivisions := opt_subdivisions o in
  let oldformatlimit := opt_oldformatlimit o in
  if negb (opt_onerun o) then
    if negb (opt_oldformat o) then
      Q <- fdiv (inject_Z x) (inject_Z (subdivisions - 1)) ;;
      F <- fdiv (inject_Z y) (inject_Z (subdivisions - 1)) ;;
      ret (set_F (set_Q c Q) F)
    else
      t <- fdiv (inject_Z x) (inject_Z (subdivisions - 1)) ;;
      let K := t * inject_Z oldformatlimit in
      u <- fdiv (inject_Z y) (inject_Z (subdivisions - 1)) ;;
      let k := u * inject_Z oldformatlimit in
      Q <- fdiv 1 (1 + K) ;;
      F <- fdiv 1 (1 + k) ;;
      ret (set_F (set_Q c Q) F)
  else ret c.

(** [result[x][y] = v]; a cell that was never written holds nothing. *)
Definition store {A} (result : Z -> Z -> option A) (x y : Z) (v : A)
  : Z -> Z -> option A :=
  fun x' y' => if (x' =? x)%Z && (y' =? y)%Z then Some v else result x' y'.

Section Sweep.

(** What differs between the two programs. *)
Variable freqs : Type.
Variable simulate : params -> bool -> Z -> freqs -> comp freqs.
Variable female : freqs -> Q.
Variable category_of : Q -> freqs -> category.

(** The variables that live across grid points. *)
Record sweep_state : Type := SweepState {
  sw_params : params;                       (* [Q] and [F] change *)
  sw_f : freqs;                             (* plant frequencies *)
  sw_result : Z -> Z -> option category;    (* [result] *)
  sw_text : list Q                          (* female frequencies written *)
}.

(** The body of the inner loop, up to the [break]. *)
Definition cell (o : options) (x y : Z) (s : sweep_state)
  : comp sweep_state :=
  c <- grid_point o (sw_params s) x y ;;
  f <- simulate c (opt_pgd o) (opt_endpoint o) (sw_f s) ;;
  let result := store (sw_result s) x y (category_of (opt_threshold o) f) in
  let text :=
    if negb (opt_onerun o) && opt_gnuplot o then sw_text s ++ [female f]
    else sw_text s in
  ret (SweepState c f result text).

(** [for (x = ...; x < subdivisions; x++)], with [n] pixels left. *)
Fixpoint row_loop (o : options) (n : nat) (x y : Z) (s : sweep_state)
  : comp sweep_state :=
  match n with
  | O => ret s
  | Datatypes.S n =>
      s <- cell o x y s ;;
      if opt_onerun o then ret s else row_loop o n (x + 1) y s
  end.

(** [for (y = ...; y < subdivisions; y++)], with [n] rows left. *)
Fixpoint rows_loop (o : options) (n : nat) (y : Z) (s : sweep_state)
  : comp sweep_state :=
  match n with
  | O => ret s
  | Datatypes.S n =>
      s <- row_loop o (Z.to_nat (opt_subdivisions o)) 0 y s ;;
      if opt_onerun o then ret s else rows_loop o n (y + 1) s
  end.

(** The two loops of [main]; [f0] is the zeroed plant frequencies. *)
Definition sweep (o : options) (f0 : freqs) : comp sweep_state :=
  rows_loop o (Z.to_nat (opt_subdivisions o)) 0
    (SweepState (opt_params o) f0 (fun _ _ => None) []).

End Sweep.

Arguments sw_params {freqs} _.
Arguments sw_f {freqs} _.
Arguments sw_result {freqs} _ _ _.
Arguments sw_text {freqs} _.

Definition sweep1 (o : options) : comp (sweep_state Model1.freqs) :=
  sweep Model1.freqs Model1.simulate Model1.female Model1.category_of o
    (Model1.Freqs 0 0 0 0 0 0).

Definition sweep2 (o : options) : comp (sweep_state Model2.freqs) :=
  sweep Model2.freqs Model2.simulate Model2.female Model2.category_of o
    (Model2.Freqs 0 0 0 0 0 0 0 0 0).

(** Two settings of the globals that differ in [Q] and [F] at most. *)
Definition same_base (c c' : params) : Prop :=
  par_h c' = par_h c /\ par_S c' = par_S c /\ par_d c' = par_d c /\
  par_V c' = par_V c /\ par_PSatF c' = par_PSatF c /\ par_ppY c' = par_ppY c.

(** The parameters that the sweep does not set are in their ranges. *)
Definition valid_base (c : params) : Prop :=
  unit_interval (par_h c) /\ unit_interval (par_S c) /\
  unit_interval (par_d c) /\ unit_interval (par_V c) /\
  0 <= par_PSatF c /\ 0 <= par_ppY c.

(** The final frequencies of the grid point [(x, y)] when it is run on its
    own, from the globals as the command line left them. *)
Definition cell_run (freqs : Type)
  (simulate : params -> bool -> Z -> freqs -> comp freqs)
  (o : options) (f0 : freqs) (x y : Z) : comp freqs :=
  c <- grid_point o (opt_params o) x y ;;
  simulate c (opt_pgd o) (opt_endpoint o) f0.

(** The category of the grid point [(x, y)] when it is run on its own, from
    the globals as the command line left them. *)
Definition cell_category (freqs : Type)
  (simulate : params -> bool -> Z -> freqs -> comp freqs)
  (category_of : Q -> freqs -> category)
  (o : options) (f0 : freqs) (x y : Z) : comp category :=
  c <- grid_point o (opt_params o) x y ;;
  f <- simulate c (opt_pgd o) (opt_endpoint o) f0 ;;
  ret (category_of (opt_threshold o) f).

(** The pixels that the loops have passed when they reach [(x, y)]. *)
Definition passed (o : options) (x y x' y' : Z) : Prop :=
  (0 <= x' < opt_subdivisions o)%Z /\ (0 <= y')%Z /\
  ((y' < y)%Z \/ (y' = y /\ (x' < x)%Z)).

(** Every pixel passed holds the category of its own run and, with
    [--gnuplot], its female frequency stands in the text at its place in
    the order of the loops; the other pixels hold nothing. *)
Definition cells_done (freqs : Type)
  (simulate : params -> bool -> Z -> freqs -> comp freqs)
  (female : freqs -> Q) (category_of : Q -> freqs -> category)
  (o : options) (f0 : freqs) (x y : Z)
  (result : Z -> Z -> option category) (text : list Q) : Prop :=
  forall x' y',
    (passed o x y x' y' ->
     exists f,
       value (cell_run freqs simulate o f0 x' y') = Some f /\
       result x' y' = Some (category_of (opt_threshold o) f) /\
       (opt_gnuplot o = true ->
        nth_error text (Z.to_nat (y' * opt_subdivisions o + x'))
        = Some (female f))) /\
    (~ passed o x y x' y' -> result x' y' = None).

(** The number of values in the text when the loops reach [(x, y)]. *)
Definition text_length (o : options) (x y : Z) : nat :=
  if opt_gnuplot o then Z.to_nat (y * opt_subdivisions o + x) else O.

(** ** The bitmap

    The [int]s of [drawbmp] are integers here; the statements below are
    about sizes for which the C arithmetic does not overflow. *)

(** An [int] stored in an [unsigned int] wraps around at [2^32]. *)
Definition u32 (v : Z) : Z := (v mod 2 ^ 32)%Z.

(** The byte that [%c] writes for an [int]. *)
Definition byte_of (v : Z) : Z := (v mod 256)%Z.

(** How many bytes of padding to add to each horizontal line. *)
Definition extrabytes (subdivisions magnify : Z) : Z :=
  let extrabytes := (4 - Z.rem (subdivisions * magnify * 3) 4)%Z in
  if (extrabytes =? 4)%Z then 0%Z else extrabytes.

Definition paddedsize (subdivisions magnify : Z) : Z :=
  ((subdivisions * magnify * 3 + extrabytes subdivisions magnify)
   * subdivisions * magnify)%Z.

(** [headers[n]]; entry 6 is not used. *)
Definition headers (subdivisions magnify : Z) (n : Z) : Z :=
  u32 (match n with
       | 0 => paddedsize subdivisions magnify + 54    (* bfSize *)
       | 1 => 0                                        (* bfReserved *)
       | 2 => 54                                       (* bfOffbits *)
       | 3 => 40                                       (* biSize *)
       | 4 => subdivisions * magnify                   (* biWidth *)
       | 5 => subdivisions * magnify                   (* biHeight *)
       | 8 => paddedsize subdivisions magnify          (* biSizeImage *)
       | _ => 0
       end)%Z.

(** An [unsigned int] written one character at a time. *)
Definition le_bytes (h : Z) : list Z :=
  [ byte_of (Z.land h 0x000000FF);
    byte_of (Z.shiftr (Z.land h 0x0000FF00) 8);
    byte_of (Z.shiftr (Z.land h 0x00FF0000) 16);
    byte_of (Z.shiftr (Z.land h 0xFF000000) 24) ]%Z.

(** Red, green and blue of a pixel. *)
Definition colour (r : Z) : Z * Z * Z :=
  let rgb := (0, 0, 0)%Z in
  let rgb := if (r =? code PGD)%Z then (255, 127, 127)%Z else rgb in
  let rgb := if (r =? code DIO)%Z then (127, 0, 255)%Z else rgb in
  let rgb := if (r =? code SSD)%Z then (255, 255, 0)%Z else rgb in
  let rgb := if (r =? code PAD)%Z then (180, 180, 255)%Z else rgb in
  let rgb := if (r =? code INC)%Z then (255, 255, 255)%Z else rgb in
  rgb.

(** [for (i = 0; i < n; i++)] around a body that writes [out i]. *)
Definition for_up (n : Z) (out : Z -> list Z) : list Z :=
  flat_map out (map Z.of_nat (seq 0 (Z.to_nat n))).

(** One horizontal line: the pixels, each [magnify] times, in (b,g,r)
    format, then the padding. *)
Definition pixel_row (result : Z -> Z -> Z) (subdivisions magnify y : Z)
  : list Z :=
  for_up subdivisions (fun x =>
    let '(red, green, blue) := colour (result x y) in
    for_up magnify (fun _ => [byte_of blue; byte_of green; byte_of red]))
  ++ (if (extrabytes subdivisions magnify =? 0)%Z then []
      else for_up (extrabytes subdivisions magnify) (fun _ => [byte_of 0])).

(** The bytes that [drawbmp] writes to a file it could create. *)
Definition drawbmp (result : Z -> Z -> Z) (subdivisions magnify : Z)
  : list Z :=
  [66; 77]%Z
  ++ flat_map (fun n => le_bytes (headers subdivisions magnify n))
       [0; 1; 2; 3; 4; 5]%Z
  ++ [byte_of 1; byte_of 0; byte_of 24; byte_of 0]
  ++ flat_map (fun n => le_bytes (headers subdivisions magnify n))
       [7; 8; 9; 10; 11; 12]%Z
  ++ for_up subdivisions (fun y =>
       for_up magnify (fun _ => pixel_row result subdivisions magnify y)).

(** The number that four bytes stand for, lowest byte first. *)
Definition le_value (bytes : list Z) : Z :=
  fold_right (fun b v => b + 256 * v)%Z 0%Z bytes.

(** The [result] array after a sweep; a pixel never written is taken as 0. *)
Definition result_codes (result : Z -> Z -> option category) (x y : Z) : Z :=
  match result x y with
  | Some c => code c
  | None => 0%Z
  end.

(** ** The command line *)

Module CommandLine.
Import Ascii String.
Local Open Scope string_scope.

(** Assignments to the globals. *)
Definition set_params (o : options) (c : params) : options :=
  Options c (opt_pgd o) (opt_subdivisions o) (opt_gnuplot o) (opt_endpoint o)
          (opt_threshold o) (opt_onerun o) (opt_oldformat o)
          (opt_oldformatlimit o).

Definition set_h (o : options) (v : Q) : options :=
  let c := opt_params o in
  set_params o (Params v (par_S c) (par_d c) (par_V c) (par_Q c) (par_F c)
                       (par_PSatF c) (par_ppY c)).

Definition set_S (o : options) (v : Q) : options :=
  let c := opt_params o in
  set_params o (Params (par_h c) v (par_d c) (par_V c) (par_Q c) (par_F c)
                       (par_PSatF c) (par_ppY c)).

Definition set_d (o : options) (v : Q) : options :=
  let c := opt_params o in
  set_params o (Params (par_h c) (par_S c) v (par_V c) (par_Q c) (par_F c)
                       (par_PSatF c) (par_ppY c)).

Definition set_V (o : options) (v : Q) : options :=
  let c := opt_params o in
  set_params o (Params (par_h c) (par_S c) (par_d c) v (par_Q c) (par_F c)
                       (par_PSatF c) (par_ppY c)).

Definition set_ppY (o : options) (v : Q) : options :=
  let c := opt_params o in
  set_params o (Params (par_h c) (par_S c) (par_d c) (par_V c) (par_Q c)
                       (par_F c) (par_PSatF c) v).

Definition set_pgd (o : options) (v : bool) : options :=
  Options (opt_params o) v (opt_subdivisions o) (opt_gnuplot o)
          (opt_endpoint o) (opt_threshold o) (opt_onerun o) (opt_oldformat o)
          (opt_oldformatlimit o).

Definition set_subdivisions (o : options) (v : Z) : options :=
  Options (opt_params o) (opt_pgd o) v (opt_gnuplot o)
          (opt_endpoint o) (opt_threshold o) (opt_onerun o) (opt_oldformat o)
          (opt_oldformatlimit o).

Definition set_gnuplot (o : options) (v : bool) : options :=
  Options (opt_params o) (opt_pgd o) (opt_subdivisions o) v
          (opt_endpoint o) (opt_threshold o) (opt_onerun o) (opt_oldformat o)
          (opt_oldformatlimit o).

Definition set_endpoint (o : options) (v : Z) : options :=
  Options (opt_params o) (opt_pgd o) (opt_subdivisions o) (opt_gnuplot o)
          v (opt_threshold o) (opt_onerun o) (opt_oldformat o)
          (opt_oldformatlimit o).

Definition set_threshold (o : options) (v : Q) : options :=
  Options (opt_params o) (opt_pgd o) (opt_subdivisions o) (opt_gnuplot o)
          (opt_endpoint o) v (opt_onerun o) (opt_oldformat o)
          (opt_oldformatlimit o).

Definition set_onerun (o : options) (v : bool) : options :=
  Options (opt_params o) (opt_pgd o) (opt_subdivisions o) (opt_gnuplot o)
          (opt_endpoint o) (opt_threshold o) v (opt_oldformat o)
          (opt_oldformatlimit o).

Definition set_oldformat (o : options) (v : bool) : options :=
  Options (opt_params o) (opt_pgd o) (opt_subdivisions o) (opt_gnuplot o)
          (opt_endpoint o) (opt_threshold o) (opt_onerun o) v
          (opt_oldformatlimit o).

Definition set_oldformatlimit (o : options) (v : Z) : options :=
  Options (opt_params o) (opt_pgd o) (opt_subdivisions o) (opt_gnuplot o)
          (opt_endpoint o) (opt_threshold o) (opt_onerun o) (opt_oldformat o)
          v.

(** How [parsecommandline] ends: it returns; or it prints "Unrecognised
    option" and exits with status 1; or it hands [argv[argc]], a null
    pointer, to [atof]. *)
Inductive outcome : Type :=
| Parsed (o : options)
| Unrecognised (arg : string)
| NullArgument.

(** [isdigit] *)
Definition isdigit (c : ascii) : bool :=
  (48 <=? nat_of_ascii c)%nat && (nat_of_ascii c <=? 57)%nat.

(** [argv[n][0] == '-' && isdigit(argv[n][1]) == 0]; the character after
    the last one is the terminating 0. *)
Definition looks_like_option (a : string) : bool :=
  match a with
  | EmptyString => false
  | String c0 EmptyString => (c0 =? "-")%char
  | String c0 (String c1 _) => (c0 =? "-")%char && negb (isdigit c1)
  end.

Section Parse.

(** The C library. *)
Variable atof : string -> Q.
Variable atoi : string -> Z.

(** [MODEL]: only model 1 knows [--ppY]. *)
Variable model : Z.

(** The loop of [parsecommandline] from [argv[n]] on; [args] is
    [argv[n]], ..., [argv[argc - 1]].  After an option with a value the
    loop goes on at the value. *)
Fixpoint parse (args : list string) (o : options) : comp outcome :=
  match args with
  | [] => ret (Parsed o)
  | a :: rest =>
      (* n < argc - 1 *)
      let more := match rest with [] => false | _ :: _ => true end in
      (* argv[n + 1] *)
      let next := hd EmptyString rest in
      let opt (s : string) := String.eqb a s in
      if (opt "-H" || opt "-h" || opt "--inconstanth") && more then
        parse rest (set_h o (atof next))
      else if (opt "-S" || opt "-s" || opt "--selfing") && more then
        parse rest (set_S o (atof next))
      else if (opt "-D" || opt "-d" || opt "--depression") && more then
        parse rest (set_d o (atof next))
      else if opt "--PSatF" && more then
        parse rest (set_params o (set_PSatF (opt_params o) (atof next)))
      else if (model =? 1)%Z && opt "--ppY" && more then
        parse rest (set_ppY o (atof next))
      else if (opt "-V" || opt "-v") && more then
        parse rest (set_V o (atof next))
      else if opt "--yypenalty" && more then
        parse rest (set_V o (1 - atof next))
      else if opt "--ancient" || opt "--ancientdioecy" then
        parse rest (set_V o 0)
      else if opt "--recent" || opt "--recentdioecy" then
        parse rest (set_V o 1)
      else if (opt "-Q" || opt "-q") && more then
        parse rest (set_params o (set_Q (opt_params o) (atof next)))
      else if (opt "-F" || opt "-f") && more then
        parse rest (set_params o (set_F (opt_params o) (atof next)))
      else if (opt "-K" || opt "--malek") && more then
        q <- fdiv 1 (1 + atof next) ;;
        parse rest (set_params o (set_Q (opt_params o) q))
      else if opt "--pi" then
        match rest with
        | [] => ret NullArgument
        | v :: _ =>
            q <- fdiv 1 (atof v) ;;
            parse rest (set_params o (set_Q (opt_params o) q))
        end
      else if (opt "-k" || opt "--femalek") && more then
        q <- fdiv 1 (1 + atof next) ;;
        parse rest (set_params o (set_F (opt_params o) q))
      else if opt "--omega" then
        match rest with
        | [] => ret NullArgument
        | v :: _ =>
            q <- fdiv 1 (atof v) ;;
            parse rest (set_params o (set_F (opt_params o) q))
        end
      else if opt "--threshold" && more then
        parse rest (set_threshold o (atof next))
      else if opt "--subdivisions" && more then
        parse rest (set_subdivisions o (atoi next))
      else if opt "--oldformatlimit" && more then
        parse rest (set_oldformatlimit o (atoi next))
      else if (opt "--endpoint" || opt "--iterations") && more then
        parse rest (set_endpoint o (atoi next))
      else if opt "--onerun" then parse rest (set_onerun o true)
      else if opt "--pgd" then parse rest (set_pgd o true)
      else if opt "--oldformat" then parse rest (set_oldformat o true)
      else if opt "--gnuplot" then parse rest (set_gnuplot o true)
      else if looks_like_option a then ret (Unrecognised a)
      else parse rest o
  end.

(** [parsecommandline(argc, argv)], from the defaults; [argv[0]] is the
    name of the program. *)
Definition parsecommandline (argv : list string) : comp outcome :=
  parse (tl argv) default_options.

End Parse.

(** The options that want a value and check that one follows. *)
Definition valued_options (model : Z) : list string :=
  ([ "-H"; "-h"; "--inconstanth"; "-S"; "-s"; "--selfing";
     "-D"; "-d"; "--depression"; "--PSatF" ]
   ++ (if (model =? 1)%Z then ["--ppY"] else [])
   ++ [ "-V"; "-v"; "--yypenalty"; "-Q"; "-q"; "-F"; "-f";
        "-K"; "--malek"; "-k"; "--femalek"; "--threshold";
        "--subdivisions"; "--oldformatlimit"; "--endpoint";
        "--iterations" ])%list.

(** The options that take their value without that check. *)
Definition unchecked_options : list string := [ "--pi"; "--omega" ].

(** The options without a value. *)
Definition flag_options : list string :=
  [ "--ancient"; "--ancientdioecy"; "--recent"; "--recentdioecy";
    "--onerun"; "--pgd"; "--oldformat"; "--gnuplot" ].

Definition known_options (model : Z) : list string :=
  (valued_options model ++ unchecked_options ++ flag_options)%list.

End CommandLine.

(** * The arithmetic of the machine

    The C programs compute in [float], the binary32 format of IEEE 754, and
    their decimal constants are [double]s (binary64).  This part embeds the
    generation step of model 1 in that arithmetic, operation by operation
    and rounding by rounding, for a compiler that evaluates a [float]
    expression in [float].  It serves to evaluate the program where the
    exact arithmetic above and the machine part company: products that leave
    the range of [float]. *)

Module CFloat.
Import SpecFloat.

(** A value of an expression: an [int], a [float] or a [double]. *)
Inductive num : Type :=
| Int (z : Z)
| Float (x : spec_float)
| Double (x : spec_float).

(** Conversions to [float] and to [double]: to the nearest value, ties to
    even. *)
Definition round32 (x : spec_float) : spec_float :=
  match x with
  | S754_finite s m e => binary_round 24 128 s m e
  | _ => x
  end.

Definition round64 (x : spec_float) : spec_float :=
  match x with
  | S754_finite s m e => binary_round 53 1024 s m e
  | _ => x
  end.

(** The value stored by an assignment to a [float] variable. *)
Definition to_float (n : num) : spec_float :=
  match n with
  | Int z => binary_normalize 24 128 z 0 false
  | Float x => x
  | Double x => round32 x
  end.

Definition to_double (n : num) : spec_float :=
  match n with
  | Int z => binary_normalize 53 1024 z 0 false
  | Float x => round64 x
  | Double x => x
  end.

Definition is_double (n : num) : bool :=
  match n with Double _ => true | _ => false end.

(** The usual arithmetic conversions: an operation is done in [double]
    when one operand is a [double], else in [float] when one is a [float],
    else in [int]. *)
Definition arith (opz : Z -> Z -> Z)
  (op : Z -> Z -> spec_float -> spec_float -> spec_float) (a b : num) : num :=
  match a, b with
  | Int x, Int y => Int (opz x y)
  | _, _ =>
      if is_double a || is_double b
      then Double (op 53 1024 (to_double a) (to_double b))%Z
      else Float (op 24 128 (to_float a) (to_float b))%Z
  end.

Definition add : num -> num -> num := arith Z.add SFadd.
Definition sub : num -> num -> num := arith Z.sub SFsub.
Definition mul : num -> num -> num := arith Z.mul SFmul.
Definition div : num -> num -> num := arith Z.quot SFdiv.

(** [a > b] and [a >= b]; both conversions to [double] are exact. *)
Definition gt (a b : num) : bool := SFltb (to_double b) (to_double a).
Definition ge (a b : num) : bool := SFleb (to_double b) (to_double a).

(** The decimal constant [n / 10^k] of the source text, and what [atof]
    returns for it: the nearest [double]. *)
Definition decimal (n k : Z) : num :=
  Double (SFdiv 53 1024 (binary_normalize 53 1024 n 0 false)
            (binary_normalize 53 1024 (10 ^ k) 0 false)).

(** The constant [n * 10^k], as in [3e38]. *)
Definition scientific (n k : Z) : num :=
  Double (binary_normalize 53 1024 (n * 10 ^ k) 0 false).

(** The value of a [float] variable set to an integer, to [n / 10^k], to
    [n * 10^k]. *)
Definition of_Z (z : Z) : spec_float := to_float (Int z).
Definition of_decimal (n k : Z) : spec_float := to_float (decimal n k).
Definition of_scientific (n k : Z) : spec_float :=
  to_float (scientific n k).

Definition is_nan (x : spec_float) : bool :=
  match x with S754_nan => true | _ => false end.

(** [0 <= x] and [0 <= x <= 1] for a [float]. *)
Definition nonnegative (x : spec_float) : bool := ge (Float x) (Int 0).
Definition unit (x : spec_float) : bool :=
  ge (Float x) (Int 0) && ge (Int 1) (Float x).

End CFloat.

Declare Scope c_scope.
Delimit Scope c_scope with C.
Bind Scope c_scope with CFloat.num.
Notation "x + y" := (CFloat.add x y) : c_scope.
Notation "x - y" := (CFloat.sub x y) : c_scope.
Notation "x * y" := (CFloat.mul x y) : c_scope.
Notation "x / y" := (CFloat.div x y) : c_scope.
Notation "x > y" := (CFloat.gt x y) : c_scope.
Notation "x >= y" := (CFloat.ge x y) : c_scope.

(** Model 1 in the arithmetic of the machine. *)
Module Model1Float.
Import SpecFloat CFloat.

Coercion Float : spec_float >-> num.
Coercion Int : Z >-> num.

(** The globals [h], [S], [d], [V], [Q], [F], [PSatF] and [ppY]. *)
Record params : Type := Params {
  par_h : spec_float; par_S : spec_float; par_d : spec_float;
  par_V : spec_float; par_Q : spec_float; par_F : spec_float;
  par_PSatF : spec_float; par_ppY : spec_float
}.

(** Plant frequencies. *)
Record freqs : Type := Freqs {
  f_AA : spec_float; f_Aa : spec_float; f_Aas : spec_float;
  f_aa : spec_float; f_aas : spec_float; f_asas : spec_float
}.

(** Set start plant frequencies. *)
Definition start (pgd : bool) : freqs :=
  if negb pgd then
    Freqs (of_decimal 499 3) (of_decimal 499 3) (of_decimal 2 3)
          (of_Z 0) (of_Z 0) (of_Z 0)
  else
    Freqs (of_decimal 499 3) (of_decimal 2 3) (of_decimal 499 3)
          (of_Z 0) (of_Z 0) (of_Z 0).

(** One pass of the loop body, statement by statement. *)
Definition generation (c : params) (f : freqs) : freqs :=
  let h := par_h c in
  let S := par_S c in
  let d := par_d c in
  let V := par_V c in
  let Q := par_Q c in
  let F := par_F c in
  let PSatF := par_PSatF c in
  let ppY := par_ppY c in
  let '(Freqs f_AA f_Aa f_Aas f_aa f_aas f_asas) := f in
  let half := decimal 5 1 in
  let quarter := decimal 25 2 in
  (* outcrossed pollen frequencies *)
  let p_A := to_float 0%Z in
  let p_a := to_float 0%Z in
  let p_as := to_float 0%Z in
  let p_A := to_float (p_A + f_Aa * half)%C in
  let p_a := to_float (p_a + f_Aa * half)%C in
  let p_A := to_float (p_A + f_Aas * half * h * Q)%C in
  let p_as := to_float (p_as + f_Aas * half * h * Q)%C in
  let p_A := to_float (p_A + f_Aas * half * (1%Z - h))%C in
  let p_as := to_float (p_as + f_Aas * half * (1%Z - h))%C in
  let p_a := to_float (p_a + f_aa)%C in
  let p_a := to_float (p_a + f_aas * half * h * Q)%C in
  let p_as := to_float (p_as + f_aas * half * h * Q)%C in
  let p_a := to_float (p_a + f_aas * half * (1%Z - h))%C in
  let p_as := to_float (p_as + f_aas * half * (1%Z - h))%C in
  let p_as := to_float (p_as + f_asas * h * Q)%C in
  let p_as := to_float (p_as + f_asas * (1%Z - h))%C in
  (* Y pollen viability penalty *)
  let p_a := to_float (p_a * ppY)%C in
  let p_as := to_float (p_as * ppY)%C in
  (* normalise pollen frequencies *)
  let totalpollen := to_float (p_A + p_a + p_as)%C in
  let '(p_A, p_a, p_as) :=
    if (totalpollen > 0%Z)%C then
      (to_float (p_A / totalpollen)%C, to_float (p_a / totalpollen)%C,
       to_float (p_as / totalpollen)%C)
    else (p_A, p_a, p_as) in
  (* outcrossed egg frequencies *)
  let PSatC := to_float (PSatF * F * (1%Z - S))%C in
  let e_A := to_float 0%Z in
  let e_a := to_float 0%Z in
  let e_as := to_float 0%Z in
  let e_A :=
    if (totalpollen >= PSatF)%C then to_float (e_A + f_AA)%C
    else to_float (e_A + f_AA * totalpollen / PSatF)%C in
  let '(e_A, e_as) :=
    if (totalpollen >= PSatC)%C then
      (to_float (e_A + f_Aas * h * half * (1%Z - S) * F)%C,
       to_float (e_as + f_Aas * h * half * (1%Z - S) * F)%C)
    else
      (to_float (e_A + f_Aas * h * half * (1%Z - S) * F * totalpollen
                       / PSatC)%C,
       to_float (e_as + f_Aas * h * half * (1%Z - S) * F * totalpollen
                        / PSatC)%C) in
  let '(e_a, e_as) :=
    if (totalpollen >= PSatC)%C then
      (to_float (e_a + f_aas * h * half * (1%Z - S) * F)%C,
       to_float (e_as + f_aas * h * half * (1%Z - S) * F)%C)
    else
      (to_float (e_a + f_aas * h * half * (1%Z - S) * F * totalpollen
                       / PSatC)%C,
       to_float (e_as + f_aas * h * half * (1%Z - S) * F * totalpollen
                        / PSatC)%C) in
  let e_as :=
    if (totalpollen >= PSatC)%C then
      to_float (e_as + f_asas * h * (1%Z - S) * F)%C
    else
      to_float (e_as + f_asas * h * (1%Z - S) * F * totalpollen / PSatC)%C in
  (* plant frequencies from outcrossing *)
  let next_f_AA := to_float (p_A * e_A)%C in
  let next_f_Aa := to_float (p_A * e_a + p_a * e_A)%C in
  let next_f_Aas := to_float (p_A * e_as + p_as * e_A)%C in
  let next_f_aa := to_float (p_a * e_a)%C in
  let next_f_aas := to_float (p_a * e_as + p_as * e_a)%C in
  let next_f_asas := to_float (p_as * e_as)%C in
  (* additional plants from selfing *)
  let next_f_AA :=
    to_float (next_f_AA
              + f_Aas * (half / (1%Z + ppY)) * S * (1%Z - d) * h * F)%C in
  let next_f_Aas :=
    to_float (next_f_Aas + f_Aas * half * S * (1%Z - d) * h * F)%C in
  let next_f_asas :=
    to_float (next_f_asas
              + f_Aas * (half * ppY / (1%Z + ppY)) * S * (1%Z - d) * h * F)%C
  in
  let next_f_aa :=
    to_float (next_f_aa + f_aas * quarter * S * (1%Z - d) * h * F)%C in
  let next_f_aas :=
    to_float (next_f_aas + f_aas * half * S * (1%Z - d) * h * F)%C in
  let next_f_asas :=
    to_float (next_f_asas + f_aas * quarter * S * (1%Z - d) * h * F)%C in
  let next_f_asas :=
    to_float (next_f_asas + f_asas * S * (1%Z - d) * h * F)%C in
  (* YY penalty *)
  let next_f_aa := to_float (next_f_aa * V)%C in
  let next_f_aas := to_float (next_f_aas * V)%C in
  let next_f_asas := to_float (next_f_asas * V)%C in
  (* copy, and normalise plant frequencies *)
  let f_AA := next_f_AA in
  let f_Aa := next_f_Aa in
  let f_Aas := next_f_Aas in
  let f_aa := next_f_aa in
  let f_aas := next_f_aas in
  let f_asas := next_f_asas in
  let totalplants :=
    to_float (f_AA + f_Aa + f_Aas + f_aa + f_aas + f_asas)%C in
  if (totalplants > 0%Z)%C then
    Freqs (to_float (f_AA / totalplants)%C) (to_float (f_Aa / totalplants)%C)
          (to_float (f_Aas / totalplants)%C) (to_float (f_aa / totalplants)%C)
          (to_float (f_aas / totalplants)%C)
          (to_float (f_asas / totalplants)%C)
  else Freqs f_AA f_Aa f_Aas f_aa f_aas f_asas.

(** The parameters of the first claim: [h], [S], [d], [V] in [[0,1]], the
    others not negative. *)
Definition valid_params (c : params) : bool :=
  unit (par_h c) && unit (par_S c) && unit (par_d c) && unit (par_V c)
  && nonnegative (par_Q c) && nonnegative (par_F c)
  && nonnegative (par_PSatF c) && nonnegative (par_ppY c).

Definition nonneg (f : freqs) : bool :=
  nonnegative (f_AA f) && nonnegative (f_Aa f) && nonnegative (f_Aas f)
  && nonnegative (f_aa f) && nonnegative (f_aas f) && nonnegative (f_asas f).

Definition total_plants (f : freqs) : spec_float :=
  to_float (f_AA f + f_Aa f + f_Aas f + f_aa f + f_aas f + f_asas f)%C.

(** Neither an infinity nor a NaN. *)
Definition finite (x : spec_float) : bool :=
  match x with S754_nan | S754_infinity _ => false | _ => true end.

(** Finite, non-negative frequencies whose sum is 0 or within [10^-6] of
    1. *)
Definition normalised (f : freqs) : bool :=
  finite (f_AA f) && finite (f_Aa f) && finite (f_Aas f)
  && finite (f_aa f) && finite (f_aas f) && finite (f_asas f)
  && nonneg f
  && (SFeqb (total_plants f) (of_Z 0)
      || (SFleb (of_decimal 999999 6) (total_plants f)
          && SFleb (total_plants f) (of_decimal 1000001 6))).

(** The corners of the parameter ranges: [h], [S], [d], [V], [Q], [F] and
    [ppY] each 0 or 1, [PSatF] 0 or [FLT_MAX]. *)
Definition corners : list params :=
  let bit := [of_Z 0; of_Z 1] in
  let FLT_MAX := S754_finite false 16777215 104 in
  flat_map (fun h => flat_map (fun S => flat_map (fun d =>
  flat_map (fun V => flat_map (fun Q => flat_map (fun F =>
  flat_map (fun PSatF => map (fun ppY => Params h S d V Q F PSatF ppY) bit)
    [of_Z 0; FLT_MAX]) bit) bit) bit) bit) bit) bit.

End Model1Float.

(** * Verification *)

(** ** Comparisons *)

Lemma Qgt_bool_true (x y : Q) : Qgt_bool x y = true <-> y < x.
Proof.
  unfold Qgt_bool. rewrite negb_true_iff, <- not_true_iff_false, Qle_bool_iff.
  split; intros H; [apply Qnot_le_lt | apply Qlt_not_le]; exact H.
Qed.

Lemma Qgt_bool_false (x y : Q) : Qgt_bool x y = false <-> x <= y.
Proof.
  unfold Qgt_bool. rewrite negb_false_iff. apply Qle_bool_iff.
Qed.

Lemma Qge_bool_true (x y : Q) : Qge_bool x y = true <-> y <= x.
Proof. unfold Qge_bool. apply Qle_bool_iff. Qed.

Lemma Qge_bool_false (x y : Q) : Qge_bool x y = false <-> x < y.
Proof.
  unfold Qge_bool. rewrite <- not_true_iff_false, Qle_bool_iff.
  split; intros H; [apply Qnot_le_lt | apply Qlt_not_le]; exact H.
Qed.

(** Decide a test of the program, keeping what it says about the numbers. *)
Ltac split_test t :=
  let E := fresh "E" in
  destruct t eqn:E;
  [ first [ apply Qgt_bool_true in E | apply Qge_bool_true in E
          | apply Qeq_bool_iff in E ]
  | first [ apply Qgt_bool_false in E | apply Qge_bool_false in E
          | apply Qeq_bool_neq in E ] ].

(** ** Computations *)

Section Runs.
Context {A B : Type}.
Variable D : Q -> Prop.

Lemma runs_ret (a : A) (P : A -> Prop) : P a -> runs D (ret a) P.
Proof. intros H. split; [constructor | exists a; auto]. Qed.

Lemma runs_bind (m : comp A) (k : A -> comp B) (P : A -> Prop)
    (R : B -> Prop) :
    runs D m P -> (forall a, P a -> runs D (k a) R) -> runs D (bind m k) R.
Proof.
    intros [Hd (a & Ha & HP)] Hk. destruct (Hk a HP) as [Hd' (b & Hb & HR)].
    unfold runs, bind. rewrite Ha. cbn. split.
    - apply Forall_app; split; assumption.
    - exists b; auto.
Qed.

Lemma runs_weaken (m : comp A) (P R : A -> Prop) :
    runs D m P -> (forall a, P a -> R a) -> runs D m R.
Proof. intros [Hd (a & Ha & HP)] H. split; [exact Hd | exists a; auto]. Qed.

Lemma runs_value (m : comp A) (P : A -> Prop) :
    runs D m P -> exists a, value m = Some a /\ P a.
Proof. intros [_ H]. exact H. Qed.
End Runs.

Lemma runs_fdiv (D : Q -> Prop) (x y : Q) (P : Q -> Prop) :
  D y -> ~ y == 0 -> P (x / y) -> runs D (fdiv x y) P.
Proof.
  intros HD Hy HP. unfold runs, fdiv; cbn. split.
  - constructor; [exact HD | constructor].
  - destruct (Qeq_bool y 0) eqn:E.
    + apply Qeq_bool_iff in E. contradiction.
    + exists (x / y); auto.
Qed.

Lemma safe_fdiv (x y : Q) (P : Q -> Prop) :
  0 < y -> P (x / y) -> safe (fdiv x y) P.
Proof. intros Hy HP. apply runs_fdiv; [exact Hy | lra | exact HP]. Qed.

Lemma defined_fdiv (x y : Q) (P : Q -> Prop) :
  ~ y == 0 -> P (x / y) -> defined (fdiv x y) P.
Proof. intros Hy HP. apply runs_fdiv; assumption. Qed.

Lemma safe_defined {A} (m : comp A) (P : A -> Prop) : safe m P -> defined m P.
Proof.
  intros [Hd H]. split; [| exact H].
  eapply Forall_impl; [| exact Hd]. cbn. intros y Hy. lra.
Qed.

(** A zero divisor leaves no value, whatever follows. *)
Lemma fdiv_zero (x y : Q) : y == 0 -> value (fdiv x y) = None.
Proof. intros H. unfold fdiv; cbn. apply Qeq_bool_iff in H. now rewrite H. Qed.

Lemma Qdiv_nonneg (x y : Q) : 0 <= x -> 0 < y -> 0 <= x / y.
Proof. intros Hx Hy. apply Qle_shift_div_l; [exact Hy | lra]. Qed.

Lemma Qdiv_zero_l (x y : Q) : x == 0 -> x / y == 0.
Proof. intros ->. unfold Qdiv. ring. Qed.

(** ** The classifier *)

Lemma classify_first_match (t fe ma inc : Q) :
  classify t fe ma inc = first_match (rules t fe ma inc).
Proof.
  unfold classify, first_match, rules; cbn.
  destruct (Qgt_bool fe t), (Qgt_bool ma t), (Qgt_bool inc t); reflexivity.
Qed.

Lemma classify_cases (t fe ma inc : Q) :
  (classify t fe ma inc = SSD <-> t < fe /\ t < ma /\ t < inc) /\
  (classify t fe ma inc = DIO <-> t < fe /\ t < ma /\ inc <= t) /\
  (classify t fe ma inc = PGD <-> t < fe /\ t < inc /\ ma <= t) /\
  (classify t fe ma inc = PAD <-> t < ma /\ t < inc /\ fe <= t) /\
  (classify t fe ma inc = INC <-> t < inc /\ fe <= t /\ ma <= t) /\
  (classify t fe ma inc = NONE <-> inc <= t /\ (fe <= t \/ ma <= t)).
Proof.
  unfold classify.
  split_test (Qgt_bool ma t); split_test (Qgt_bool fe t);
    split_test (Qgt_bool inc t); cbn;
    repeat split; intros; try discriminate; try lra; try reflexivity.
Qed.

(** C4: the classifier returns the first matching rule of the priority
    order SSD, DIO, PGD, PAD, INC, and "none" when no rule matches; each test
    is a strict comparison with the threshold.  Spelled out: every category
    is returned exactly on the set the specification lists for it. *)
Theorem classify_priority_order (t fe ma inc : Q) :
  classify t fe ma inc = first_match (rules t fe ma inc) /\
  (classify t fe ma inc = SSD <-> t < fe /\ t < ma /\ t < inc) /\
  (classify t fe ma inc = DIO <-> t < fe /\ t < ma /\ inc <= t) /\
  (classify t fe ma inc = PGD <-> t < fe /\ t < inc /\ ma <= t) /\
  (classify t fe ma inc = PAD <-> t < ma /\ t < inc /\ fe <= t) /\
  (classify t fe ma inc = INC <-> t < inc /\ fe <= t /\ ma <= t) /\
  (classify t fe ma inc = NONE <-> inc <= t /\ (fe <= t \/ ma <= t)).
Proof.
  split; [apply classify_first_match | apply classify_cases].
Qed.

(** C3, as stated, fails: with threshold 0 a population of females only is
    classified "none".  One generation from the dioecious start with [h = 0]
    and [ppY = 0] ends in such a population. *)
Lemma threshold_zero_females_only_none :
  exists f,
    value (Model1.run (Params 0 0 0 1 1 1 0 0) false 1 0
             (Model1.Freqs 0 0 0 0 0 0)) = Some (f, NONE) /\
    0 < Model1.female f /\
    classify 0 (Model1.female f) (Model1.male f) (Model1.inconstant f) = NONE.
Proof.
  eexists. split; [vm_compute; reflexivity |].
  split; vm_compute; reflexivity.
Qed.

(** C3, amended: with threshold 0 the classifier returns one of SSD, DIO,
    PGD, PAD, INC whenever the inconstant aggregate is positive or the female
    and the male aggregate both are; it returns "none" in every other case,
    so also when only females or only males are left. *)
Theorem threshold_zero_none (fe ma inc : Q) :
  (0 < inc \/ (0 < fe /\ 0 < ma) ->
   In (classify 0 fe ma inc) [SSD; DIO; PGD; PAD; INC]) /\
  (inc <= 0 /\ (fe <= 0 \/ ma <= 0) -> classify 0 fe ma inc = NONE).
Proof.
  destruct (classify_cases 0 fe ma inc) as (_ & _ & _ & _ & _ & HN).
  split.
  - intros H. destruct (classify 0 fe ma inc) eqn:E; cbn; auto 10.
    exfalso. destruct HN as [HN _]. specialize (HN eq_refl). lra.
  - intros H. apply HN. exact H.
Qed.

Lemma threshold_zero_none_witness :
  In (classify 0 0 0 0.5) [SSD; DIO; PGD; PAD; INC] /\
  classify 0 0 1 0 = NONE.
Proof.
  split.
  - apply (proj1 (threshold_zero_none 0 0 0.5)). left. reflexivity.
  - apply (proj2 (threshold_zero_none 0 1 0)). split; [| left]; discriminate.
Defined.

(** C10: each genotype is counted in exactly one of female, male and
    inconstant, in both models; the three aggregates add up to the sum of
    all genotype frequencies, so to 1 on a normalised vector, and to 0 on a
    vector of non-negative frequencies only if it is extinct. *)
Theorem aggregates_partition :
  (forall x : Q,
     let c f := counted_once (Model1.female f) (Model1.male f)
                  (Model1.inconstant f) x in
     c (Model1.Freqs x 0 0 0 0 0) /\ c (Model1.Freqs 0 x 0 0 0 0) /\
     c (Model1.Freqs 0 0 x 0 0 0) /\ c (Model1.Freqs 0 0 0 x 0 0) /\
     c (Model1.Freqs 0 0 0 0 x 0) /\ c (Model1.Freqs 0 0 0 0 0 x)) /\
  (forall x : Q,
     let c f := counted_once (Model2.female f) (Model2.male f)
                  (Model2.inconstant f) x in
     c (Model2.Freqs x 0 0 0 0 0 0 0 0) /\ c (Model2.Freqs 0 x 0 0 0 0 0 0 0) /\
     c (Model2.Freqs 0 0 x 0 0 0 0 0 0) /\ c (Model2.Freqs 0 0 0 x 0 0 0 0 0) /\
     c (Model2.Freqs 0 0 0 0 x 0 0 0 0) /\ c (Model2.Freqs 0 0 0 0 0 x 0 0 0) /\
     c (Model2.Freqs 0 0 0 0 0 0 x 0 0) /\ c (Model2.Freqs 0 0 0 0 0 0 0 x 0) /\
     c (Model2.Freqs 0 0 0 0 0 0 0 0 x)) /\
  (forall f : Model1.freqs,
     Model1.female f + Model1.male f + Model1.inconstant f
       == Model1.total_plants f /\
     (Model1.total_plants f == 1 ->
      Model1.female f + Model1.male f + Model1.inconstant f == 1) /\
     (Model1.nonneg f ->
      Model1.female f + Model1.male f + Model1.inconstant f == 0 ->
      Model1.extinct f)) /\
  (forall f : Model2.freqs,
     Model2.female f + Model2.male f + Model2.inconstant f
       == Model2.total_plants f /\
     (Model2.total_plants f == 1 ->
      Model2.female f + Model2.male f + Model2.inconstant f == 1) /\
     (Model2.nonneg f ->
      Model2.female f + Model2.male f + Model2.inconstant f == 0 ->
      Model2.extinct f)).
Proof.
  split; [| split; [| split]].
  - intros x c. unfold c, counted_once, Model1.female, Model1.male,
      Model1.inconstant; cbn. repeat split; lra.
  - intros x c. unfold c, counted_once, Model2.female, Model2.male,
      Model2.inconstant; cbn. repeat split; lra.
  - intros [a1 a2 a3 a4 a5 a6].
    unfold Model1.female, Model1.male, Model1.inconstant, Model1.total_plants,
      Model1.nonneg, Model1.extinct; cbn.
    repeat split; intros; lra.
  - intros [a1 a2 a3 a4 a5 a6 a7 a8 a9].
    unfold Model2.female, Model2.male, Model2.inconstant, Model2.total_plants,
      Model2.nonneg, Model2.extinct; cbn.
    repeat split; intros; lra.
Qed.

Lemma aggregates_partition_witness :
  Model1.female (Model1.start false) + Model1.male (Model1.start false)
    + Model1.inconstant (Model1.start false) == 1.
Proof.
  apply (proj1 (proj2 (proj1 (proj2 (proj2 aggregates_partition))
                         (Model1.start false)))).
  reflexivity.
Defined.

(** C8: for [K >= 0] the program's [Q = 1 / (1 + K)] followed by the
    [(1 / Q) - 1] it prints gives [K] back, and both divisions have a
    positive divisor; the same functions serve [k] and [F]. *)
Theorem K_roundtrip (K : Q) :
  0 <= K -> safe (q <- of_K K ;; to_K q) (fun K' => K' == K).
Proof.
  intros HK. unfold of_K, to_K.
  apply runs_bind with (P := fun q => q == 1 / (1 + K)).
  - apply safe_fdiv; [lra | reflexivity].
  - intros q Hq.
    assert (Hpos : 0 < 1 / (1 + K)).
    { apply Qlt_shift_div_l; lra. }
    apply runs_bind with (P := fun x => x == 1 + K).
    + apply safe_fdiv; [lra |]. rewrite Hq. field. lra.
    + intros x Hx. apply runs_ret. lra.
Qed.

Lemma K_roundtrip_witness :
  safe (q <- of_K 4 ;; to_K q) (fun K' => K' == 4).
Proof. apply (K_roundtrip 4). discriminate. Defined.

Lemma Qadd_nonneg (x y : Q) : 0 <= x -> 0 <= y -> 0 <= x + y.
Proof. intros; lra. Qed.

Ltac nonneg :=
  repeat match goal with
         | |- 0 <= Qplus _ _ => apply Qadd_nonneg
         | |- 0 <= Qmult _ _ => apply Qmult_le_0_compat
         | |- 0 <= Qdiv _ _ => apply Qdiv_nonneg
         end;
  try lra.

Lemma safe_fdiv_eq (x y : Q) : 0 < y -> safe (fdiv x y) (fun q => q = x / y).
Proof. intros Hy. apply safe_fdiv; [exact Hy | reflexivity]. Qed.

Lemma fdiv_nonzero (x y : Q) :
  ~ y == 0 -> fdiv x y = Comp [y] (Some (x / y)).
Proof.
  intros Hy. unfold fdiv. destruct (Qeq_bool y 0) eqn:E; [| reflexivity].
  apply Qeq_bool_iff in E. contradiction.
Qed.

(** A computation that has been evaluated. *)
Ltac run_comp :=
  unfold safe, defined, runs;
  cbn [bind ret value divisors app];
  split;
  [ repeat (apply Forall_cons; [lra |]); apply Forall_nil
  | eexists; split; [reflexivity |] ].

Lemma value_bind {A B} (m : comp A) (k : A -> comp B) (a : A) :
  value m = Some a -> value (bind m k) = value (k a).
Proof. intros H. unfold bind. rewrite H. reflexivity. Qed.

Lemma Qmult_zero_pos (x y : Q) : x * y == 0 -> 0 < y -> x == 0.
Proof.
  intros H Hy. destruct (Qmult_integral _ _ H) as [Hx | Hx]; [exact Hx | lra].
Qed.

Module Model1Facts.
Import Model1.

Lemma raw_pollen_nonneg1 (c : params) (f : freqs) :
  nonneg f -> 0 <= par_h c <= 1 -> 0 <= par_Q c -> 0 <= par_ppY c ->
  pollen_nonneg (raw_pollen c f).
Proof.
  destruct c, f. unfold nonneg, pollen_nonneg, raw_pollen; cbn.
  intros (? & ? & ? & ? & ? & ?) [? ?] ? ?. repeat split; nonneg.
Qed.

Lemma normalise_pollen_spec1 (p : pollen) :
  safe (normalise_pollen p) (fun p' =>
    (pollen_nonneg p -> pollen_nonneg p') /\
    (0 < total_pollen p -> total_pollen p' == 1) /\
    (total_pollen p <= 0 -> p' = p)).
Proof.
  unfold normalise_pollen. split_test (Qgt_bool (total_pollen p) 0).
  - repeat (eapply runs_bind; [apply safe_fdiv_eq; exact E | intros ? ->]).
    apply runs_ret. unfold pollen_nonneg, total_pollen in *; cbn.
    repeat split.
    + apply Qdiv_nonneg; tauto.
    + apply Qdiv_nonneg; tauto.
    + apply Qdiv_nonneg; tauto.
    + intros _. field. lra.
    + intros. lra.
  - apply runs_ret. split; [auto | split; [intro; lra | reflexivity]].
Qed.

Lemma raw_pollen_extinct1 (c : params) (f : freqs) :
  extinct f -> no_pollen (raw_pollen c f).
Proof.
  destruct c, f. unfold extinct, no_pollen, raw_pollen; cbn.
  intros (H1 & H2 & H3 & H4 & H5 & H6).
  rewrite H2, H3, H4, H5, H6. repeat split; ring.
Qed.

Lemma egg_pool_spec1 (c : params) (f : freqs) (tp : Q) :
  0 <= tp ->
  safe (egg_pool c f tp) (fun e =>
    (nonneg f -> 0 <= par_h c -> par_S c <= 1 -> 0 <= par_F c ->
     0 <= e_A e /\ 0 <= e_a e /\ 0 <= e_as e) /\
    (extinct f -> e_A e == 0 /\ e_a e == 0 /\ e_as e == 0)).
Proof.
  intros Htp. destruct c as [h S d V Q F PSatF ppY], f as [a1 a2 a3 a4 a5 a6].
  unfold egg_pool, nonneg, extinct;
    cbn [par_h par_S par_F par_PSatF f_AA f_Aa f_Aas f_aa f_aas f_asas].
  split_test (Qge_bool tp PSatF); split_test (Qge_bool tp (PSatF * F * (1 - S)));
    rewrite ?fdiv_nonzero by lra; run_comp; cbn [e_A e_a e_as];
    (split;
     [ intros (? & ? & ? & ? & ? & ?) ? ? ?; repeat split; nonneg
     | intros (H1 & H2 & H3 & H4 & H5 & H6);
       rewrite H1, H3, H5, H6; unfold Qdiv; repeat split; ring ]).
Qed.

Lemma outcross_spec1 (p : pollen) (e : eggs) :
  (pollen_nonneg p -> 0 <= e_A e /\ 0 <= e_a e /\ 0 <= e_as e ->
   nonneg (outcross p e)) /\
  (e_A e == 0 /\ e_a e == 0 /\ e_as e == 0 -> extinct (outcross p e)).
Proof.
  destruct p as [pA pa pas], e as [eA ea eas].
  unfold pollen_nonneg, nonneg, extinct, outcross; cbn. split.
  - intros (? & ? & ?) (? & ? & ?). repeat split; nonneg.
  - intros (H1 & H2 & H3). rewrite H1, H2, H3. repeat split; ring.
Qed.

Section Selfing.
Variable c : params.

Let mass (x : Q) : Q := x * par_S c * (1 - par_d c) * par_h c * par_F c.

Lemma self_aas_spec1 (x : Q) (next : freqs) :
    (0 <= x -> nonneg next -> 0 <= par_h c -> 0 <= par_S c ->
     par_d c <= 1 -> 0 <= par_F c -> nonneg (self_aas c x next)) /\
    (x == 0 -> extinct next -> extinct (self_aas c x next)) /\
    total_plants (self_aas c x next) == total_plants next + mass x.
Proof.
    subst mass. destruct c as [h S d V Q F PSatF ppY].
    destruct next as [a1 a2 a3 a4 a5 a6].
    unfold self_aas, nonneg, extinct, total_plants; cbn. split; [| split].
    - intros ? (? & ? & ? & ? & ? & ?) ? ? ? ?. repeat split; nonneg.
    - intros H0 (H1 & H2 & H3 & H4 & H5 & H6).
      rewrite H0, H4, H5, H6. repeat split; try assumption; ring.
    - ring.
Qed.

Lemma self_asas_spec1 (x : Q) (next : freqs) :
    (0 <= x -> nonneg next -> 0 <= par_h c -> 0 <= par_S c ->
     par_d c <= 1 -> 0 <= par_F c -> nonneg (self_asas c x next)) /\
    (x == 0 -> extinct next -> extinct (self_asas c x next)) /\
    total_plants (self_asas c x next) == total_plants next + mass x.
Proof.
    subst mass. destruct c as [h S d V Q F PSatF ppY].
    destruct next as [a1 a2 a3 a4 a5 a6].
    unfold self_asas, nonneg, extinct, total_plants; cbn. split; [| split].
    - intros ? (? & ? & ? & ? & ? & ?) ? ? ? ?. repeat split; nonneg.
    - intros H0 (H1 & H2 & H3 & H4 & H5 & H6).
      rewrite H0, H6. repeat split; try assumption; ring.
    - ring.
Qed.

Section Competition.
Variable D : Q -> Prop.
Hypothesis D_ppY : D (1 + par_ppY c).
Hypothesis ppY_ok : ~ 1 + par_ppY c == 0.

Lemma self_Aas_spec1 (x : Q) (next : freqs) :
    runs D (self_Aas c x next) (fun n =>
      (0 <= x -> nonneg next -> 0 <= par_h c -> 0 <= par_S c ->
       par_d c <= 1 -> 0 <= par_F c -> 0 <= par_ppY c -> nonneg n) /\
      (x == 0 -> extinct next -> extinct n) /\
      total_plants n == total_plants next + mass x).
Proof.
    subst mass. destruct c as [h S d V Q F PSatF ppY].
    destruct next as [a1 a2 a3 a4 a5 a6].
    unfold self_Aas, nonneg, extinct, total_plants in *;
      cbn [par_h par_S par_d par_F par_ppY] in *.
    rewrite !fdiv_nonzero by assumption.
    unfold runs; cbn [bind ret value divisors app]. split.
    - repeat (apply Forall_cons; [assumption |]). apply Forall_nil.
    - eexists; split; [reflexivity |].
      cbn [f_AA f_Aa f_Aas f_aa f_aas f_asas]. split; [| split].
      + intros ? (? & ? & ? & ? & ? & ?) ? ? ? ? ?. repeat split; nonneg.
      + intros H0 (H1 & H2 & H3 & H4 & H5 & H6).
        rewrite H0, H1, H3, H6. unfold Qdiv. repeat split; try assumption; ring.
      + field. exact ppY_ok.
Qed.

Lemma selfing_spec1 (f next : freqs) :
    runs D (selfing c f next) (fun n =>
      (nonneg f -> nonneg next -> 0 <= par_h c -> 0 <= par_S c ->
       par_d c <= 1 -> 0 <= par_F c -> 0 <= par_ppY c -> nonneg n) /\
      (extinct f -> extinct next -> extinct n) /\
      total_plants n == total_plants next + mass (inconstant f)).
Proof.
    unfold selfing.
    eapply runs_bind; [apply self_Aas_spec1 | intros n1 (N1 & Z1 & T1)].
    apply runs_ret.
    destruct (self_aas_spec1 (f_aas f) n1) as (N2 & Z2 & T2).
    destruct (self_asas_spec1 (f_asas f) (self_aas c (f_aas f) n1))
      as (N3 & Z3 & T3).
    split; [| split].
    - intros Hf Hn ? ? ? ? ?.
      assert (Hf' := Hf). destruct Hf' as (? & ? & ? & ? & ? & ?).
      apply N3; auto; apply N2; auto.
    - intros Hf Hn. assert (Hf' := Hf).
      destruct Hf' as (? & ? & ? & ? & ? & ?).
      apply Z3; auto.
    - rewrite T3, T2, T1. subst mass. unfold inconstant. cbn. ring.
Qed.
End Competition.
End Selfing.

Lemma yy_penalty_spec1 (c : params) (next : freqs) :
  (nonneg next -> 0 <= par_V c -> nonneg (yy_penalty c next)) /\
  (extinct next -> extinct (yy_penalty c next)).
Proof.
  destruct c as [h S d V Q F PSatF ppY], next as [a1 a2 a3 a4 a5 a6].
  unfold nonneg, extinct, yy_penalty; cbn. split.
  - intros (? & ? & ? & ? & ? & ?) ?. repeat split; nonneg.
  - intros (H1 & H2 & H3 & H4 & H5 & H6).
    rewrite H4, H5, H6. repeat split; try assumption; ring.
Qed.

Lemma normalise_plants_spec1 (f : freqs) :
  safe (normalise_plants f) (fun f' =>
    (nonneg f -> nonneg f') /\
    (0 < total_plants f -> total_plants f' == 1) /\
    (total_plants f <= 0 -> f' = f)).
Proof.
  unfold normalise_plants. split_test (Qgt_bool (total_plants f) 0).
  - rewrite !fdiv_nonzero by lra. run_comp.
    unfold nonneg, total_plants in *; cbn. split; [| split].
    + intros (? & ? & ? & ? & ? & ?). repeat split; nonneg.
    + intros _. field. lra.
    + intros. lra.
  - apply runs_ret. split; [auto | split; [intro; lra | reflexivity]].
Qed.

Lemma nonneg_total1 (f : freqs) : nonneg f -> 0 <= total_plants f.
Proof. unfold nonneg, total_plants. intros (? & ? & ? & ? & ? & ?). lra. Qed.

Lemma nonneg_total_zero1 (f : freqs) :
  nonneg f -> total_plants f <= 0 -> extinct f.
Proof.
  unfold nonneg, total_plants, extinct. intros (? & ? & ? & ? & ? & ?) ?.
  repeat split; lra.
Qed.

Lemma extinct_total1 (f : freqs) : extinct f -> total_plants f == 0.
Proof.
  unfold total_plants, extinct. intros (? & ? & ? & ? & ? & ?). lra.
Qed.

Lemma raw_pollen_total1 (c : params) (f : freqs) :
  nonneg f -> 0 <= par_h c <= 1 -> 0 <= par_Q c -> 0 <= par_ppY c ->
  0 <= total_pollen (raw_pollen c f).
Proof.
  intros Hf Hh HQ HY.
  destruct (raw_pollen_nonneg1 c f Hf Hh HQ HY) as (? & ? & ?).
  unfold total_pollen. lra.
Qed.

Lemma offspring_safe1 (c : params) (f : freqs) :
  nonneg f -> 0 <= par_h c <= 1 -> 0 <= par_Q c -> 0 <= par_ppY c ->
  safe (offspring c f) (fun next =>
    0 <= par_S c <= 1 -> par_d c <= 1 -> 0 <= par_F c -> 0 <= par_V c ->
    nonneg next).
Proof.
  intros Hf Hh HQ HY. unfold offspring.
  assert (Hraw := raw_pollen_nonneg1 c f Hf Hh HQ HY).
  assert (Htp := raw_pollen_total1 c f Hf Hh HQ HY).
  eapply runs_bind; [apply normalise_pollen_spec1 | intros p (Hp & _ & _)].
  eapply runs_bind; [apply egg_pool_spec1; exact Htp | intros e (He & _)].
  eapply runs_bind;
    [apply selfing_spec1; lra | intros n (Hn & _ & _)].
  apply runs_ret. intros [HS0 HS1] Hd HF HV.
  apply yy_penalty_spec1; [| exact HV].
  apply Hn; try tauto. apply outcross_spec1; [auto |].
  apply He; tauto.
Qed.

Lemma offspring_extinct1 (c : params) (f : freqs) :
  extinct f -> ~ 1 + par_ppY c == 0 -> defined (offspring c f) extinct.
Proof.
  intros Hf HY. unfold offspring.
  destruct (raw_pollen_extinct1 c f Hf) as (R1 & R2 & R3).
  assert (Htp : total_pollen (raw_pollen c f) == 0)
    by (unfold total_pollen; lra).
  eapply runs_bind;
    [apply safe_defined, normalise_pollen_spec1 | intros p (_ & _ & Hp)].
  eapply runs_bind;
    [apply safe_defined, egg_pool_spec1; lra | intros e (_ & He)].
  eapply runs_bind;
    [apply selfing_spec1; assumption | intros n (_ & Hn & _)].
  apply runs_ret. apply yy_penalty_spec1. apply Hn; [exact Hf |].
  apply outcross_spec1. apply He. exact Hf.
Qed.

Lemma generation_safe1 (c : params) (f : freqs) :
  nonneg f -> 0 <= par_h c <= 1 -> 0 <= par_Q c -> 0 <= par_ppY c ->
  safe (generation c f) (fun _ => True).
Proof.
  intros Hf Hh HQ HY. unfold generation.
  eapply runs_bind; [apply offspring_safe1; assumption | intros n _].
  eapply runs_weaken; [apply normalise_plants_spec1 | auto].
Qed.

Lemma generation_extinct1 (c : params) (f : freqs) :
  extinct f -> ~ 1 + par_ppY c == 0 -> defined (generation c f) extinct.
Proof.
  intros Hf HY. unfold generation.
  eapply runs_bind; [apply offspring_extinct1; assumption | intros n Hn].
  eapply runs_weaken; [apply safe_defined, normalise_plants_spec1 |].
  intros f' (_ & _ & H). rewrite H; [exact Hn |].
  rewrite (extinct_total1 n Hn). lra.
Qed.

Lemma generation_normalised1 (c : params) (f : freqs) :
  nonneg f -> valid_params c ->
  exists next f',
    value (offspring c f) = Some next /\
    value (generation c f) = Some f' /\
    nonneg f' /\
    (0 < total_plants next -> total_plants f' == 1) /\
    (total_plants next == 0 -> extinct f') /\
    (total_plants f' == 0 -> total_plants next == 0) /\
    (total_plants f' == 1 \/ total_plants f' == 0).
Proof.
  intros Hf (Hh & HS & Hd & HV & HQ & HF & HP & HY).
  destruct (runs_value _ _ _ (offspring_safe1 c f Hf Hh HQ HY))
    as (next & Hnext & Hnn).
  assert (Hn : nonneg next) by (apply Hnn; unfold unit_interval in *; tauto).
  destruct (runs_value _ _ _ (normalise_plants_spec1 next))
    as (f' & Hf' & N1 & N2 & N3).
  exists next, f'. split; [exact Hnext |].
  split; [unfold generation; rewrite (value_bind _ _ _ Hnext); exact Hf' |].
  assert (H0 := nonneg_total1 next Hn).
  split; [auto |]. split; [exact N2 |].
  assert (Hz : total_plants next == 0 -> extinct f').
  { intros Hz. rewrite N3 by lra. apply nonneg_total_zero1; [exact Hn | lra]. }
  split; [exact Hz |]. split.
  - intros Hs. destruct (Qlt_le_dec 0 (total_plants next)) as [Hpos | Hle];
      [| lra].
    apply N2 in Hpos. lra.
  - destruct (Qlt_le_dec 0 (total_plants next)) as [Hpos | Hle].
    + left. auto.
    + right. apply extinct_total1, Hz. lra.
Qed.

Lemma raw_pollen_all_female1 (c : params) (f : freqs) :
  nonneg f -> 0 <= par_h c <= 1 -> 0 <= par_Q c -> 0 <= par_ppY c ->
  (all_female f -> total_pollen (raw_pollen c f) == 0) /\
  (par_h c < 1 \/ 0 < par_Q c -> 0 < par_ppY c ->
   total_pollen (raw_pollen c f) == 0 -> all_female f).
Proof.
  destruct c as [h S d V Q F PSatF ppY], f as [a1 a2 a3 a4 a5 a6].
  unfold nonneg, all_female, total_pollen, raw_pollen; cbn.
  intros (? & ? & ? & ? & ? & ?) [? ?] ? ?. split.
  - intros (Z2 & Z3 & Z4 & Z5 & Z6). rewrite Z2, Z3, Z4, Z5, Z6. ring.
  - intros Hw HY Ht.
    assert (Hw' : 0 < h * Q + (1 - h)) by nra.
    set (w := h * Q + (1 - h)) in *.
    assert (E : 0 + a2 * 0.5 + a3 * 0.5 * h * Q + a3 * 0.5 * (1 - h) +
       (0 + a2 * 0.5 + a4 + a5 * 0.5 * h * Q + a5 * 0.5 * (1 - h)) * ppY +
       (0 + a3 * 0.5 * h * Q + a3 * 0.5 * (1 - h) + a5 * 0.5 * h * Q +
        a5 * 0.5 * (1 - h) + a6 * h * Q + a6 * (1 - h)) * ppY
       == a2 * 0.5 + (a3 * w) * 0.5
          + (a2 * ppY) * 0.5 + a4 * ppY + ((a5 * w) * ppY) * 0.5
          + ((a3 * w) * ppY) * 0.5 + ((a5 * w) * ppY) * 0.5 + (a6 * w) * ppY)
      by (subst w; ring).
    rewrite E in Ht; clear E.
    assert (0 <= a3 * w) by nonneg.
    assert (0 <= a5 * w) by nonneg.
    assert (0 <= a6 * w) by nonneg.
    assert (0 <= a2 * ppY) by nonneg.
    assert (0 <= a4 * ppY) by nonneg.
    assert (0 <= a5 * w * ppY) by nonneg.
    assert (0 <= a3 * w * ppY) by nonneg.
    assert (0 <= a6 * w * ppY) by nonneg.
    assert (Z2 : a2 == 0) by lra.
    assert (Z3 : a3 * w == 0) by lra.
    assert (Z4 : a4 * ppY == 0) by lra.
    assert (Z5 : a5 * w * ppY == 0) by lra.
    assert (Z6 : a6 * w * ppY == 0) by lra.
    repeat split; try assumption.
    + exact (Qmult_zero_pos _ _ Z3 Hw').
    + exact (Qmult_zero_pos _ _ Z4 HY).
    + exact (Qmult_zero_pos _ _ (Qmult_zero_pos _ _ Z5 HY) Hw').
    + exact (Qmult_zero_pos _ _ (Qmult_zero_pos _ _ Z6 HY) Hw').
Qed.
End Model1Facts.

Module Model2Facts.
Import Model2.

Lemma raw_pollen_nonneg2 (c : params) (f : freqs) :
  nonneg f -> 0 <= par_h c <= 1 -> 0 <= par_Q c ->
  pollen_nonneg (raw_pollen c f).
Proof.
  destruct c, f. unfold nonneg, pollen_nonneg, raw_pollen; cbn.
  intros (? & ? & ? & ? & ? & ? & ? & ? & ?) [? ?] ?. repeat split; nonneg.
Qed.

Lemma raw_pollen_total2 (c : params) (f : freqs) :
  nonneg f -> 0 <= par_h c <= 1 -> 0 <= par_Q c ->
  0 <= total_pollen (raw_pollen c f).
Proof.
  intros Hf Hh HQ.
  destruct (raw_pollen_nonneg2 c f Hf Hh HQ) as (? & ? & ? & ?).
  unfold total_pollen. lra.
Qed.

Lemma raw_pollen_extinct2 (c : params) (f : freqs) :
  extinct f -> no_pollen (raw_pollen c f).
Proof.
  destruct c, f. unfold extinct, no_pollen, raw_pollen; cbn.
  intros (H1 & H2 & H3 & H4 & H5 & H6 & H7 & H8 & H9).
  rewrite H4, H5, H6, H7, H8, H9. repeat split; ring.
Qed.

Lemma raw_pollen_all_female2 (c : params) (f : freqs) :
  nonneg f -> 0 <= par_h c <= 1 -> 0 <= par_Q c ->
  (all_female f -> total_pollen (raw_pollen c f) == 0) /\
  (par_h c < 1 \/ 0 < par_Q c ->
   total_pollen (raw_pollen c f) == 0 -> all_female f).
Proof.
  destruct c as [h S d V Q F PSatF ppY].
  destruct f as [a1 a2 a3 a4 a5 a6 a7 a8 a9].
  unfold nonneg, all_female, total_pollen, raw_pollen; cbn.
  intros (? & ? & ? & ? & ? & ? & ? & ? & ?) [? ?] ?. split.
  - intros (Z4 & Z5 & Z6 & Z7 & Z8 & Z9).
    rewrite Z4, Z5, Z6, Z7, Z8, Z9. ring.
  - intros Hw Ht.
    assert (Hw' : 0 < h * Q + (1 - h)) by nra.
    set (w := h * Q + (1 - h)) in *.
    assert (E : 0 + a4 * 0.5 * h * Q + a4 * 0.5 * (1 - h) + a5 * 0.25 * h * Q +
       a5 * 0.25 * (1 - h) +
       (0 + a5 * 0.25 * h * Q + a5 * 0.25 * (1 - h) + a6 * 0.5) +
       (0 + a4 * 0.5 * h * Q + a4 * 0.5 * (1 - h) + a5 * 0.25 * h * Q +
        a5 * 0.25 * (1 - h) + a7 * h * Q + a7 * (1 - h) + a8 * 0.5 * h * Q +
        a8 * 0.5 * (1 - h)) +
       (0 + a5 * 0.25 * h * Q + a5 * 0.25 * (1 - h) + a6 * 0.5 +
        a8 * 0.5 * h * Q + a8 * 0.5 * (1 - h) + a9)
       == a4 * w + a5 * w + a6 + a7 * w + a8 * w + a9)
      by (subst w; ring).
    rewrite E in Ht; clear E.
    assert (0 <= a4 * w) by nonneg.
    assert (0 <= a5 * w) by nonneg.
    assert (0 <= a7 * w) by nonneg.
    assert (0 <= a8 * w) by nonneg.
    assert (Z4 : a4 * w == 0) by lra.
    assert (Z5 : a5 * w == 0) by lra.
    assert (Z7 : a7 * w == 0) by lra.
    assert (Z8 : a8 * w == 0) by lra.
    repeat split; try lra.
    + exact (Qmult_zero_pos _ _ Z4 Hw').
    + exact (Qmult_zero_pos _ _ Z5 Hw').
    + exact (Qmult_zero_pos _ _ Z7 Hw').
    + exact (Qmult_zero_pos _ _ Z8 Hw').
Qed.

Lemma normalise_pollen_spec2 (p : pollen) :
  safe (normalise_pollen p) (fun p' =>
    (pollen_nonneg p -> pollen_nonneg p') /\
    (0 < total_pollen p -> total_pollen p' == 1) /\
    (total_pollen p <= 0 -> p' = p)).
Proof.
  unfold normalise_pollen. split_test (Qgt_bool (total_pollen p) 0).
  - rewrite !fdiv_nonzero by lra. run_comp.
    unfold pollen_nonneg, total_pollen in *; cbn. split; [| split].
    + intros (? & ? & ? & ?). repeat split; nonneg.
    + intros _. field. lra.
    + intros. lra.
  - apply runs_ret. split; [auto | split; [intro; lra | reflexivity]].
Qed.

Lemma egg_pool_spec2 (c : params) (f : freqs) (tp : Q) :
  0 <= tp ->
  safe (egg_pool c f tp) (fun e =>
    (nonneg f -> 0 <= par_h c -> par_S c <= 1 -> 0 <= par_F c ->
     0 <= e_A_M e /\ 0 <= e_A_m e /\ 0 <= e_a_M e /\ 0 <= e_a_m e) /\
    (extinct f ->
     e_A_M e == 0 /\ e_A_m e == 0 /\ e_a_M e == 0 /\ e_a_m e == 0)).
Proof.
  intros Htp. destruct c as [h S d V Q F PSatF ppY].
  destruct f as [a1 a2 a3 a4 a5 a6 a7 a8 a9].
  unfold egg_pool, nonneg, extinct;
    cbn [par_h par_S par_F par_PSatF f_AA_MM f_AA_Mm f_AA_mm
         f_Aa_MM f_Aa_Mm f_Aa_mm f_aa_MM f_aa_Mm f_aa_mm].
  split_test (Qge_bool tp PSatF); split_test (Qge_bool tp (PSatF * F * (1 - S)));
    rewrite ?fdiv_nonzero by lra; run_comp; cbn [e_A_M e_A_m e_a_M e_a_m];
    (split;
     [ intros (? & ? & ? & ? & ? & ? & ? & ? & ?) ? ? ?; repeat split; nonneg
     | intros (H1 & H2 & H3 & H4 & H5 & H6 & H7 & H8 & H9);
       rewrite H1, H2, H3, H4, H5, H7, H8; unfold Qdiv; repeat split; ring ]).
Qed.

Lemma outcross_spec2 (p : pollen) (e : eggs) :
  (pollen_nonneg p ->
   0 <= e_A_M e /\ 0 <= e_A_m e /\ 0 <= e_a_M e /\ 0 <= e_a_m e ->
   nonneg (outcross p e)) /\
  (e_A_M e == 0 /\ e_A_m e == 0 /\ e_a_M e == 0 /\ e_a_m e == 0 ->
   extinct (outcross p e)).
Proof.
  destruct p as [p1 p2 p3 p4], e as [e1 e2 e3 e4].
  unfold pollen_nonneg, nonneg, extinct, outcross; cbn. split.
  - intros (? & ? & ? & ?) (? & ? & ? & ?). repeat split; nonneg.
  - intros (H1 & H2 & H3 & H4). rewrite H1, H2, H3, H4. repeat split; ring.
Qed.

Section Selfing.
Variable c : params.

Let mass (x : Q) : Q := x * par_S c * (1 - par_d c) * par_h c * par_F c.

Ltac self_tac :=
    subst mass; destruct c as [h S d V Q F PSatF ppY];
    match goal with n : freqs |- _ => destruct n as [a1 a2 a3 a4 a5 a6 a7 a8 a9] end;
    unfold self_Aa_MM, self_Aa_Mm, self_aa_MM, self_aa_Mm,
      nonneg, extinct, total_plants; cbn; split; [| split];
    [ intros ? (? & ? & ? & ? & ? & ? & ? & ? & ?) ? ? ? ?;
      repeat split; nonneg
    | intros H0 (H1 & H2 & H3 & H4 & H5 & H6 & H7 & H8 & H9);
      rewrite H0, H1, H2, H3, H4, H5, H6, H7, H8, H9; repeat split; ring
    | ring ].

Lemma self_Aa_MM_spec2 (x : Q) (next : freqs) :
    (0 <= x -> nonneg next -> 0 <= par_h c -> 0 <= par_S c ->
     par_d c <= 1 -> 0 <= par_F c -> nonneg (self_Aa_MM c x next)) /\
    (x == 0 -> extinct next -> extinct (self_Aa_MM c x next)) /\
    total_plants (self_Aa_MM c x next) == total_plants next + mass x.
Proof. self_tac. Qed.

Lemma self_Aa_Mm_spec2 (x : Q) (next : freqs) :
    (0 <= x -> nonneg next -> 0 <= par_h c -> 0 <= par_S c ->
     par_d c <= 1 -> 0 <= par_F c -> nonneg (self_Aa_Mm c x next)) /\
    (x == 0 -> extinct next -> extinct (self_Aa_Mm c x next)) /\
    total_plants (self_Aa_Mm c x next) == total_plants next + mass x.
Proof. self_tac. Qed.

Lemma self_aa_MM_spec2 (x : Q) (next : freqs) :
    (0 <= x -> nonneg next -> 0 <= par_h c -> 0 <= par_S c ->
     par_d c <= 1 -> 0 <= par_F c -> nonneg (self_aa_MM c x next)) /\
    (x == 0 -> extinct next -> extinct (self_aa_MM c x next)) /\
    total_plants (self_aa_MM c x next) == total_plants next + mass x.
Proof. self_tac. Qed.

Lemma self_aa_Mm_spec2 (x : Q) (next : freqs) :
    (0 <= x -> nonneg next -> 0 <= par_h c -> 0 <= par_S c ->
     par_d c <= 1 -> 0 <= par_F c -> nonneg (self_aa_Mm c x next)) /\
    (x == 0 -> extinct next -> extinct (self_aa_Mm c x next)) /\
    total_plants (self_aa_Mm c x next) == total_plants next + mass x.
Proof. self_tac. Qed.

Lemma selfing_spec2 (f next : freqs) :
    (nonneg f -> nonneg next -> 0 <= par_h c -> 0 <= par_S c ->
     par_d c <= 1 -> 0 <= par_F c -> nonneg (selfing c f next)) /\
    (extinct f -> extinct next -> extinct (selfing c f next)) /\
    total_plants (selfing c f next)
      == total_plants next + mass (inconstant f).
Proof.
    unfold selfing.
    destruct (self_Aa_MM_spec2 (f_Aa_MM f) next) as (N1 & Z1 & T1).
    set (n1 := self_Aa_MM c (f_Aa_MM f) next) in *.
    destruct (self_Aa_Mm_spec2 (f_Aa_Mm f) n1) as (N2 & Z2 & T2).
    set (n2 := self_Aa_Mm c (f_Aa_Mm f) n1) in *.
    destruct (self_aa_MM_spec2 (f_aa_MM f) n2) as (N3 & Z3 & T3).
    set (n3 := self_aa_MM c (f_aa_MM f) n2) in *.
    destruct (self_aa_Mm_spec2 (f_aa_Mm f) n3) as (N4 & Z4 & T4).
    split; [| split].
    - intros Hf Hn ? ? ? ?.
      assert (Hf' := Hf). destruct Hf' as (? & ? & ? & ? & ? & ? & ? & ? & ?).
      apply N4; auto; apply N3; auto; apply N2; auto.
    - intros Hf Hn. assert (Hf' := Hf).
      destruct Hf' as (? & ? & ? & ? & ? & ? & ? & ? & ?).
      apply Z4; auto; apply Z3; auto; apply Z2; auto.
    - rewrite T4, T3, T2, T1. subst mass. unfold inconstant. cbn. ring.
Qed.
End Selfing.

Lemma yy_penalty_spec2 (c : params) (next : freqs) :
  (nonneg next -> 0 <= par_V c -> nonneg (yy_penalty c next)) /\
  (extinct next -> extinct (yy_penalty c next)).
Proof.
  destruct c as [h S d V Q F PSatF ppY].
  destruct next as [a1 a2 a3 a4 a5 a6 a7 a8 a9].
  unfold nonneg, extinct, yy_penalty; cbn. split.
  - intros (? & ? & ? & ? & ? & ? & ? & ? & ?) ?. repeat split; nonneg.
  - intros (H1 & H2 & H3 & H4 & H5 & H6 & H7 & H8 & H9).
    rewrite H7, H8, H9. repeat split; try assumption; ring.
Qed.

Lemma normalise_plants_spec2 (f : freqs) :
  safe (normalise_plants f) (fun f' =>
    (nonneg f -> nonneg f') /\
    (0 < total_plants f -> total_plants f' == 1) /\
    (total_plants f <= 0 -> f' = f)).
Proof.
  unfold normalise_plants. split_test (Qgt_bool (total_plants f) 0).
  - rewrite !fdiv_nonzero by lra. run_comp.
    unfold nonneg, total_plants in *; cbn. split; [| split].
    + intros (? & ? & ? & ? & ? & ? & ? & ? & ?). repeat split; nonneg.
    + intros _. field. lra.
    + intros. lra.
  - apply runs_ret. split; [auto | split; [intro; lra | reflexivity]].
Qed.

Lemma nonneg_total2 (f : freqs) : nonneg f -> 0 <= total_plants f.
Proof.
  unfold nonneg, total_plants.
  intros (? & ? & ? & ? & ? & ? & ? & ? & ?). lra.
Qed.

Lemma nonneg_total_zero2 (f : freqs) :
  nonneg f -> total_plants f <= 0 -> extinct f.
Proof.
  unfold nonneg, total_plants, extinct.
  intros (? & ? & ? & ? & ? & ? & ? & ? & ?) ?. repeat split; lra.
Qed.

Lemma extinct_total2 (f : freqs) : extinct f -> total_plants f == 0.
Proof.
  unfold total_plants, extinct.
  intros (? & ? & ? & ? & ? & ? & ? & ? & ?). lra.
Qed.

Lemma offspring_safe2 (c : params) (f : freqs) :
  nonneg f -> 0 <= par_h c <= 1 -> 0 <= par_Q c ->
  safe (offspring c f) (fun next =>
    0 <= par_S c <= 1 -> par_d c <= 1 -> 0 <= par_F c -> 0 <= par_V c ->
    nonneg next).
Proof.
  intros Hf Hh HQ. unfold offspring.
  assert (Hraw := raw_pollen_nonneg2 c f Hf Hh HQ).
  assert (Htp := raw_pollen_total2 c f Hf Hh HQ).
  eapply runs_bind; [apply normalise_pollen_spec2 | intros p (Hp & _ & _)].
  eapply runs_bind; [apply egg_pool_spec2; exact Htp | intros e (He & _)].
  apply runs_ret. intros [HS0 HS1] Hd HF HV.
  apply yy_penalty_spec2; [| exact HV].
  apply selfing_spec2; try tauto. apply outcross_spec2; [auto |].
  apply He; tauto.
Qed.

Lemma offspring_extinct2 (c : params) (f : freqs) :
  extinct f -> defined (offspring c f) extinct.
Proof.
  intros Hf. unfold offspring.
  destruct (raw_pollen_extinct2 c f Hf) as (R1 & R2 & R3 & R4).
  assert (Htp : total_pollen (raw_pollen c f) == 0)
    by (unfold total_pollen; lra).
  eapply runs_bind;
    [apply safe_defined, normalise_pollen_spec2 | intros p (_ & _ & Hp)].
  eapply runs_bind;
    [apply safe_defined, egg_pool_spec2; lra | intros e (_ & He)].
  apply runs_ret. apply yy_penalty_spec2. apply selfing_spec2; [exact Hf |].
  apply outcross_spec2. apply He. exact Hf.
Qed.

Lemma generation_safe2 (c : params) (f : freqs) :
  nonneg f -> 0 <= par_h c <= 1 -> 0 <= par_Q c ->
  safe (generation c f) (fun _ => True).
Proof.
  intros Hf Hh HQ. unfold generation.
  eapply runs_bind; [apply offspring_safe2; assumption | intros n _].
  eapply runs_weaken; [apply normalise_plants_spec2 | auto].
Qed.

Lemma generation_extinct2 (c : params) (f : freqs) :
  extinct f -> defined (generation c f) extinct.
Proof.
  intros Hf. unfold generation.
  eapply runs_bind; [apply offspring_extinct2; assumption | intros n Hn].
  eapply runs_weaken; [apply safe_defined, normalise_plants_spec2 |].
  intros f' (_ & _ & H). rewrite H; [exact Hn |].
  rewrite (extinct_total2 n Hn). lra.
Qed.

Lemma generation_normalised2 (c : params) (f : freqs) :
  nonneg f -> valid_params c ->
  exists next f',
    value (offspring c f) = Some next /\
    value (generation c f) = Some f' /\
    nonneg f' /\
    (0 < total_plants next -> total_plants f' == 1) /\
    (total_plants next == 0 -> extinct f') /\
    (total_plants f' == 0 -> total_plants next == 0) /\
    (total_plants f' == 1 \/ total_plants f' == 0).
Proof.
  intros Hf (Hh & HS & Hd & HV & HQ & HF & HP & HY).
  destruct (runs_value _ _ _ (offspring_safe2 c f Hf Hh HQ))
    as (next & Hnext & Hnn).
  assert (Hn : nonneg next) by (apply Hnn; unfold unit_interval in *; tauto).
  destruct (runs_value _ _ _ (normalise_plants_spec2 next))
    as (f' & Hf' & N1 & N2 & N3).
  exists next, f'. split; [exact Hnext |].
  split; [unfold generation; rewrite (value_bind _ _ _ Hnext); exact Hf' |].
  assert (H0 := nonneg_total2 next Hn).
  split; [auto |]. split; [exact N2 |].
  assert (Hz : total_plants next == 0 -> extinct f').
  { intros Hz. rewrite N3 by lra. apply nonneg_total_zero2; [exact Hn | lra]. }
  split; [exact Hz |]. split.
  - intros Hs. destruct (Qlt_le_dec 0 (total_plants next)) as [Hpos | Hle];
      [| lra].
    apply N2 in Hpos. lra.
  - destruct (Qlt_le_dec 0 (total_plants next)) as [Hpos | Hle].
    + left. auto.
    + right. apply extinct_total2, Hz. lra.
Qed.

End Model2Facts.

(** ** The claims about one generation *)

Lemma valid_default_params : valid_params default_params.
Proof. unfold valid_params, unit_interval, default_params; cbn. lra. Qed.

Lemma params_in_range_valid (c : params) :
  params_in_range c -> valid_params c.
Proof.
  unfold params_in_range, valid_params, unit_interval. tauto.
Qed.

(** C1, as stated, fails on the machine, where its parameters are
    [float]s.  From the start frequencies of the program:
    with [PSatF = 3e38], [F = 2] and [S = 1], all inside the claimed ranges,
    [PSatF * F] is rounded to infinity and [PSatC], infinity times
    [1 - S = 0], is not a number; every egg frequency is divided by it and
    every plant frequency of the next generation is not a number;
    with [Q = 3e38] and [ppY = 3e38] the a* pollen is rounded to infinity,
    so is the total, and their quotient is not a number.  The results are
    not non-negative and do not sum to 1. *)
Lemma generation_overflow_nan :
  let nan := SpecFloat.S754_nan in
  let f := Model1Float.start false in
  let c := Model1Float.Params
             (CFloat.of_decimal 5 1) (CFloat.of_Z 1) (CFloat.of_Z 0)
             (CFloat.of_Z 1) (CFloat.of_Z 1) (CFloat.of_Z 2)
             (CFloat.of_scientific 3 38) (CFloat.of_Z 1) in
  let c' := Model1Float.Params
              (CFloat.of_decimal 5 1) (CFloat.of_Z 0) (CFloat.of_Z 0)
              (CFloat.of_Z 1) (CFloat.of_scientific 3 38) (CFloat.of_Z 1)
              (CFloat.of_Z 0) (CFloat.of_scientific 3 38) in
  Model1Float.nonneg f = true /\
  (Model1Float.valid_params c = true /\
   Model1Float.generation c f = Model1Float.Freqs nan nan nan nan nan nan /\
   Model1Float.nonneg (Model1Float.generation c f) = false /\
   CFloat.is_nan (Model1Float.total_plants (Model1Float.generation c f))
   = true) /\
  (Model1Float.valid_params c' = true /\
   CFloat.is_nan (Model1Float.f_Aas (Model1Float.generation c' f)) = true /\
   Model1Float.nonneg (Model1Float.generation c' f) = false /\
   CFloat.is_nan (Model1Float.total_plants (Model1Float.generation c' f))
   = true).
Proof. vm_compute. repeat split. Qed.

(** Inside the ranges the machine agrees: at every corner of them, and
    from either start, one generation and the one after it give finite,
    non-negative frequencies that sum to 1, within rounding, or are all
    0. *)
Lemma generation_corners_normalised :
  forallb (fun c =>
    forallb (fun pgd =>
      let f := Model1Float.generation c (Model1Float.start pgd) in
      Model1Float.normalised f
      && Model1Float.normalised (Model1Float.generation c f))
      [false; true])
    Model1Float.corners = true.
Proof. vm_compute. reflexivity. Qed.

(** C1, amended: from non-negative frequencies, and with [h], [S], [d],
    [V], [Q], [F] and [ppY] in [[0,1]] and [PSatF] not negative, one
    generation has a result; its entries are non-negative; they sum to 1
    when the total before normalisation is positive; that total is never
    negative, and when it is 0 every entry is left at 0.  So the sum is 1 or
    0, and 0 only when the total before normalisation was 0.  (In exact
    arithmetic; the lemma before this one evaluates the machine at the
    corners of these ranges.) *)
Theorem generation_step_normalised (c : params)
  (f1 : Model1.freqs) (f2 : Model2.freqs) :
  params_in_range c -> Model1.nonneg f1 -> Model2.nonneg f2 ->
  (exists next f',
     value (Model1.offspring c f1) = Some next /\
     value (Model1.generation c f1) = Some f' /\
     Model1.nonneg f' /\
     (0 < Model1.total_plants next -> Model1.total_plants f' == 1) /\
     (Model1.total_plants next == 0 -> Model1.extinct f') /\
     (Model1.total_plants f' == 0 -> Model1.total_plants next == 0) /\
     (Model1.total_plants f' == 1 \/ Model1.total_plants f' == 0)) /\
  (exists next f',
     value (Model2.offspring c f2) = Some next /\
     value (Model2.generation c f2) = Some f' /\
     Model2.nonneg f' /\
     (0 < Model2.total_plants next -> Model2.total_plants f' == 1) /\
     (Model2.total_plants next == 0 -> Model2.extinct f') /\
     (Model2.total_plants f' == 0 -> Model2.total_plants next == 0) /\
     (Model2.total_plants f' == 1 \/ Model2.total_plants f' == 0)).
Proof.
  intros Hc H1 H2. apply params_in_range_valid in Hc. split.
  - apply Model1Facts.generation_normalised1; assumption.
  - apply Model2Facts.generation_normalised2; assumption.
Qed.

Lemma nonneg_start1 (pgd : bool) : Model1.nonneg (Model1.start pgd).
Proof. destruct pgd; unfold Model1.nonneg; cbn; lra. Qed.

Lemma nonneg_start2 (pgd : bool) : Model2.nonneg (Model2.start pgd).
Proof. destruct pgd; unfold Model2.nonneg; cbn; lra. Qed.

Lemma generation_step_normalised_witness :
  exists next f',
    value (Model1.offspring default_params (Model1.start false)) = Some next /\
    value (Model1.generation default_params (Model1.start false)) = Some f' /\
    Model1.nonneg f' /\
    (0 < Model1.total_plants next -> Model1.total_plants f' == 1) /\
    (Model1.total_plants next == 0 -> Model1.extinct f') /\
    (Model1.total_plants f' == 0 -> Model1.total_plants next == 0) /\
    (Model1.total_plants f' == 1 \/ Model1.total_plants f' == 0).
Proof.
  apply (generation_step_normalised default_params
           (Model1.start false) (Model2.start false)).
  - unfold params_in_range, unit_interval, default_params; cbn. lra.
  - unfold Model1.nonneg; cbn. lra.
  - unfold Model2.nonneg; cbn. lra.
Defined.

(** C2, as stated, fails: with [ppY = 0] a population of aa pure males
    only has an all-zero pollen pool, and it has no female in it. *)
Lemma pollen_pool_zero_without_females :
  let c := Params 0.5 0 0 1 1 1 0 0 in
  let f := Model1.Freqs 0 0 0 1 0 0 in
  Model1.nonneg f /\
  unit_interval (par_h c) /\ unit_interval (par_Q c) /\
  unit_interval (par_ppY c) /\
  (exists p, value (Model1.pollen_pool c f) = Some p /\
             Model1.total_pollen p == 0) /\
  Model1.male f == 1 /\ Model1.female f == 0 /\ ~ Model1.all_female f.
Proof.
  cbn zeta. split; [unfold Model1.nonneg; cbn; lra |].
  unfold unit_interval; cbn [par_h par_Q par_ppY].
  split; [lra |]. split; [lra |]. split; [lra |].
  split; [eexists; split; [vm_compute; reflexivity | reflexivity] |].
  split; [reflexivity |]. split; [reflexivity |].
  unfold Model1.all_female; cbn. intros (_ & _ & H & _). discriminate H.
Qed.

(** C2, amended: from non-negative frequencies, with [h], [Q] and (model
    1) [ppY] in [[0,1]], the pollen pool has non-negative entries; they sum
    to 1 when [totalpollen], the total of the pollen produced weighted by
    its viability, is positive, and are all 0 when it is 0; so the pool sums
    to 1 or to 0, and to 0 exactly when [totalpollen] is 0.  The pool of an
    entirely female population is all 0; not only that one's, as the
    population of males above shows. *)
Theorem pollen_pool_normalised (c : params)
  (f1 : Model1.freqs) (f2 : Model2.freqs) :
  unit_interval (par_h c) -> unit_interval (par_Q c) ->
  unit_interval (par_ppY c) ->
  Model1.nonneg f1 -> Model2.nonneg f2 ->
  (exists p,
     value (Model1.pollen_pool c f1) = Some p /\
     Model1.pollen_nonneg p /\
     (0 < Model1.total_pollen (Model1.raw_pollen c f1) ->
      Model1.total_pollen p == 1) /\
     (Model1.total_pollen (Model1.raw_pollen c f1) == 0 ->
      Model1.no_pollen p) /\
     (Model1.total_pollen p == 1 \/ Model1.total_pollen p == 0) /\
     (Model1.total_pollen p == 0 <->
      Model1.total_pollen (Model1.raw_pollen c f1) == 0) /\
     (Model1.all_female f1 -> Model1.no_pollen p)) /\
  (exists p,
     value (Model2.pollen_pool c f2) = Some p /\
     Model2.pollen_nonneg p /\
     (0 < Model2.total_pollen (Model2.raw_pollen c f2) ->
      Model2.total_pollen p == 1) /\
     (Model2.total_pollen (Model2.raw_pollen c f2) == 0 ->
      Model2.no_pollen p) /\
     (Model2.total_pollen p == 1 \/ Model2.total_pollen p == 0) /\
     (Model2.total_pollen p == 0 <->
      Model2.total_pollen (Model2.raw_pollen c f2) == 0) /\
     (Model2.all_female f2 -> Model2.no_pollen p)).
Proof.
  intros Hh [HQ _] [HY _] H1 H2. split.
  - destruct (runs_value _ _ _ (Model1Facts.normalise_pollen_spec1
                                  (Model1.raw_pollen c f1)))
      as (p & Hp & N1 & N2 & N3).
    assert (Hraw := Model1Facts.raw_pollen_nonneg1 c f1 H1 Hh HQ HY).
    assert (Htp := Model1Facts.raw_pollen_total1 c f1 H1 Hh HQ HY).
    destruct (Model1Facts.raw_pollen_all_female1 c f1 H1 Hh HQ HY) as [A1 _].
    set (raw := Model1.raw_pollen c f1) in *.
    assert (Z : Model1.total_pollen raw == 0 -> Model1.no_pollen p).
    { intros Hz. rewrite N3 by lra.
      unfold Model1.no_pollen, Model1.pollen_nonneg, Model1.total_pollen in *.
      repeat split; lra. }
    assert (Z' : Model1.total_pollen raw == 0 -> Model1.total_pollen p == 0).
    { intros Hz. apply Z in Hz. unfold Model1.no_pollen, Model1.total_pollen in *.
      lra. }
    exists p. split; [exact Hp |]. split; [auto |]. split; [exact N2 |].
    split; [exact Z |]. split; [| split].
    + destruct (Qlt_le_dec 0 (Model1.total_pollen raw)); [left; auto |].
      right. apply Z'. lra.
    + split; [| exact Z'].
      intros Hs.
      destruct (Qlt_le_dec 0 (Model1.total_pollen raw)) as [Hpos |]; [| lra].
      apply N2 in Hpos. lra.
    + intros Hf. apply Z, A1, Hf.
  - destruct (runs_value _ _ _ (Model2Facts.normalise_pollen_spec2
                                  (Model2.raw_pollen c f2)))
      as (p & Hp & N1 & N2 & N3).
    assert (Hraw := Model2Facts.raw_pollen_nonneg2 c f2 H2 Hh HQ).
    assert (Htp := Model2Facts.raw_pollen_total2 c f2 H2 Hh HQ).
    destruct (Model2Facts.raw_pollen_all_female2 c f2 H2 Hh HQ) as [A1 _].
    set (raw := Model2.raw_pollen c f2) in *.
    assert (Z : Model2.total_pollen raw == 0 -> Model2.no_pollen p).
    { intros Hz. rewrite N3 by lra.
      unfold Model2.no_pollen, Model2.pollen_nonneg, Model2.total_pollen in *.
      repeat split; lra. }
    assert (Z' : Model2.total_pollen raw == 0 -> Model2.total_pollen p == 0).
    { intros Hz. apply Z in Hz. unfold Model2.no_pollen, Model2.total_pollen in *.
      lra. }
    exists p. split; [exact Hp |]. split; [auto |]. split; [exact N2 |].
    split; [exact Z |]. split; [| split].
    + destruct (Qlt_le_dec 0 (Model2.total_pollen raw)); [left; auto |].
      right. apply Z'. lra.
    + split; [| exact Z'].
      intros Hs.
      destruct (Qlt_le_dec 0 (Model2.total_pollen raw)) as [Hpos |]; [| lra].
      apply N2 in Hpos. lra.
    + intros Hf. apply Z, A1, Hf.
Qed.

Lemma pollen_pool_normalised_witness :
  exists p,
    value (Model1.pollen_pool default_params (Model1.start false)) = Some p /\
    Model1.total_pollen p == 1.
Proof.
  destruct (proj1 (pollen_pool_normalised default_params
                     (Model1.start false) (Model2.start false)
                     ltac:(unfold unit_interval; cbn; lra)
                     ltac:(unfold unit_interval; cbn; lra)
                     ltac:(unfold unit_interval; cbn; lra)
                     ltac:(unfold Model1.nonneg; cbn; lra)
                     ltac:(unfold Model2.nonneg; cbn; lra)))
    as (p & Hp & _ & H1 & _).
  exists p. split; [exact Hp |]. apply H1. vm_compute. reflexivity.
Defined.

(** C5: a cosex-capable genotype of frequency [x] adds selfed offspring of
    total mass [x * S * (1 - d) * h * F], in both models; the selfing of one
    generation adds that mass for the whole inconstant class.  In model 1,
    for [ppY >= 0], the three coefficients of the Aa* parent,
    [0.5 / (1 + ppY)], [0.5] and [0.5 * ppY / (1 + ppY)], sum to 1. *)
Theorem selfing_mass (c : params) (x : Q)
  (f1 next1 : Model1.freqs) (f2 next2 : Model2.freqs) :
  0 <= par_ppY c ->
  let mass y := y * par_S c * (1 - par_d c) * par_h c * par_F c in
  safe (k1 <- fdiv 0.5 (1 + par_ppY c) ;;
        k2 <- fdiv (0.5 * par_ppY c) (1 + par_ppY c) ;;
        ret (k1 + 0.5 + k2)) (fun s => s == 1) /\
  safe (Model1.self_Aas c x next1) (fun n =>
    Model1.total_plants n == Model1.total_plants next1 + mass x) /\
  Model1.total_plants (Model1.self_aas c x next1)
    == Model1.total_plants next1 + mass x /\
  Model1.total_plants (Model1.self_asas c x next1)
    == Model1.total_plants next1 + mass x /\
  safe (Model1.selfing c f1 next1) (fun n =>
    Model1.total_plants n
      == Model1.total_plants next1 + mass (Model1.inconstant f1)) /\
  Model2.total_plants (Model2.self_Aa_MM c x next2)
    == Model2.total_plants next2 + mass x /\
  Model2.total_plants (Model2.self_Aa_Mm c x next2)
    == Model2.total_plants next2 + mass x /\
  Model2.total_plants (Model2.self_aa_MM c x next2)
    == Model2.total_plants next2 + mass x /\
  Model2.total_plants (Model2.self_aa_Mm c x next2)
    == Model2.total_plants next2 + mass x /\
  Model2.total_plants (Model2.selfing c f2 next2)
    == Model2.total_plants next2 + mass (Model2.inconstant f2).
Proof.
  intros HY mass.
  assert (Hpos : 0 < 1 + par_ppY c) by lra.
  assert (Hnz : ~ 1 + par_ppY c == 0) by lra.
  split.
  { rewrite !fdiv_nonzero by exact Hnz. run_comp. field. exact Hnz. }
  split.
  { eapply runs_weaken;
      [apply (Model1Facts.self_Aas_spec1 c (fun y => 0 < y) Hpos Hnz) |].
    intros n (_ & _ & H). exact H. }
  split; [apply (proj2 (proj2 (Model1Facts.self_aas_spec1 c x next1))) |].
  split; [apply (proj2 (proj2 (Model1Facts.self_asas_spec1 c x next1))) |].
  split.
  { eapply runs_weaken;
      [apply (Model1Facts.selfing_spec1 c (fun y => 0 < y) Hpos Hnz) |].
    intros n (_ & _ & H). exact H. }
  split; [apply (proj2 (proj2 (Model2Facts.self_Aa_MM_spec2 c x next2))) |].
  split; [apply (proj2 (proj2 (Model2Facts.self_Aa_Mm_spec2 c x next2))) |].
  split; [apply (proj2 (proj2 (Model2Facts.self_aa_MM_spec2 c x next2))) |].
  split; [apply (proj2 (proj2 (Model2Facts.self_aa_Mm_spec2 c x next2))) |].
  apply (proj2 (proj2 (Model2Facts.selfing_spec2 c f2 next2))).
Qed.

Lemma selfing_mass_witness :
  Model2.total_plants
    (Model2.self_Aa_Mm (Params 1 1 0 1 1 1 0 1) 0.5 (Model2.start false))
  == Model2.total_plants (Model2.start false) + 0.5 * 1 * (1 - 0) * 1 * 1.
Proof.
  apply (selfing_mass (Params 1 1 0 1 1 1 0 1) 0.5
           (Model1.start false) (Model1.start false)
           (Model2.start false) (Model2.start false)).
  cbn. lra.
Defined.

(** C6, as stated, fails: model 1 also divides by [1 + ppY], which the
    claim does not list and its preconditions do not bound.  With
    [ppY = -1], non-negative frequencies, [PSatF = 0], [F = 1], [S = 0] and
    a total of pollen that is not negative, the selfing coefficient
    [0.5 / (1 + ppY)] is a division by 0. *)
Lemma division_by_zero_ppY :
  let c := Params 0.5 0 0 1 1 1 0 (-1) in
  let f := Model1.Freqs 0.5 0.5 0 0 0 0 in
  Model1.nonneg f /\ 0 <= par_PSatF c /\
  unit_interval (par_F c) /\ unit_interval (par_S c) /\
  0 <= Model1.total_pollen (Model1.raw_pollen c f) /\
  divisors (Model1.generation c f) = [1 + par_ppY c] /\
  1 + par_ppY c == 0 /\
  value (Model1.generation c f) = None.
Proof.
  cbn zeta. split; [unfold Model1.nonneg; cbn; lra |].
  unfold unit_interval; cbn [par_PSatF par_F par_S par_ppY].
  split; [lra |]. split; [lra |]. split; [lra |].
  split; [vm_compute; discriminate |].
  split; [vm_compute; reflexivity |].
  split; [reflexivity | vm_compute; reflexivity].
Qed.

Lemma generation_divisors1 (c : params) (f : Model1.freqs) :
  0 <= Model1.total_pollen (Model1.raw_pollen c f) -> 0 < 1 + par_ppY c ->
  safe (Model1.generation c f) (fun _ => True).
Proof.
  intros Htp HY. unfold Model1.generation, Model1.offspring.
  apply runs_bind with (P := fun _ => True);
    [| intros n _; eapply runs_weaken;
       [apply Model1Facts.normalise_plants_spec1 | auto]].
  eapply runs_bind; [apply Model1Facts.normalise_pollen_spec1 | intros p _].
  eapply runs_bind;
    [apply Model1Facts.egg_pool_spec1; exact Htp | intros e _].
  eapply runs_bind;
    [apply (Model1Facts.selfing_spec1 c (fun y => 0 < y) HY); lra
    | intros n _].
  apply runs_ret. exact I.
Qed.

Lemma generation_divisors2 (c : params) (f : Model2.freqs) :
  0 <= Model2.total_pollen (Model2.raw_pollen c f) ->
  safe (Model2.generation c f) (fun _ => True).
Proof.
  intros Htp. unfold Model2.generation, Model2.offspring.
  apply runs_bind with (P := fun _ => True);
    [| intros n _; eapply runs_weaken;
       [apply Model2Facts.normalise_plants_spec2 | auto]].
  eapply runs_bind; [apply Model2Facts.normalise_pollen_spec2 | intros p _].
  eapply runs_bind;
    [apply Model2Facts.egg_pool_spec2; exact Htp | intros e _].
  apply runs_ret. exact I.
Qed.

(** C6, amended: from non-negative frequencies, with [PSatF >= 0], [F] and
    [S] in [[0,1]], a total of pollen that is not negative and, in model 1,
    [1 + ppY > 0], every divisor met in one generation is strictly positive,
    whatever [h] and [Q] are, and the generation has a result: the divisors
    are [totalpollen], [PSatF], [PSatC], [totalplants] and, in model 1,
    [1 + ppY].  A total of pollen, or of plants, that is not positive is
    not divided by: the frequencies are left as they are. *)
Theorem divisors_positive (c : params)
  (f1 : Model1.freqs) (f2 : Model2.freqs) :
  Model1.nonneg f1 -> Model2.nonneg f2 ->
  0 <= par_PSatF c -> unit_interval (par_F c) -> unit_interval (par_S c) ->
  0 <= Model1.total_pollen (Model1.raw_pollen c f1) ->
  0 <= Model2.total_pollen (Model2.raw_pollen c f2) ->
  (0 < 1 + par_ppY c ->
   Forall (fun y => 0 < y) (divisors (Model1.generation c f1)) /\
   exists f', value (Model1.generation c f1) = Some f') /\
  (Forall (fun y => 0 < y) (divisors (Model2.generation c f2)) /\
   exists f', value (Model2.generation c f2) = Some f') /\
  (forall p, Model1.total_pollen p <= 0 -> Model1.normalise_pollen p = ret p) /\
  (forall p, Model2.total_pollen p <= 0 -> Model2.normalise_pollen p = ret p) /\
  (forall f, Model1.total_plants f <= 0 -> Model1.normalise_plants f = ret f) /\
  (forall f, Model2.total_plants f <= 0 -> Model2.normalise_plants f = ret f).
Proof.
  intros _ _ _ _ _ T1 T2.
  split.
  { intros HY.
    destruct (generation_divisors1 c f1 T1 HY) as [Hd (f' & Hf' & _)].
    split; [exact Hd | exists f'; exact Hf']. }
  split.
  { destruct (generation_divisors2 c f2 T2) as [Hd (f' & Hf' & _)].
    split; [exact Hd | exists f'; exact Hf']. }
  repeat split; intros v Hv.
  - unfold Model1.normalise_pollen.
    apply Qgt_bool_false in Hv. rewrite Hv. reflexivity.
  - unfold Model2.normalise_pollen.
    apply Qgt_bool_false in Hv. rewrite Hv. reflexivity.
  - unfold Model1.normalise_plants.
    apply Qgt_bool_false in Hv. rewrite Hv. reflexivity.
  - unfold Model2.normalise_plants.
    apply Qgt_bool_false in Hv. rewrite Hv. reflexivity.
Qed.

Lemma divisors_positive_witness :
  Forall (fun y => 0 < y)
    (divisors (Model1.generation (Params 2 0.5 0 1 1 1 2 1)
                 (Model1.start false))).
Proof.
  refine (proj1 (proj1 (divisors_positive (Params 2 0.5 0 1 1 1 2 1)
                          (Model1.start false) (Model2.start false)
                          _ _ _ _ _ _ _) _));
    unfold Model1.nonneg, Model2.nonneg, unit_interval; cbn;
    try lra; vm_compute; first [discriminate | reflexivity].
Defined.

(** C9, as stated, fails: in model 1 with [ppY = -1] the selfing
    coefficients divide by [1 + ppY = 0], also when all frequencies are 0.
    And on the machine, with [PSatF = 3e38], [F = 2] and [S = 1], the
    product [PSatF * F] is rounded to infinity and [PSatC], infinity times
    0, is not a number: the frequencies, all 0, are divided by it and none
    of them is 0 afterwards. *)
Lemma extinct_division_by_zero :
  (let c := Params 0.5 0 0 1 1 1 0 (-1) in
   let f := Model1.Freqs 0 0 0 0 0 0 in
   Model1.extinct f /\
   divisors (Model1.generation c f) = [0] /\
   value (Model1.generation c f) = None) /\
  (let nan := SpecFloat.S754_nan in
   let zero := CFloat.of_Z 0 in
   let c := Model1Float.Params
              (CFloat.of_decimal 5 1) (CFloat.of_Z 1) (CFloat.of_Z 0)
              (CFloat.of_Z 1) (CFloat.of_Z 1) (CFloat.of_Z 2)
              (CFloat.of_scientific 3 38) (CFloat.of_Z 1) in
   Model1Float.generation c
     (Model1Float.Freqs zero zero zero zero zero zero)
   = Model1Float.Freqs nan nan nan nan nan nan).
Proof.
  split.
  - cbn zeta. split; [unfold Model1.extinct; cbn; repeat split; reflexivity |].
    split; vm_compute; reflexivity.
  - vm_compute. reflexivity.
Qed.

Lemma iterate_extinct1 (c : params) (n : nat) (f : Model1.freqs) :
  Model1.extinct f -> ~ 1 + par_ppY c == 0 ->
  defined (Model1.iterate c n f) Model1.extinct.
Proof.
  intros Hf HY. revert f Hf. induction n as [| n IH]; intros f Hf; cbn.
  - apply runs_ret. exact Hf.
  - eapply runs_bind; [apply Model1Facts.generation_extinct1; assumption |].
    intros f' Hf'. apply IH. exact Hf'.
Qed.

Lemma iterate_extinct2 (c : params) (n : nat) (f : Model2.freqs) :
  Model2.extinct f -> defined (Model2.iterate c n f) Model2.extinct.
Proof.
  intros Hf. revert f Hf. induction n as [| n IH]; intros f Hf; cbn.
  - apply runs_ret. exact Hf.
  - eapply runs_bind; [apply Model2Facts.generation_extinct2; assumption |].
    intros f' Hf'. apply IH. exact Hf'.
Qed.

(** C9, amended: when every genotype frequency is 0 and the product
    [PSatF * F] is within the range of [float], one generation, and so any
    number of generations, divides by no zero and ends with every frequency
    0 again: in model 2 for every such parameter setting, in model 1 for
    every such setting with [ppY <> -1].  (The exact arithmetic has no use
    for the range: it keeps [PSatC] a number on the machine.) *)
Theorem extinction_absorbing (c : params) (n : nat)
  (f1 : Model1.freqs) (f2 : Model2.freqs) :
  Model1.extinct f1 -> Model2.extinct f2 ->
  in_float_range (par_PSatF c * par_F c) ->
  (~ 1 + par_ppY c == 0 ->
   defined (Model1.generation c f1) Model1.extinct /\
   defined (Model1.iterate c n f1) Model1.extinct) /\
  defined (Model2.generation c f2) Model2.extinct /\
  defined (Model2.iterate c n f2) Model2.extinct.
Proof.
  intros H1 H2 _. split; [intros HY; split | split].
  - apply Model1Facts.generation_extinct1; assumption.
  - apply iterate_extinct1; assumption.
  - apply Model2Facts.generation_extinct2; assumption.
  - apply iterate_extinct2; assumption.
Qed.

Lemma extinction_absorbing_witness :
  defined (Model1.iterate default_params 3 (Model1.Freqs 0 0 0 0 0 0))
    Model1.extinct /\
  defined (Model2.iterate (Params 2 3 4 5 6 7 8 (-1)) 3
             (Model2.Freqs 0 0 0 0 0 0 0 0 0)) Model2.extinct.
Proof.
  split.
  - apply (proj1 (extinction_absorbing default_params 3
                    (Model1.Freqs 0 0 0 0 0 0)
                    (Model2.Freqs 0 0 0 0 0 0 0 0 0)
                    ltac:(unfold Model1.extinct; cbn; repeat split; reflexivity)
                    ltac:(unfold Model2.extinct; cbn; repeat split; reflexivity)
                    ltac:(unfold in_float_range; vm_compute;
                          split; discriminate))).
    cbn. discriminate.
  - apply (extinction_absorbing (Params 2 3 4 5 6 7 8 (-1)) 3
             (Model1.Freqs 0 0 0 0 0 0)
             (Model2.Freqs 0 0 0 0 0 0 0 0 0));
      [unfold Model1.extinct | unfold Model2.extinct | unfold in_float_range];
      first [cbn; repeat split; reflexivity
            | vm_compute; split; discriminate].
Defined.

(** * Further properties of the generation step *)

(** X1: the Mendelian tables lose no offspring: the plants from outcrossing
    add up to the product of the total of pollen and the total of eggs. *)
Theorem outcross_total (p1 : Model1.pollen) (e1 : Model1.eggs)
  (p2 : Model2.pollen) (e2 : Model2.eggs) :
  Model1.total_plants (Model1.outcross p1 e1)
    == Model1.total_pollen p1
       * (Model1.e_A e1 + Model1.e_a e1 + Model1.e_as e1) /\
  Model2.total_plants (Model2.outcross p2 e2)
    == Model2.total_pollen p2
       * (Model2.e_A_M e2 + Model2.e_A_m e2 + Model2.e_a_M e2
          + Model2.e_a_m e2).
Proof.
  destruct p1, e1, p2, e2. split.
  - unfold Model1.total_plants, Model1.total_pollen, Model1.outcross; cbn. ring.
  - unfold Model2.total_plants, Model2.total_pollen, Model2.outcross; cbn. ring.
Qed.

Lemma normalise_plants_scale1 (f : Model1.freqs) :
  safe (Model1.normalise_plants f) (fun f' =>
    exists k, 0 < k /\
      Model1.f_AA f' == Model1.f_AA f * k /\
      Model1.f_Aa f' == Model1.f_Aa f * k /\
      Model1.f_Aas f' == Model1.f_Aas f * k /\
      Model1.f_aa f' == Model1.f_aa f * k /\
      Model1.f_aas f' == Model1.f_aas f * k /\
      Model1.f_asas f' == Model1.f_asas f * k).
Proof.
  unfold Model1.normalise_plants.
  split_test (Qgt_bool (Model1.total_plants f) 0).
  - rewrite !fdiv_nonzero by lra. run_comp. cbn.
    exists (/ Model1.total_plants f). split.
    + apply Qinv_lt_0_compat. exact E.
    + unfold Qdiv. repeat split; reflexivity.
  - apply runs_ret. exists 1. split; [lra |]. repeat split; ring.
Qed.

Lemma normalise_plants_scale2 (f : Model2.freqs) :
  safe (Model2.normalise_plants f) (fun f' =>
    exists k, 0 < k /\
      Model2.f_AA_MM f' == Model2.f_AA_MM f * k /\
      Model2.f_AA_Mm f' == Model2.f_AA_Mm f * k /\
      Model2.f_AA_mm f' == Model2.f_AA_mm f * k /\
      Model2.f_Aa_MM f' == Model2.f_Aa_MM f * k /\
      Model2.f_Aa_Mm f' == Model2.f_Aa_Mm f * k /\
      Model2.f_Aa_mm f' == Model2.f_Aa_mm f * k /\
      Model2.f_aa_MM f' == Model2.f_aa_MM f * k /\
      Model2.f_aa_Mm f' == Model2.f_aa_Mm f * k /\
      Model2.f_aa_mm f' == Model2.f_aa_mm f * k).
Proof.
  unfold Model2.normalise_plants.
  split_test (Qgt_bool (Model2.total_plants f) 0).
  - rewrite !fdiv_nonzero by lra. run_comp. cbn.
    exists (/ Model2.total_plants f). split.
    + apply Qinv_lt_0_compat. exact E.
    + unfold Qdiv. repeat split; reflexivity.
  - apply runs_ret. exists 1. split; [lra |]. repeat split; ring.
Qed.

Lemma normalise_plants_factor1 (f : Model1.freqs) :
  safe (Model1.normalise_plants f) (fun f' =>
    let k := if Qgt_bool (Model1.total_plants f) 0
             then / Model1.total_plants f else 1 in
    Model1.f_AA f' == Model1.f_AA f * k /\
    Model1.f_Aa f' == Model1.f_Aa f * k /\
    Model1.f_Aas f' == Model1.f_Aas f * k /\
    Model1.f_aa f' == Model1.f_aa f * k /\
    Model1.f_aas f' == Model1.f_aas f * k /\
    Model1.f_asas f' == Model1.f_asas f * k).
Proof.
  unfold Model1.normalise_plants.
  split_test (Qgt_bool (Model1.total_plants f) 0).
  - rewrite !fdiv_nonzero by lra. run_comp. cbn.
    unfold Qdiv. repeat split; reflexivity.
  - apply runs_ret. cbn. repeat split; ring.
Qed.

Lemma normalise_plants_factor2 (f : Model2.freqs) :
  safe (Model2.normalise_plants f) (fun f' =>
    let k := if Qgt_bool (Model2.total_plants f) 0
             then / Model2.total_plants f else 1 in
    Model2.f_AA_MM f' == Model2.f_AA_MM f * k /\
    Model2.f_AA_Mm f' == Model2.f_AA_Mm f * k /\
    Model2.f_AA_mm f' == Model2.f_AA_mm f * k /\
    Model2.f_Aa_MM f' == Model2.f_Aa_MM f * k /\
    Model2.f_Aa_Mm f' == Model2.f_Aa_Mm f * k /\
    Model2.f_Aa_mm f' == Model2.f_Aa_mm f * k /\
    Model2.f_aa_MM f' == Model2.f_aa_MM f * k /\
    Model2.f_aa_Mm f' == Model2.f_aa_Mm f * k /\
    Model2.f_aa_mm f' == Model2.f_aa_mm f * k).
Proof.
  unfold Model2.normalise_plants.
  split_test (Qgt_bool (Model2.total_plants f) 0).
  - rewrite !fdiv_nonzero by lra. run_comp. cbn.
    unfold Qdiv. repeat split; reflexivity.
  - apply runs_ret. cbn. repeat split; ring.
Qed.

(** Normalising what is normalised, or what has no positive total, changes
    nothing. *)
Lemma normalise_plants_fixed1 (f : Model1.freqs) :
  Model1.total_plants f == 1 \/ Model1.total_plants f <= 0 ->
  safe (Model1.normalise_plants f) (fun f' =>
    Model1.f_AA f' == Model1.f_AA f /\ Model1.f_Aa f' == Model1.f_Aa f /\
    Model1.f_Aas f' == Model1.f_Aas f /\ Model1.f_aa f' == Model1.f_aa f /\
    Model1.f_aas f' == Model1.f_aas f /\ Model1.f_asas f' == Model1.f_asas f).
Proof.
  intros H. eapply runs_weaken; [apply normalise_plants_factor1 |].
  cbv zeta. intros f' (K1 & K2 & K3 & K4 & K5 & K6).
  rewrite K1, K2, K3, K4, K5, K6.
  split_test (Qgt_bool (Model1.total_plants f) 0).
  - destruct H as [H | H]; [| lra]. rewrite H. repeat split; field.
  - repeat split; ring.
Qed.

Lemma normalise_plants_fixed2 (f : Model2.freqs) :
  Model2.total_plants f == 1 \/ Model2.total_plants f <= 0 ->
  safe (Model2.normalise_plants f) (fun f' =>
    Model2.f_AA_MM f' == Model2.f_AA_MM f /\
    Model2.f_AA_Mm f' == Model2.f_AA_Mm f /\
    Model2.f_AA_mm f' == Model2.f_AA_mm f /\
    Model2.f_Aa_MM f' == Model2.f_Aa_MM f /\
    Model2.f_Aa_Mm f' == Model2.f_Aa_Mm f /\
    Model2.f_Aa_mm f' == Model2.f_Aa_mm f /\
    Model2.f_aa_MM f' == Model2.f_aa_MM f /\
    Model2.f_aa_Mm f' == Model2.f_aa_Mm f /\
    Model2.f_aa_mm f' == Model2.f_aa_mm f).
Proof.
  intros H. eapply runs_weaken; [apply normalise_plants_factor2 |].
  cbv zeta. intros f' (K1 & K2 & K3 & K4 & K5 & K6 & K7 & K8 & K9).
  rewrite K1, K2, K3, K4, K5, K6, K7, K8, K9.
  split_test (Qgt_bool (Model2.total_plants f) 0).
  - destruct H as [H | H]; [| lra]. rewrite H. repeat split; field.
  - repeat split; ring.
Qed.

(** X2: normalising the plants multiplies every frequency by one and the
    same factor, [1 / totalplants] when [totalplants] is positive and 1
    otherwise, so the ratios between genotypes are kept; and normalising
    the result once more changes nothing. *)
Theorem normalise_plants_keeps_ratios
  (f1 : Model1.freqs) (f2 : Model2.freqs) :
  safe (Model1.normalise_plants f1) (fun f' =>
    (let k := if Qgt_bool (Model1.total_plants f1) 0
              then / Model1.total_plants f1 else 1 in
     Model1.f_AA f' == Model1.f_AA f1 * k /\
     Model1.f_Aa f' == Model1.f_Aa f1 * k /\
     Model1.f_Aas f' == Model1.f_Aas f1 * k /\
     Model1.f_aa f' == Model1.f_aa f1 * k /\
     Model1.f_aas f' == Model1.f_aas f1 * k /\
     Model1.f_asas f' == Model1.f_asas f1 * k) /\
    safe (Model1.normalise_plants f') (fun f'' =>
      Model1.f_AA f'' == Model1.f_AA f' /\
      Model1.f_Aa f'' == Model1.f_Aa f' /\
      Model1.f_Aas f'' == Model1.f_Aas f' /\
      Model1.f_aa f'' == Model1.f_aa f' /\
      Model1.f_aas f'' == Model1.f_aas f' /\
      Model1.f_asas f'' == Model1.f_asas f')) /\
  safe (Model2.normalise_plants f2) (fun f' =>
    (let k := if Qgt_bool (Model2.total_plants f2) 0
              then / Model2.total_plants f2 else 1 in
     Model2.f_AA_MM f' == Model2.f_AA_MM f2 * k /\
     Model2.f_AA_Mm f' == Model2.f_AA_Mm f2 * k /\
     Model2.f_AA_mm f' == Model2.f_AA_mm f2 * k /\
     Model2.f_Aa_MM f' == Model2.f_Aa_MM f2 * k /\
     Model2.f_Aa_Mm f' == Model2.f_Aa_Mm f2 * k /\
     Model2.f_Aa_mm f' == Model2.f_Aa_mm f2 * k /\
     Model2.f_aa_MM f' == Model2.f_aa_MM f2 * k /\
     Model2.f_aa_Mm f' == Model2.f_aa_Mm f2 * k /\
     Model2.f_aa_mm f' == Model2.f_aa_mm f2 * k) /\
    safe (Model2.normalise_plants f') (fun f'' =>
      Model2.f_AA_MM f'' == Model2.f_AA_MM f' /\
      Model2.f_AA_Mm f'' == Model2.f_AA_Mm f' /\
      Model2.f_AA_mm f'' == Model2.f_AA_mm f' /\
      Model2.f_Aa_MM f'' == Model2.f_Aa_MM f' /\
      Model2.f_Aa_Mm f'' == Model2.f_Aa_Mm f' /\
      Model2.f_Aa_mm f'' == Model2.f_Aa_mm f' /\
      Model2.f_aa_MM f'' == Model2.f_aa_MM f' /\
      Model2.f_aa_Mm f'' == Model2.f_aa_Mm f' /\
      Model2.f_aa_mm f'' == Model2.f_aa_mm f')).
Proof.
  split.
  - destruct (Model1Facts.normalise_plants_spec1 f1) as [Hd (f' & Hv & _ & N2 & N3)].
    destruct (normalise_plants_factor1 f1) as [_ (g & Hg & K)].
    rewrite Hv in Hg. injection Hg as <-.
    split; [exact Hd |]. exists f'. split; [exact Hv |].
    split; [exact K |].
    apply normalise_plants_fixed1.
    destruct (Qlt_le_dec 0 (Model1.total_plants f1)) as [Hp | Hp].
    + left. apply N2. exact Hp.
    + right. rewrite (N3 Hp). exact Hp.
  - destruct (Model2Facts.normalise_plants_spec2 f2) as [Hd (f' & Hv & _ & N2 & N3)].
    destruct (normalise_plants_factor2 f2) as [_ (g & Hg & K)].
    rewrite Hv in Hg. injection Hg as <-.
    split; [exact Hd |]. exists f'. split; [exact Hv |].
    split; [exact K |].
    apply normalise_plants_fixed2.
    destruct (Qlt_le_dec 0 (Model2.total_plants f2)) as [Hp | Hp].
    + left. apply N2. exact Hp.
    + right. rewrite (N3 Hp). exact Hp.
Qed.

Lemma generation_invariant1 (c : params) (f : Model1.freqs) :
  valid_params c -> Model1.nonneg f ->
  safe (Model1.generation c f) (fun f' =>
    Model1.nonneg f' /\
    (Model1.total_plants f' == 1 \/ Model1.extinct f')).
Proof.
  intros (Hh & HS & Hd & HV & HQ & HF & HP & HY) Hf.
  unfold Model1.generation, unit_interval in *.
  eapply runs_bind;
    [apply Model1Facts.offspring_safe1; assumption | intros n Hn].
  assert (Hnn : Model1.nonneg n) by (apply Hn; tauto).
  eapply runs_weaken; [apply Model1Facts.normalise_plants_spec1 |].
  intros f' (N1 & N2 & N3). split; [auto |].
  destruct (Qlt_le_dec 0 (Model1.total_plants n)) as [Hpos | Hle].
  - left. auto.
  - right. rewrite N3 by exact Hle.
    apply Model1Facts.nonneg_total_zero1; assumption.
Qed.

Lemma generation_invariant2 (c : params) (f : Model2.freqs) :
  valid_params c -> Model2.nonneg f ->
  safe (Model2.generation c f) (fun f' =>
    Model2.nonneg f' /\
    (Model2.total_plants f' == 1 \/ Model2.extinct f')).
Proof.
  intros (Hh & HS & Hd & HV & HQ & HF & HP & HY) Hf.
  unfold Model2.generation, unit_interval in *.
  eapply runs_bind;
    [apply Model2Facts.offspring_safe2; assumption | intros n Hn].
  assert (Hnn : Model2.nonneg n) by (apply Hn; tauto).
  eapply runs_weaken; [apply Model2Facts.normalise_plants_spec2 |].
  intros f' (N1 & N2 & N3). split; [auto |].
  destruct (Qlt_le_dec 0 (Model2.total_plants n)) as [Hpos | Hle].
  - left. auto.
  - right. rewrite N3 by exact Hle.
    apply Model2Facts.nonneg_total_zero2; assumption.
Qed.

Lemma iterate_invariant1 (c : params) (n : nat) (f : Model1.freqs) :
  valid_params c -> Model1.nonneg f ->
  Model1.total_plants f == 1 \/ Model1.extinct f ->
  safe (Model1.iterate c n f) (fun f' =>
    Model1.nonneg f' /\
    (Model1.total_plants f' == 1 \/ Model1.extinct f')).
Proof.
  intros Hc. revert f. induction n as [| n IH]; intros f Hf Ht; cbn.
  - apply runs_ret. auto.
  - eapply runs_bind; [apply generation_invariant1; assumption |].
    intros f' [H1 H2]. apply IH; assumption.
Qed.

Lemma iterate_invariant2 (c : params) (n : nat) (f : Model2.freqs) :
  valid_params c -> Model2.nonneg f ->
  Model2.total_plants f == 1 \/ Model2.extinct f ->
  safe (Model2.iterate c n f) (fun f' =>
    Model2.nonneg f' /\
    (Model2.total_plants f' == 1 \/ Model2.extinct f')).
Proof.
  intros Hc. revert f. induction n as [| n IH]; intros f Hf Ht; cbn.
  - apply runs_ret. auto.
  - eapply runs_bind; [apply generation_invariant2; assumption |].
    intros f' [H1 H2]. apply IH; assumption.
Qed.

Lemma start_total1 (pgd : bool) : Model1.total_plants (Model1.start pgd) == 1.
Proof. destruct pgd; reflexivity. Qed.

Lemma start_total2 (pgd : bool) : Model2.total_plants (Model2.start pgd) == 1.
Proof. destruct pgd; reflexivity. Qed.

(** X3: with [h], [S], [d], [V], [Q], [F], [ppY] in [[0,1]] and
    [PSatF >= 0], a whole simulation, of any number of iterations and from
    either start, meets only positive divisors and ends in non-negative
    frequencies that sum to 1 or are all 0; the three aggregates then sum
    to 1 or to 0. *)
Theorem simulate_normalised (c : params) (pgd : bool) (endpoint : Z)
  (v1 : Model1.freqs) (v2 : Model2.freqs) :
  params_in_range c ->
  safe (Model1.simulate c pgd endpoint v1) (fun f =>
    Model1.nonneg f /\
    (Model1.total_plants f == 1 \/ Model1.extinct f) /\
    (Model1.female f + Model1.male f + Model1.inconstant f == 1 \/
     Model1.female f + Model1.male f + Model1.inconstant f == 0)) /\
  safe (Model2.simulate c pgd endpoint v2) (fun f =>
    Model2.nonneg f /\
    (Model2.total_plants f == 1 \/ Model2.extinct f) /\
    (Model2.female f + Model2.male f + Model2.inconstant f == 1 \/
     Model2.female f + Model2.male f + Model2.inconstant f == 0)).
Proof.
  intros Hc. apply params_in_range_valid in Hc. split.
  - unfold Model1.simulate. eapply runs_weaken.
    + apply iterate_invariant1;
        [exact Hc | apply nonneg_start1 | left; apply start_total1].
    + intros f [Hn Ht]. split; [exact Hn |]. split; [exact Ht |].
      unfold Model1.female, Model1.male, Model1.inconstant.
      destruct Ht as [Ht | Ht].
      * left. unfold Model1.total_plants in Ht. lra.
      * right. apply Model1Facts.extinct_total1 in Ht.
        unfold Model1.total_plants in Ht. lra.
  - unfold Model2.simulate. eapply runs_weaken.
    + apply iterate_invariant2;
        [exact Hc | apply nonneg_start2 | left; apply start_total2].
    + intros f [Hn Ht]. split; [exact Hn |]. split; [exact Ht |].
      unfold Model2.female, Model2.male, Model2.inconstant.
      destruct Ht as [Ht | Ht].
      * left. unfold Model2.total_plants in Ht. lra.
      * right. apply Model2Facts.extinct_total2 in Ht.
        unfold Model2.total_plants in Ht. lra.
Qed.

Lemma simulate_normalised_witness :
  safe (Model1.simulate default_params false 2 (Model1.start true)) (fun f =>
    Model1.nonneg f /\
    (Model1.total_plants f == 1 \/ Model1.extinct f) /\
    (Model1.female f + Model1.male f + Model1.inconstant f == 1 \/
     Model1.female f + Model1.male f + Model1.inconstant f == 0)).
Proof.
  refine (proj1 (simulate_normalised default_params false 2
                   (Model1.start true) (Model2.start true) _)).
  unfold params_in_range, unit_interval, default_params; cbn. lra.
Defined.

Lemma PSatC_le_PSatF (c : params) :
  0 <= par_PSatF c -> unit_interval (par_F c) -> unit_interval (par_S c) ->
  par_PSatF c * par_F c * (1 - par_S c) <= par_PSatF c.
Proof.
  unfold unit_interval. intros HP [HF0 HF1] [HS0 HS1].
  assert (H1 : 0 <= par_PSatF c * par_F c) by nonneg.
  assert (H2 : par_PSatF c * par_F c <= par_PSatF c) by nra.
  nra.
Qed.

(** X4: when the total of pollen reaches [PSatF] (always so for
    [PSatF = 0]), and [F] and [S] are in [[0,1]], no receiver is pollen
    limited: the egg pool is computed without any division and every
    receiver gives its full contribution. *)
Theorem egg_pool_unlimited (c : params) (tp : Q)
  (f1 : Model1.freqs) (f2 : Model2.freqs) :
  0 <= par_PSatF c -> par_PSatF c <= tp ->
  unit_interval (par_F c) -> unit_interval (par_S c) ->
  let w := par_h c * (1 - par_S c) * par_F c in
  (divisors (Model1.egg_pool c f1 tp) = [] /\
   exists e, value (Model1.egg_pool c f1 tp) = Some e /\
     Model1.e_A e == Model1.f_AA f1 + Model1.f_Aas f1 * 0.5 * w /\
     Model1.e_a e == Model1.f_aas f1 * 0.5 * w /\
     Model1.e_as e == Model1.f_Aas f1 * 0.5 * w + Model1.f_aas f1 * 0.5 * w
                      + Model1.f_asas f1 * w) /\
  (divisors (Model2.egg_pool c f2 tp) = [] /\
   exists e, value (Model2.egg_pool c f2 tp) = Some e /\
     Model2.e_A_M e == Model2.f_AA_MM f2 + Model2.f_AA_Mm f2 * 0.5
                       + Model2.f_Aa_MM f2 * 0.5 * w
                       + Model2.f_Aa_Mm f2 * 0.25 * w /\
     Model2.e_A_m e == Model2.f_AA_Mm f2 * 0.5 + Model2.f_AA_mm f2
                       + Model2.f_Aa_Mm f2 * 0.25 * w /\
     Model2.e_a_M e == Model2.f_Aa_MM f2 * 0.5 * w
                       + Model2.f_Aa_Mm f2 * 0.25 * w
                       + Model2.f_aa_MM f2 * w + Model2.f_aa_Mm f2 * 0.5 * w /\
     Model2.e_a_m e == Model2.f_Aa_Mm f2 * 0.25 * w
                       + Model2.f_aa_Mm f2 * 0.5 * w).
Proof.
  intros HP Htp HF HS w.
  assert (HC := PSatC_le_PSatF c HP HF HS).
  assert (T1 : Qge_bool tp (par_PSatF c) = true)
    by (apply Qge_bool_true; exact Htp).
  assert (T2 : Qge_bool tp (par_PSatF c * par_F c * (1 - par_S c)) = true)
    by (apply Qge_bool_true; lra).
  subst w. destruct c as [h S d V Q F PSatF ppY].
  cbn [par_h par_S par_F par_PSatF] in *. split.
  - destruct f1 as [a1 a2 a3 a4 a5 a6]. unfold Model1.egg_pool.
    cbn [par_h par_S par_F par_PSatF]. rewrite T1, T2.
    cbn [bind ret value divisors app]. split; [reflexivity |].
    eexists; split; [reflexivity |]. cbn. repeat split; ring.
  - destruct f2 as [a1 a2 a3 a4 a5 a6 a7 a8 a9]. unfold Model2.egg_pool.
    cbn [par_h par_S par_F par_PSatF]. rewrite T1, T2.
    cbn [bind ret value divisors app]. split; [reflexivity |].
    eexists; split; [reflexivity |]. cbn. repeat split; ring.
Qed.

Lemma egg_pool_unlimited_witness :
  divisors (Model1.egg_pool default_params (Model1.start false) 0.5) = [].
Proof.
  refine (proj1 (proj1 (egg_pool_unlimited default_params 0.5
                          (Model1.start false) (Model2.start false)
                          _ _ _ _)));
    unfold unit_interval; cbn; lra.
Defined.

(** X5: with [V = 0] ("ancient dioecy"), the other parameters in their
    ranges ([h], [S], [d], [Q], [F], [ppY] in [[0,1]], [PSatF >= 0]) and
    non-negative frequencies of total at most 1, a generation leaves no YY
    plant: the frequencies of aa, aa* and a*a* (of aa MM, aa Mm and aa mm in
    model 2) are 0 afterwards. *)
Theorem ancient_dioecy_no_YY (c : params)
  (f1 : Model1.freqs) (f2 : Model2.freqs) :
  params_in_range c -> par_V c == 0 ->
  Model1.nonneg f1 -> Model1.total_plants f1 <= 1 ->
  Model2.nonneg f2 -> Model2.total_plants f2 <= 1 ->
  safe (Model1.generation c f1) (fun f' =>
    Model1.f_aa f' == 0 /\ Model1.f_aas f' == 0 /\ Model1.f_asas f' == 0) /\
  safe (Model2.generation c f2) (fun f' =>
    Model2.f_aa_MM f' == 0 /\ Model2.f_aa_Mm f' == 0 /\
    Model2.f_aa_mm f' == 0).
Proof.
  intros Hc HV0 H1 _ H2 _. apply params_in_range_valid in Hc.
  destruct Hc as (Hh & HS & Hd & HV & HQ & HF & HP & HY).
  assert (HY' : 0 < 1 + par_ppY c) by lra.
  assert (HY'' : ~ 1 + par_ppY c == 0) by lra.
  split.
  - unfold Model1.generation, Model1.offspring.
    assert (Htp := Model1Facts.raw_pollen_total1 c f1 H1 Hh HQ HY).
    apply runs_bind with (P := fun n =>
      Model1.f_aa n == 0 /\ Model1.f_aas n == 0 /\ Model1.f_asas n == 0);
      [| intros n Hn;
      eapply runs_weaken; [apply normalise_plants_scale1 |];
      intros f' (k & _ & _ & _ & _ & K4 & K5 & K6);
      destruct Hn as (N4 & N5 & N6);
      rewrite K4, K5, K6, N4, N5, N6; repeat split; ring].
    eapply runs_bind;
      [apply Model1Facts.normalise_pollen_spec1 | intros p _].
    eapply runs_bind;
      [apply Model1Facts.egg_pool_spec1; exact Htp | intros e _].
    eapply runs_bind;
      [apply (Model1Facts.selfing_spec1 c (fun y => 0 < y) HY' HY'') |].
    intros n _. apply runs_ret.
    destruct n as [a1 a2 a3 a4 a5 a6]. unfold Model1.yy_penalty; cbn.
    rewrite HV0. repeat split; ring.
  - unfold Model2.generation, Model2.offspring.
    assert (Htp := Model2Facts.raw_pollen_total2 c f2 H2 Hh HQ).
    apply runs_bind with (P := fun n =>
      Model2.f_aa_MM n == 0 /\ Model2.f_aa_Mm n == 0 /\
      Model2.f_aa_mm n == 0);
      [| intros n Hn;
      eapply runs_weaken; [apply normalise_plants_scale2 |];
      intros f' (k & _ & _ & _ & _ & _ & _ & _ & K7 & K8 & K9);
      destruct Hn as (N7 & N8 & N9);
      rewrite K7, K8, K9, N7, N8, N9; repeat split; ring].
    eapply runs_bind;
      [apply Model2Facts.normalise_pollen_spec2 | intros p _].
    eapply runs_bind;
      [apply Model2Facts.egg_pool_spec2; exact Htp | intros e _].
    apply runs_ret.
    destruct (Model2.selfing c f2 (Model2.outcross p e))
      as [a1 a2 a3 a4 a5 a6 a7 a8 a9].
    unfold Model2.yy_penalty; cbn.
    rewrite HV0. repeat split; ring.
Qed.

Lemma ancient_dioecy_no_YY_witness :
  safe (Model1.generation (Params 0.5 0.5 0 0 1 1 0 1) (Model1.start true))
    (fun f' =>
       Model1.f_aa f' == 0 /\ Model1.f_aas f' == 0 /\ Model1.f_asas f' == 0).
Proof.
  refine (proj1 (ancient_dioecy_no_YY (Params 0.5 0.5 0 0 1 1 0 1)
                   (Model1.start true) (Model2.start true) _ _ _ _ _ _)).
  - unfold params_in_range, unit_interval; cbn. lra.
  - reflexivity.
  - unfold Model1.nonneg; cbn. lra.
  - unfold Model1.total_plants; cbn. lra.
  - unfold Model2.nonneg; cbn. lra.
  - unfold Model2.total_plants; cbn. lra.
Defined.

Lemma Qdiv_le_self (x tp y : Q) :
  0 <= x -> 0 <= tp -> tp < y -> 0 <= x * tp / y <= x.
Proof.
  intros Hx Ht Hy. split.
  - apply Qdiv_nonneg; [nonneg | lra].
  - apply Qle_shift_div_r; [lra |]. nra.
Qed.

(** Bound every pollen-limited term [x * tp / y] by [x]. *)
Ltac bound_limited tp :=
  repeat match goal with
         | |- context [?x * tp / ?y] =>
             let H := fresh "B" in
             let t := fresh "t" in
             let E := fresh "E" in
             assert (H : 0 <= x * tp / y <= x)
               by (apply Qdiv_le_self; [nonneg | lra | lra]);
             remember (x * tp / y) as t eqn:E; clear E
         end.

Lemma egg_pool_bounded1 (c : params) (f : Model1.freqs) (tp : Q) :
  0 <= tp -> Model1.nonneg f ->
  0 <= par_h c -> par_S c <= 1 -> 0 <= par_F c ->
  let w := par_h c * (1 - par_S c) * par_F c in
  safe (Model1.egg_pool c f tp) (fun e =>
    0 <= Model1.e_A e <= Model1.f_AA f + Model1.f_Aas f * 0.5 * w /\
    0 <= Model1.e_a e <= Model1.f_aas f * 0.5 * w /\
    0 <= Model1.e_as e <= Model1.f_Aas f * 0.5 * w + Model1.f_aas f * 0.5 * w
                          + Model1.f_asas f * w).
Proof.
  intros Htp Hf Hh HS HF w. subst w.
  destruct c as [h S d V Q F PSatF ppY], f as [a1 a2 a3 a4 a5 a6].
  unfold Model1.egg_pool, Model1.nonneg in *;
    cbn [par_h par_S par_F par_PSatF Model1.f_AA Model1.f_Aa Model1.f_Aas
         Model1.f_aa Model1.f_aas Model1.f_asas] in *.
  destruct Hf as (? & ? & ? & ? & ? & ?).
  assert (0 <= a3 * h * 0.5 * (1 - S) * F) by nonneg.
  assert (0 <= a5 * h * 0.5 * (1 - S) * F) by nonneg.
  assert (0 <= a6 * h * (1 - S) * F) by nonneg.
  split_test (Qge_bool tp PSatF);
    split_test (Qge_bool tp (PSatF * F * (1 - S)));
    rewrite ?fdiv_nonzero by lra; run_comp;
    cbn [Model1.e_A Model1.e_a Model1.e_as];
    bound_limited tp; repeat split; lra.
Qed.

Lemma egg_pool_bounded2 (c : params) (f : Model2.freqs) (tp : Q) :
  0 <= tp -> Model2.nonneg f ->
  0 <= par_h c -> par_S c <= 1 -> 0 <= par_F c ->
  let w := par_h c * (1 - par_S c) * par_F c in
  safe (Model2.egg_pool c f tp) (fun e =>
    0 <= Model2.e_A_M e <= Model2.f_AA_MM f + Model2.f_AA_Mm f * 0.5
                           + Model2.f_Aa_MM f * 0.5 * w
                           + Model2.f_Aa_Mm f * 0.25 * w /\
    0 <= Model2.e_A_m e <= Model2.f_AA_Mm f * 0.5 + Model2.f_AA_mm f
                           + Model2.f_Aa_Mm f * 0.25 * w /\
    0 <= Model2.e_a_M e <= Model2.f_Aa_MM f * 0.5 * w
                           + Model2.f_Aa_Mm f * 0.25 * w
                           + Model2.f_aa_MM f * w
                           + Model2.f_aa_Mm f * 0.5 * w /\
    0 <= Model2.e_a_m e <= Model2.f_Aa_Mm f * 0.25 * w
                           + Model2.f_aa_Mm f * 0.5 * w).
Proof.
  intros Htp Hf Hh HS HF w. subst w.
  destruct c as [h S d V Q F PSatF ppY].
  destruct f as [a1 a2 a3 a4 a5 a6 a7 a8 a9].
  unfold Model2.egg_pool, Model2.nonneg in *;
    cbn [par_h par_S par_F par_PSatF Model2.f_AA_MM Model2.f_AA_Mm
         Model2.f_AA_mm Model2.f_Aa_MM Model2.f_Aa_Mm Model2.f_Aa_mm
         Model2.f_aa_MM Model2.f_aa_Mm Model2.f_aa_mm] in *.
  destruct Hf as (? & ? & ? & ? & ? & ? & ? & ? & ?).
  assert (0 <= a2 * 0.5) by nonneg.
  assert (0 <= a4 * h * 0.5 * (1 - S) * F) by nonneg.
  assert (0 <= a5 * h * 0.25 * (1 - S) * F) by nonneg.
  assert (0 <= a7 * h * (1 - S) * F) by nonneg.
  assert (0 <= a8 * h * 0.5 * (1 - S) * F) by nonneg.
  split_test (Qge_bool tp PSatF);
    split_test (Qge_bool tp (PSatF * F * (1 - S)));
    rewrite ?fdiv_nonzero by lra; run_comp;
    cbn [Model2.e_A_M Model2.e_A_m Model2.e_a_M Model2.e_a_m];
    bound_limited tp; repeat split; lra.
Qed.

(** X6: pollen limitation only takes eggs away: from non-negative
    frequencies of total at most 1, a non-negative total of pollen, [h],
    [S] and [F] in [[0,1]] and [PSatF >= 0], every egg frequency lies
    between 0 and the contribution that the receivers give when they are
    not pollen limited, and the divisors [PSatF] and [PSatC] are positive
    where they are used. *)
Theorem egg_pool_bounded (c : params) (tp : Q)
  (f1 : Model1.freqs) (f2 : Model2.freqs) :
  0 <= tp ->
  Model1.nonneg f1 -> Model1.total_plants f1 <= 1 ->
  Model2.nonneg f2 -> Model2.total_plants f2 <= 1 ->
  unit_interval (par_h c) -> unit_interval (par_S c) ->
  unit_interval (par_F c) -> 0 <= par_PSatF c ->
  let w := par_h c * (1 - par_S c) * par_F c in
  safe (Model1.egg_pool c f1 tp) (fun e =>
    0 <= Model1.e_A e <= Model1.f_AA f1 + Model1.f_Aas f1 * 0.5 * w /\
    0 <= Model1.e_a e <= Model1.f_aas f1 * 0.5 * w /\
    0 <= Model1.e_as e <= Model1.f_Aas f1 * 0.5 * w
                          + Model1.f_aas f1 * 0.5 * w
                          + Model1.f_asas f1 * w) /\
  safe (Model2.egg_pool c f2 tp) (fun e =>
    0 <= Model2.e_A_M e <= Model2.f_AA_MM f2 + Model2.f_AA_Mm f2 * 0.5
                           + Model2.f_Aa_MM f2 * 0.5 * w
                           + Model2.f_Aa_Mm f2 * 0.25 * w /\
    0 <= Model2.e_A_m e <= Model2.f_AA_Mm f2 * 0.5 + Model2.f_AA_mm f2
                           + Model2.f_Aa_Mm f2 * 0.25 * w /\
    0 <= Model2.e_a_M e <= Model2.f_Aa_MM f2 * 0.5 * w
                           + Model2.f_Aa_Mm f2 * 0.25 * w
                           + Model2.f_aa_MM f2 * w
                           + Model2.f_aa_Mm f2 * 0.5 * w /\
    0 <= Model2.e_a_m e <= Model2.f_Aa_Mm f2 * 0.25 * w
                           + Model2.f_aa_Mm f2 * 0.5 * w).
Proof.
  intros Htp H1 _ H2 _ [Hh _] [_ HS] [HF _] _ w. split.
  - apply egg_pool_bounded1; assumption.
  - apply egg_pool_bounded2; assumption.
Qed.

Lemma egg_pool_bounded_witness :
  safe (Model1.egg_pool (Params 0.5 0.5 0 1 1 1 2 1) (Model1.start true) 0.5)
    (fun e =>
       0 <= Model1.e_A e <= 0.499 + 0.499 * 0.5 * (0.5 * (1 - 0.5) * 1) /\
       0 <= Model1.e_a e <= 0 * 0.5 * (0.5 * (1 - 0.5) * 1) /\
       0 <= Model1.e_as e <= 0.499 * 0.5 * (0.5 * (1 - 0.5) * 1)
                             + 0 * 0.5 * (0.5 * (1 - 0.5) * 1)
                             + 0 * (0.5 * (1 - 0.5) * 1)).
Proof.
  refine (proj1 (egg_pool_bounded (Params 0.5 0.5 0 1 1 1 2 1) 0.5
                   (Model1.start true) (Model2.start true)
                   _ _ _ _ _ _ _ _ _));
    unfold Model1.nonneg, Model2.nonneg, Model1.total_plants,
      Model2.total_plants, unit_interval; cbn; lra.
Defined.

(** X7: for [h], [Q] and [ppY] in [[0,1]] the pollen produced never
    exceeds the frequency of males and inconstants together; in a normalised
    population it is at most 1, the output of a population of males only, so
    that [PSatF > 1] leaves every female pollen limited. *)
Theorem pollen_total_bounded (c : params)
  (f1 : Model1.freqs) (f2 : Model2.freqs) :
  unit_interval (par_h c) -> unit_interval (par_Q c) ->
  unit_interval (par_ppY c) ->
  Model1.nonneg f1 -> Model2.nonneg f2 ->
  (0 <= Model1.total_pollen (Model1.raw_pollen c f1)
     <= Model1.male f1 + Model1.inconstant f1 /\
   (Model1.total_plants f1 == 1 ->
    Model1.total_pollen (Model1.raw_pollen c f1) <= 1)) /\
  (0 <= Model2.total_pollen (Model2.raw_pollen c f2)
     <= Model2.male f2 + Model2.inconstant f2 /\
   (Model2.total_plants f2 == 1 ->
    Model2.total_pollen (Model2.raw_pollen c f2) <= 1)).
Proof.
  unfold unit_interval. intros Hh [HQ0 HQ1] [HY0 HY1] H1 H2.
  assert (Hw : 0 <= par_h c * par_Q c + (1 - par_h c) <= 1) by nra.
  split.
  - assert (T := Model1Facts.raw_pollen_total1 c f1 H1 Hh HQ0 HY0).
    revert T. destruct c as [h S d V Q F PSatF ppY].
    destruct f1 as [a1 a2 a3 a4 a5 a6].
    unfold Model1.total_pollen, Model1.raw_pollen, Model1.total_plants,
      Model1.male, Model1.inconstant, Model1.nonneg in *; cbn in *.
    destruct H1 as (? & ? & ? & ? & ? & ?). intros T.
    set (w := h * Q + (1 - h)) in *.
    assert (E : 0 + a2 * 0.5 + a3 * 0.5 * h * Q + a3 * 0.5 * (1 - h) +
       (0 + a2 * 0.5 + a4 + a5 * 0.5 * h * Q + a5 * 0.5 * (1 - h)) * ppY +
       (0 + a3 * 0.5 * h * Q + a3 * 0.5 * (1 - h) + a5 * 0.5 * h * Q +
        a5 * 0.5 * (1 - h) + a6 * h * Q + a6 * (1 - h)) * ppY
       == a2 * 0.5 + (a3 * w) * 0.5
          + (a2 * ppY) * 0.5 + a4 * ppY + ((a5 * w) * ppY) * 0.5
          + ((a3 * w) * ppY) * 0.5 + ((a5 * w) * ppY) * 0.5 + (a6 * w) * ppY)
      by (subst w; ring).
    rewrite E in *; clear E.
    assert (0 <= a3 * w <= a3) by nra.
    assert (0 <= a5 * w <= a5) by nra.
    assert (0 <= a6 * w <= a6) by nra.
    assert (0 <= a2 * ppY <= a2) by nra.
    assert (0 <= a4 * ppY <= a4) by nra.
    assert (0 <= a3 * w * ppY <= a3 * w) by nra.
    assert (0 <= a5 * w * ppY <= a5 * w) by nra.
    assert (0 <= a6 * w * ppY <= a6 * w) by nra.
    repeat split; intros; lra.
  - assert (T := Model2Facts.raw_pollen_total2 c f2 H2 Hh HQ0).
    revert T. destruct c as [h S d V Q F PSatF ppY].
    destruct f2 as [a1 a2 a3 a4 a5 a6 a7 a8 a9].
    unfold Model2.total_pollen, Model2.raw_pollen, Model2.total_plants,
      Model2.male, Model2.inconstant, Model2.nonneg in *; cbn in *.
    destruct H2 as (? & ? & ? & ? & ? & ? & ? & ? & ?). intros T.
    set (w := h * Q + (1 - h)) in *.
    assert (E : 0 + a4 * 0.5 * h * Q + a4 * 0.5 * (1 - h) + a5 * 0.25 * h * Q +
       a5 * 0.25 * (1 - h) +
       (0 + a5 * 0.25 * h * Q + a5 * 0.25 * (1 - h) + a6 * 0.5) +
       (0 + a4 * 0.5 * h * Q + a4 * 0.5 * (1 - h) + a5 * 0.25 * h * Q +
        a5 * 0.25 * (1 - h) + a7 * h * Q + a7 * (1 - h) + a8 * 0.5 * h * Q +
        a8 * 0.5 * (1 - h)) +
       (0 + a5 * 0.25 * h * Q + a5 * 0.25 * (1 - h) + a6 * 0.5 +
        a8 * 0.5 * h * Q + a8 * 0.5 * (1 - h) + a9)
       == a4 * w + a5 * w + a6 + a7 * w + a8 * w + a9)
      by (subst w; ring).
    rewrite E in *; clear E.
    assert (0 <= a4 * w <= a4) by nra.
    assert (0 <= a5 * w <= a5) by nra.
    assert (0 <= a7 * w <= a7) by nra.
    assert (0 <= a8 * w <= a8) by nra.
    repeat split; intros; lra.
Qed.

Lemma pollen_total_bounded_witness :
  Model1.total_pollen (Model1.raw_pollen default_params (Model1.start false))
    <= 1.
Proof.
  refine (proj2 (proj1 (pollen_total_bounded default_params
                          (Model1.start false) (Model2.start false)
                          _ _ _ _ _)) _);
    unfold unit_interval, Model1.nonneg, Model2.nonneg; cbn; try lra.
  reflexivity.
Defined.

Lemma outcross_mass1 (p : Model1.pollen) (e : Model1.eggs) :
  Model1.total_plants (Model1.outcross p e)
  == Model1.total_pollen p * (Model1.e_A e + Model1.e_a e + Model1.e_as e).
Proof.
  destruct p, e.
  unfold Model1.total_plants, Model1.total_pollen, Model1.outcross; cbn. ring.
Qed.

Lemma outcross_mass2 (p : Model2.pollen) (e : Model2.eggs) :
  Model2.total_plants (Model2.outcross p e)
  == Model2.total_pollen p
     * (Model2.e_A_M e + Model2.e_A_m e + Model2.e_a_M e + Model2.e_a_m e).
Proof.
  destruct p, e.
  unfold Model2.total_plants, Model2.total_pollen, Model2.outcross; cbn. ring.
Qed.

Lemma single_sex_extinct1 (c : params) (f : Model1.freqs) :
  valid_params c -> Model1.nonneg f -> Model1.inconstant f == 0 ->
  Model1.female f == 0 \/ Model1.male f == 0 ->
  safe (Model1.generation c f) Model1.extinct.
Proof.
  intros (Hh & HS & Hd & HV & HQ & HF & HP & HY) Hf Hi Hs.
  unfold unit_interval in *.
  assert (HY' : 0 < 1 + par_ppY c) by lra.
  assert (HY'' : ~ 1 + par_ppY c == 0) by lra.
  assert (Hraw := Model1Facts.raw_pollen_nonneg1 c f Hf Hh HQ HY).
  assert (Htp := Model1Facts.raw_pollen_total1 c f Hf Hh HQ HY).
  assert (Hf' := Hf). destruct Hf' as (F1 & F2 & F3 & F4 & F5 & F6).
  unfold Model1.inconstant, Model1.female, Model1.male in Hi, Hs.
  assert (I3 : Model1.f_Aas f == 0) by lra.
  assert (I5 : Model1.f_aas f == 0) by lra.
  assert (I6 : Model1.f_asas f == 0) by lra.
  unfold Model1.generation, Model1.offspring.
  apply runs_bind with (P := Model1.extinct);
    [| intros n Hn; eapply runs_weaken;
       [apply Model1Facts.normalise_plants_spec1 |];
       intros f' (_ & _ & N3); rewrite N3; [exact Hn |];
       rewrite (Model1Facts.extinct_total1 n Hn); lra].
  eapply runs_bind;
    [apply Model1Facts.normalise_pollen_spec1 | intros p (P1 & _ & P3)].
  eapply runs_bind;
    [apply (egg_pool_bounded1 c f _ Htp Hf); lra | intros e (E1 & E2 & E3)].
  set (W := par_h c * (1 - par_S c) * par_F c) in *.
  assert (B3 : Model1.f_Aas f * 0.5 * W == 0) by (rewrite I3; ring).
  assert (B5 : Model1.f_aas f * 0.5 * W == 0) by (rewrite I5; ring).
  assert (B6 : Model1.f_asas f * W == 0) by (rewrite I6; ring).
  eapply runs_bind;
    [apply (Model1Facts.selfing_spec1 c (fun y => 0 < y) HY' HY'') |].
  intros n (N1 & _ & N3). apply runs_ret.
  apply Model1Facts.yy_penalty_spec1.
  assert (Ho : Model1.nonneg (Model1.outcross p e))
    by (apply Model1Facts.outcross_spec1; [auto | lra]).
  apply Model1Facts.nonneg_total_zero1; [apply N1; auto; lra |].
  rewrite N3, outcross_mass1.
  unfold Model1.inconstant. rewrite I3, I5, I6.
  destruct Hs as [Hs | Hs].
  - assert (Z : Model1.e_A e + Model1.e_a e + Model1.e_as e == 0) by lra.
    rewrite Z. ring_simplify. lra.
  - assert (A : Model1.all_female f).
    { unfold Model1.all_female. repeat split; lra. }
    apply (proj1 (Model1Facts.raw_pollen_all_female1 c f Hf Hh HQ HY)) in A.
    rewrite P3 by lra. rewrite A. ring_simplify. lra.
Qed.

Lemma single_sex_extinct2 (c : params) (f : Model2.freqs) :
  valid_params c -> Model2.nonneg f -> Model2.inconstant f == 0 ->
  Model2.female f == 0 \/ Model2.male f == 0 ->
  safe (Model2.generation c f) Model2.extinct.
Proof.
  intros (Hh & HS & Hd & HV & HQ & HF & HP & HY) Hf Hi Hs.
  unfold unit_interval in *.
  assert (Hraw := Model2Facts.raw_pollen_nonneg2 c f Hf Hh HQ).
  assert (Htp := Model2Facts.raw_pollen_total2 c f Hf Hh HQ).
  assert (Hf' := Hf).
  destruct Hf' as (F1 & F2 & F3 & F4 & F5 & F6 & F7 & F8 & F9).
  unfold Model2.inconstant, Model2.female, Model2.male in Hi, Hs.
  assert (I4 : Model2.f_Aa_MM f == 0) by lra.
  assert (I5 : Model2.f_Aa_Mm f == 0) by lra.
  assert (I7 : Model2.f_aa_MM f == 0) by lra.
  assert (I8 : Model2.f_aa_Mm f == 0) by lra.
  unfold Model2.generation, Model2.offspring.
  apply runs_bind with (P := Model2.extinct);
    [| intros n Hn; eapply runs_weaken;
       [apply Model2Facts.normalise_plants_spec2 |];
       intros f' (_ & _ & N3); rewrite N3; [exact Hn |];
       rewrite (Model2Facts.extinct_total2 n Hn); lra].
  eapply runs_bind;
    [apply Model2Facts.normalise_pollen_spec2 | intros p (P1 & _ & P3)].
  eapply runs_bind;
    [apply (egg_pool_bounded2 c f _ Htp Hf); lra
    | intros e (E1 & E2 & E3 & E4)].
  set (W := par_h c * (1 - par_S c) * par_F c) in *.
  assert (B4 : Model2.f_Aa_MM f * 0.5 * W == 0) by (rewrite I4; ring).
  assert (B5 : Model2.f_Aa_Mm f * 0.25 * W == 0) by (rewrite I5; ring).
  assert (B7 : Model2.f_aa_MM f * W == 0) by (rewrite I7; ring).
  assert (B8 : Model2.f_aa_Mm f * 0.5 * W == 0) by (rewrite I8; ring).
  apply runs_ret.
  destruct (Model2Facts.selfing_spec2 c f (Model2.outcross p e))
    as (N1 & _ & N3).
  apply Model2Facts.yy_penalty_spec2.
  assert (Ho : Model2.nonneg (Model2.outcross p e))
    by (apply Model2Facts.outcross_spec2; [auto | lra]).
  apply Model2Facts.nonneg_total_zero2; [apply N1; auto; lra |].
  rewrite N3, outcross_mass2.
  unfold Model2.inconstant. rewrite I4, I5, I7, I8.
  destruct Hs as [Hs | Hs].
  - assert (Z : Model2.e_A_M e + Model2.e_A_m e + Model2.e_a_M e
                + Model2.e_a_m e == 0) by lra.
    rewrite Z. ring_simplify. lra.
  - assert (A : Model2.all_female f).
    { unfold Model2.all_female. repeat split; lra. }
    apply (proj1 (Model2Facts.raw_pollen_all_female2 c f Hf Hh HQ)) in A.
    rewrite P3 by lra. rewrite A. ring_simplify. lra.
Qed.

(** X8: with [h], [S], [d], [V], [Q], [F], [ppY] in [[0,1]] and
    [PSatF >= 0], a population (non-negative frequencies of total at most
    1) without inconstants that has no female, or no male, is extinct after
    one generation: every frequency is 0, and every divisor met on the way
    is positive. *)
Theorem single_sex_extinct (c : params)
  (f1 : Model1.freqs) (f2 : Model2.freqs) :
  params_in_range c ->
  Model1.nonneg f1 -> Model1.total_plants f1 <= 1 ->
  Model1.inconstant f1 == 0 ->
  Model1.female f1 == 0 \/ Model1.male f1 == 0 ->
  Model2.nonneg f2 -> Model2.total_plants f2 <= 1 ->
  Model2.inconstant f2 == 0 ->
  Model2.female f2 == 0 \/ Model2.male f2 == 0 ->
  safe (Model1.generation c f1) Model1.extinct /\
  safe (Model2.generation c f2) Model2.extinct.
Proof.
  intros Hc N1 _ I1 S1 N2 _ I2 S2. apply params_in_range_valid in Hc. split.
  - apply single_sex_extinct1; assumption.
  - apply single_sex_extinct2; assumption.
Qed.

Lemma single_sex_extinct_witness :
  safe (Model1.generation default_params (Model1.Freqs 1 0 0 0 0 0))
    Model1.extinct /\
  safe (Model2.generation default_params (Model2.Freqs 0 0 0 0 0 0.5 0 0 0.5))
    Model2.extinct.
Proof.
  refine (single_sex_extinct default_params (Model1.Freqs 1 0 0 0 0 0)
            (Model2.Freqs 0 0 0 0 0 0.5 0 0 0.5) _ _ _ _ _ _ _ _ _).
  - unfold params_in_range, unit_interval; cbn. lra.
  - unfold Model1.nonneg; cbn. lra.
  - unfold Model1.total_plants; cbn. lra.
  - reflexivity.
  - right. reflexivity.
  - unfold Model2.nonneg; cbn. lra.
  - unfold Model2.total_plants; cbn. lra.
  - reflexivity.
  - left. reflexivity.
Defined.

(** * The sweep over the grid *)

Lemma inject_Z_pos (n : Z) : (0 < n)%Z -> 0 < inject_Z n.
Proof. intros H. unfold Qlt, inject_Z; cbn. lia. Qed.

Lemma inject_Z_nonneg (n : Z) : (0 <= n)%Z -> 0 <= inject_Z n.
Proof. intros H. unfold Qle, inject_Z; cbn. lia. Qed.

Lemma inject_Z_div_unit (x n : Z) :
  (0 <= x <= n)%Z -> (0 < n)%Z -> 0 <= inject_Z x / inject_Z n <= 1.
Proof.
  intros [H0 H1] Hn.
  assert (Hn' : 0 < inject_Z n) by (apply inject_Z_pos; exact Hn).
  assert (H0' : 0 <= inject_Z x) by (apply inject_Z_nonneg; exact H0).
  assert (H1' : inject_Z x <= inject_Z n) by (rewrite <- Zle_Qle; exact H1).
  split.
  - apply Qdiv_nonneg; assumption.
  - apply Qle_shift_div_r; [exact Hn' | lra].
Qed.

Lemma Qinv_one_plus_unit (K : Q) : 0 <= K -> 0 < 1 / (1 + K) <= 1.
Proof.
  intros HK. split.
  - apply Qlt_shift_div_l; lra.
  - apply Qle_shift_div_r; lra.
Qed.

(** X9: in a sweep over at least 2 subdivisions, for a pixel inside the
    grid and a non-negative axis limit, the mapping to [Q] and [F] divides
    by positive numbers only, leaves the other parameters alone and gives
    [Q] and [F] in [[0,1]]: [x / (subdivisions - 1)] in the default format,
    [1 / (1 + K)] with [K = x / (subdivisions - 1) * oldformatlimit], hence
    positive, in the old one. *)
Theorem grid_point_in_range (o : options) (c : params) (x y : Z) :
  opt_onerun o = false ->
  (2 <= opt_subdivisions o)%Z -> (0 <= opt_oldformatlimit o)%Z ->
  (0 <= x <= opt_subdivisions o - 1)%Z ->
  (0 <= y <= opt_subdivisions o - 1)%Z ->
  let n := inject_Z (opt_subdivisions o - 1) in
  let l := inject_Z (opt_oldformatlimit o) in
  safe (grid_point o c x y) (fun c' =>
    same_base c c' /\
    unit_interval (par_Q c') /\ unit_interval (par_F c') /\
    (if opt_oldformat o then
       0 < par_Q c' /\ 0 < par_F c' /\
       par_Q c' == 1 / (1 + inject_Z x / n * l) /\
       par_F c' == 1 / (1 + inject_Z y / n * l)
     else
       par_Q c' == inject_Z x / n /\ par_F c' == inject_Z y / n)).
Proof.
  intros Hone Hs Hl Hx Hy n l. subst n l.
  assert (Hn : (0 < opt_subdivisions o - 1)%Z) by lia.
  assert (Hn' : 0 < inject_Z (opt_subdivisions o - 1))
    by (apply inject_Z_pos; exact Hn).
  assert (Hl' : 0 <= inject_Z (opt_oldformatlimit o))
    by (apply inject_Z_nonneg; exact Hl).
  assert (Ux := inject_Z_div_unit x _ Hx Hn).
  assert (Uy := inject_Z_div_unit y _ Hy Hn).
  unfold grid_point. rewrite Hone. cbn [negb].
  destruct (opt_oldformat o); cbn [negb].
  - assert (HK : 0 <= inject_Z x / inject_Z (opt_subdivisions o - 1)
                    * inject_Z (opt_oldformatlimit o))
      by (apply Qmult_le_0_compat; [apply Ux | exact Hl']).
    assert (Hk : 0 <= inject_Z y / inject_Z (opt_subdivisions o - 1)
                    * inject_Z (opt_oldformatlimit o))
      by (apply Qmult_le_0_compat; [apply Uy | exact Hl']).
    assert (QK := Qinv_one_plus_unit _ HK).
    assert (Qk := Qinv_one_plus_unit _ Hk).
    repeat (rewrite fdiv_nonzero by lra; cbn [bind ret value divisors app]).
    run_comp.
    unfold same_base, unit_interval, set_F, set_Q; cbn.
    repeat split; try reflexivity; lra.
  - repeat (rewrite fdiv_nonzero by lra; cbn [bind ret value divisors app]).
    run_comp.
    unfold same_base, unit_interval, set_F, set_Q; cbn.
    repeat split; try reflexivity; lra.
Qed.

Lemma grid_point_in_range_witness :
  safe (grid_point default_options default_params 200 0) (fun c' =>
    par_Q c' == 1 /\ par_F c' == 0).
Proof.
  eapply runs_weaken.
  - refine (grid_point_in_range default_options default_params 200 0
              _ _ _ _ _); cbn; try reflexivity; lia.
  - cbn. intros c' (_ & _ & _ & H1 & H2). split.
    + rewrite H1. reflexivity.
    + rewrite H2. reflexivity.
Defined.

(** X10: in a sweep over a grid of one subdivision the first division is
    that of the pixel coordinate 0 by [subdivisions - 1 = 0], in both
    programs and both axis formats: the [Q] of the only grid point is
    [0 / 0]. *)
Theorem sweep_one_subdivision (o : options) :
  opt_onerun o = false -> opt_subdivisions o = 1%Z ->
  hd_error (divisors (grid_point o (opt_params o) 0 0)) = Some 0 /\
  hd_error (divisors (sweep1 o)) = Some 0 /\
  hd_error (divisors (sweep2 o)) = Some 0.
Proof.
  destruct o as [c pgd s g e t one old l]; cbn. intros -> ->.
  split; [| split].
  - unfold grid_point; cbn. destruct old; reflexivity.
  - unfold sweep1, sweep, rows_loop, row_loop, cell, grid_point; cbn.
    destruct old; reflexivity.
  - unfold sweep2, sweep, rows_loop, row_loop, cell, grid_point; cbn.
    destruct old; reflexivity.
Qed.

Lemma sweep_one_subdivision_witness :
  hd_error (divisors (sweep1 (Options default_params false 1 false 10000
                                0.01 false false 4))) = Some 0.
Proof.
  refine (proj1 (proj2 (sweep_one_subdivision
                          (Options default_params false 1 false 10000 0.01
                             false false 4) _ _))); reflexivity.
Defined.

Lemma runs_self {A} (D : Q -> Prop) (m : comp A) (P : A -> Prop) :
  runs D m P -> runs D m (fun a => value m = Some a /\ P a).
Proof. intros [Hd (a & Ha & HP)]. split; [exact Hd | exists a; auto]. Qed.

Lemma grid_point_spec (o : options) (c : params) (x y : Z) :
  opt_onerun o = false ->
  (2 <= opt_subdivisions o)%Z -> (0 <= opt_oldformatlimit o)%Z ->
  (0 <= x <= opt_subdivisions o - 1)%Z ->
  (0 <= y <= opt_subdivisions o - 1)%Z ->
  safe (grid_point o c x y) (fun c' =>
    same_base c c' /\ unit_interval (par_Q c') /\ unit_interval (par_F c')).
Proof.
  intros Hone Hs Hl Hx Hy.
  assert (Hn : (0 < opt_subdivisions o - 1)%Z) by lia.
  assert (Hn' : 0 < inject_Z (opt_subdivisions o - 1))
    by (apply inject_Z_pos; exact Hn).
  assert (Hl' : 0 <= inject_Z (opt_oldformatlimit o))
    by (apply inject_Z_nonneg; exact Hl).
  assert (Ux := inject_Z_div_unit x _ Hx Hn).
  assert (Uy := inject_Z_div_unit y _ Hy Hn).
  unfold grid_point. rewrite Hone. cbn [negb].
  destruct (opt_oldformat o); cbn [negb].
  - assert (HK : 0 <= inject_Z x / inject_Z (opt_subdivisions o - 1)
                    * inject_Z (opt_oldformatlimit o))
      by (apply Qmult_le_0_compat; [apply Ux | exact Hl']).
    assert (Hk : 0 <= inject_Z y / inject_Z (opt_subdivisions o - 1)
                    * inject_Z (opt_oldformatlimit o))
      by (apply Qmult_le_0_compat; [apply Uy | exact Hl']).
    assert (QK := Qinv_one_plus_unit _ HK).
    assert (Qk := Qinv_one_plus_unit _ Hk).
    repeat (rewrite fdiv_nonzero by lra; cbn [bind ret value divisors app]).
    run_comp.
    unfold same_base, unit_interval, set_F, set_Q; cbn.
    repeat split; try reflexivity; lra.
  - repeat (rewrite fdiv_nonzero by lra; cbn [bind ret value divisors app]).
    run_comp.
    unfold same_base, unit_interval, set_F, set_Q; cbn.
    repeat split; try reflexivity; lra.
Qed.

Lemma grid_point_same_base (o : options) (c c' : params) (x y : Z) :
  opt_onerun o = false -> same_base c c' ->
  grid_point o c' x y = grid_point o c x y.
Proof.
  intros Hone (H1 & H2 & H3 & H4 & H5 & H6).
  destruct c, c'; cbn in *; subst.
  unfold grid_point, set_F, set_Q. rewrite Hone. reflexivity.
Qed.

Lemma same_base_trans (a b c : params) :
  same_base a b -> same_base b c -> same_base a c.
Proof.
  unfold same_base. intros (? & ? & ? & ? & ? & ?) (? & ? & ? & ? & ? & ?).
  repeat split; congruence.
Qed.

Lemma valid_base_params (c c' : params) :
  valid_base c -> same_base c c' ->
  unit_interval (par_Q c') -> unit_interval (par_F c') -> valid_params c'.
Proof.
  unfold valid_base, valid_params, same_base, unit_interval.
  intros (? & ? & ? & ? & ? & ?) (E1 & E2 & E3 & E4 & E5 & E6) ? ?.
  rewrite E1, E2, E3, E4, E5, E6. tauto.
Qed.

Section SweepFacts.

Variable freqs : Type.
Variable simulate : params -> bool -> Z -> freqs -> comp freqs.
Variable female : freqs -> Q.
Variable category_of : Q -> freqs -> category.

Hypothesis simulate_fresh : forall c pgd e f f',
  simulate c pgd e f = simulate c pgd e f'.
Hypothesis simulate_safe : forall c pgd e f,
  valid_params c -> safe (simulate c pgd e f) (fun _ => True).

Variable o : options.
Hypothesis onerun_off : opt_onerun o = false.
Hypothesis subdivisions_ok : (2 <= opt_subdivisions o)%Z.
Hypothesis limit_ok : (0 <= opt_oldformatlimit o)%Z.
Hypothesis base_ok : valid_base (opt_params o).

Variable f0 : freqs.

Let inv (x y : Z) (s : sweep_state freqs) : Prop :=
  same_base (opt_params o) (sw_params s) /\
  length (sw_text s) = text_length o x y /\
  cells_done freqs simulate female category_of o f0 x y
    (sw_result s) (sw_text s).

Lemma passed_step (x y x' y' : Z) :
  (0 <= x < opt_subdivisions o)%Z -> (0 <= y)%Z ->
  passed o (x + 1) y x' y' <-> passed o x y x' y' \/ (x' = x /\ y' = y).
Proof. unfold passed. lia. Qed.

Lemma passed_index (x y x' y' : Z) :
  (0 <= x <= opt_subdivisions o)%Z -> (0 <= y)%Z -> passed o x y x' y' ->
  (0 <= y' * opt_subdivisions o + x' < y * opt_subdivisions o + x)%Z.
Proof. unfold passed. nia. Qed.

Lemma cell_inv (x y : Z) (s : sweep_state freqs) :
  (0 <= x < opt_subdivisions o)%Z -> (0 <= y < opt_subdivisions o)%Z ->
  inv x y s -> safe (cell freqs simulate female category_of o x y s)
                 (inv (x + 1) y).
Proof.
  intros Hx Hy (Hb & Hl & Hd). unfold cell.
  rewrite (grid_point_same_base o _ _ x y onerun_off Hb).
  assert (G := grid_point_spec o (opt_params o) x y onerun_off
                 subdivisions_ok limit_ok ltac:(lia) ltac:(lia)).
  eapply runs_bind; [apply runs_self; exact G | intros c (Hc & B & UQ & UF)].
  assert (Hv : valid_params c) by (eapply valid_base_params; eassumption).
  rewrite (simulate_fresh c _ _ (sw_f s) f0).
  eapply runs_bind;
    [apply runs_self, simulate_safe; exact Hv | intros f (Hf & _)].
  apply runs_ret. split; [exact B |].
  cbn [sw_result sw_text]. rewrite onerun_off. cbn [negb andb].
  assert (Hrun : value (cell_run freqs simulate o f0 x y) = Some f).
  { unfold cell_run. rewrite (value_bind _ _ _ Hc). exact Hf. }
  split.
  { unfold text_length in *. destruct (opt_gnuplot o); [| exact Hl].
    rewrite length_app, Hl. cbn [length]. nia. }
  intros x' y'. destruct (Hd x' y') as [D1 D2]. split.
  - intros P. apply passed_step in P; [| lia | lia].
    destruct P as [P | [-> ->]].
    + destruct (D1 P) as (f' & F1 & F2 & F3). exists f'.
      split; [exact F1 |]. split.
      * unfold store. rewrite F2.
        destruct (Z.eqb_spec x' x); destruct (Z.eqb_spec y' y);
          cbn [andb]; try reflexivity.
        exfalso. unfold passed in P. lia.
      * intros Hg. specialize (F3 Hg). rewrite Hg.
        rewrite nth_error_app1; [exact F3 |].
        apply nth_error_Some. rewrite F3. discriminate.
    + exists f. split; [exact Hrun |]. split.
      * unfold store. rewrite !Z.eqb_refl. reflexivity.
      * intros Hg. rewrite Hg. unfold text_length in Hl. rewrite Hg in Hl.
        rewrite nth_error_app2 by lia.
        rewrite Hl, Nat.sub_diag. reflexivity.
  - intros N. unfold store.
    destruct (Z.eqb_spec x' x); destruct (Z.eqb_spec y' y); cbn [andb].
    + exfalso. apply N. apply passed_step; [lia | lia | tauto].
    + apply D2. intros P. apply N. apply passed_step; [lia | lia | tauto].
    + apply D2. intros P. apply N. apply passed_step; [lia | lia | tauto].
    + apply D2. intros P. apply N. apply passed_step; [lia | lia | tauto].
Qed.

Lemma inv_next_row (y : Z) (s : sweep_state freqs) :
  inv (opt_subdivisions o) y s -> inv 0 (y + 1) s.
Proof.
  intros (Hb & Hl & Hd). split; [exact Hb |]. split.
  - rewrite Hl. unfold text_length. destruct (opt_gnuplot o); [| reflexivity].
    f_equal. lia.
  - intros x' y'. destruct (Hd x' y') as [D1 D2]. split.
    + intros P. apply D1. unfold passed in *. lia.
    + intros N. apply D2. unfold passed in *. lia.
Qed.

Lemma row_inv (n : nat) (x y : Z) (s : sweep_state freqs) :
  (0 <= x)%Z -> (x + Z.of_nat n = opt_subdivisions o)%Z ->
  (0 <= y < opt_subdivisions o)%Z -> inv x y s ->
  safe (row_loop freqs simulate female category_of o n x y s)
    (inv 0 (y + 1)).
Proof.
  revert x s. induction n as [| n IH]; intros x s Hx Hn Hy Hi.
  - cbn. apply runs_ret. apply inv_next_row.
    replace (opt_subdivisions o) with x by lia. exact Hi.
  - cbn [row_loop]. eapply runs_bind; [apply cell_inv; [lia | lia | exact Hi] |].
    intros s' Hs'. rewrite onerun_off. apply IH; [lia | lia | lia | exact Hs'].
Qed.

Lemma rows_inv (n : nat) (y : Z) (s : sweep_state freqs) :
  (0 <= y)%Z -> (y + Z.of_nat n = opt_subdivisions o)%Z -> inv 0 y s ->
  safe (rows_loop freqs simulate female category_of o n y s)
    (inv 0 (opt_subdivisions o)).
Proof.
  revert y s. induction n as [| n IH]; intros y s Hy Hn Hi.
  - cbn. apply runs_ret. replace (opt_subdivisions o) with y by lia. exact Hi.
  - cbn [rows_loop]. eapply runs_bind.
    + apply row_inv; [lia | lia | lia | exact Hi].
    + intros s' Hs'. rewrite onerun_off. apply IH; [lia | lia | exact Hs'].
Qed.

Lemma sweep_inv :
  safe (sweep freqs simulate female category_of o f0) (fun s =>
    length (sw_text s)
    = (if opt_gnuplot o
       then Z.to_nat (opt_subdivisions o * opt_subdivisions o) else O) /\
    forall x y,
      ((0 <= x < opt_subdivisions o)%Z /\ (0 <= y < opt_subdivisions o)%Z ->
       exists f,
         value (cell_run freqs simulate o f0 x y) = Some f /\
         sw_result s x y = Some (category_of (opt_threshold o) f) /\
         (opt_gnuplot o = true ->
          nth_error (sw_text s) (Z.to_nat (y * opt_subdivisions o + x))
          = Some (female f))) /\
      (~ ((0 <= x < opt_subdivisions o)%Z /\
          (0 <= y < opt_subdivisions o)%Z) ->
       sw_result s x y = None)).
Proof.
  unfold sweep. eapply runs_weaken.
  - apply rows_inv; [lia | lia |]. split; [| split].
    + unfold same_base. cbn. tauto.
    + unfold text_length. cbn. destruct (opt_gnuplot o); reflexivity.
    + intros x y. cbn. split; [| reflexivity].
      unfold passed. lia.
  - intros s (_ & Hl & Hd). split.
    + rewrite Hl. unfold text_length.
      destruct (opt_gnuplot o); [| reflexivity]. f_equal. lia.
    + intros x y. destruct (Hd x y) as [D1 D2]. split.
      * intros H. apply D1. unfold passed. lia.
      * intros H. apply D2. unfold passed. lia.
Qed.

Lemma cell_category_run (x y : Z) (f : freqs) :
  value (cell_run freqs simulate o f0 x y) = Some f ->
  value (cell_category freqs simulate category_of o f0 x y)
  = Some (category_of (opt_threshold o) f).
Proof.
  unfold cell_run, cell_category, bind.
  destruct (value (grid_point o (opt_params o) x y)) as [c |];
    cbn [value]; [| discriminate].
  intros ->. reflexivity.
Qed.

Lemma sweep_result_inv :
  safe (sweep freqs simulate female category_of o f0) (fun s =>
    forall x y,
      ((0 <= x < opt_subdivisions o)%Z /\ (0 <= y < opt_subdivisions o)%Z ->
       exists cat,
         value (cell_category freqs simulate category_of o f0 x y)
         = Some cat /\
         sw_result s x y = Some cat) /\
      (~ ((0 <= x < opt_subdivisions o)%Z /\
          (0 <= y < opt_subdivisions o)%Z) ->
       sw_result s x y = None)).
Proof.
  eapply runs_weaken; [apply sweep_inv |].
  cbv beta. intros s [_ H] x y. destruct (H x y) as [H1 H2].
  split; [| exact H2].
  intros I. destruct (H1 I) as (f & F1 & F2 & _).
  exists (category_of (opt_threshold o) f).
  split; [apply cell_category_run; exact F1 | exact F2].
Qed.

End SweepFacts.

Lemma simulate_safe1 (c : params) (pgd : bool) (e : Z) (f : Model1.freqs) :
  valid_params c -> safe (Model1.simulate c pgd e f) (fun _ => True).
Proof.
  intros Hc. unfold Model1.simulate. eapply runs_weaken.
  - apply iterate_invariant1;
      [exact Hc | apply nonneg_start1 | left; apply start_total1].
  - auto.
Qed.

Lemma simulate_safe2 (c : params) (pgd : bool) (e : Z) (f : Model2.freqs) :
  valid_params c -> safe (Model2.simulate c pgd e f) (fun _ => True).
Proof.
  intros Hc. unfold Model2.simulate. eapply runs_weaken.
  - apply iterate_invariant2;
      [exact Hc | apply nonneg_start2 | left; apply start_total2].
  - auto.
Qed.

(** X11: a sweep of at least 2 subdivisions, with a non-negative axis limit
    and the parameters it does not set in their ranges, meets only positive
    divisors; when it ends, every pixel of the grid holds the category that
    a run of that grid point on its own gives, and nothing else was
    written: no grid point depends on the ones before it. *)
Theorem sweep_cells_independent (o : options) :
  opt_onerun o = false ->
  (2 <= opt_subdivisions o)%Z -> (0 <= opt_oldformatlimit o)%Z ->
  valid_base (opt_params o) ->
  let inside x y :=
    (0 <= x < opt_subdivisions o)%Z /\ (0 <= y < opt_subdivisions o)%Z in
  safe (sweep1 o) (fun s =>
    forall x y,
      (inside x y ->
       exists cat,
         value (cell_category Model1.freqs Model1.simulate Model1.category_of
                  o (Model1.Freqs 0 0 0 0 0 0) x y) = Some cat /\
         sw_result s x y = Some cat) /\
      (~ inside x y -> sw_result s x y = None)) /\
  safe (sweep2 o) (fun s =>
    forall x y,
      (inside x y ->
       exists cat,
         value (cell_category Model2.freqs Model2.simulate Model2.category_of
                  o (Model2.Freqs 0 0 0 0 0 0 0 0 0) x y) = Some cat /\
         sw_result s x y = Some cat) /\
      (~ inside x y -> sw_result s x y = None)).
Proof.
  intros Hone Hs Hl Hb inside. subst inside. split.
  - apply sweep_result_inv; try assumption.
    + intros. reflexivity.
    + apply simulate_safe1.
  - apply sweep_result_inv; try assumption.
    + intros. reflexivity.
    + apply simulate_safe2.
Qed.

Lemma sweep_cells_independent_witness :
  safe (sweep1 (Options default_params false 2 false 1 0.01 false false 4))
    (fun s => sw_result s 2 0 = None).
Proof.
  eapply runs_weaken.
  - refine (proj1 (sweep_cells_independent
                     (Options default_params false 2 false 1 0.01
                        false false 4) _ _ _ _)).
    + reflexivity.
    + cbn. lia.
    + cbn. lia.
    + unfold valid_base, unit_interval; cbn. lra.
  - cbn beta. intros s H. apply (proj2 (H 2%Z 0%Z)). cbn. lia.
Defined.

Lemma bind_ret_l {A B} (a : A) (k : A -> comp B) : bind (ret a) k = k a.
Proof. unfold bind, ret; cbn. destruct (k a). reflexivity. Qed.

Lemma bind_ret_r {A} (m : comp A) : bind m ret = m.
Proof.
  destruct m as [d [a |]]; unfold bind, ret; cbn; [| reflexivity].
  rewrite app_nil_r. reflexivity.
Qed.

Lemma bind_ret_r' {A} (m : comp A) : bind m (fun a => ret a) = m.
Proof. apply bind_ret_r. Qed.

(** X12: with [--onerun] and at least one subdivision the loops run the
    simulation once, for the [Q] and [F] of the command line and with no
    division for the grid, write the one pixel [(0,0)] and no text, and
    stop. *)
Theorem onerun_single_run (o : options) :
  opt_onerun o = true -> (1 <= opt_subdivisions o)%Z ->
  sweep1 o =
    (f <- Model1.simulate (opt_params o) (opt_pgd o) (opt_endpoint o)
            (Model1.Freqs 0 0 0 0 0 0) ;;
     ret (SweepState Model1.freqs (opt_params o) f
            (store (fun _ _ => None) 0 0
               (Model1.category_of (opt_threshold o) f)) [])) /\
  sweep2 o =
    (f <- Model2.simulate (opt_params o) (opt_pgd o) (opt_endpoint o)
            (Model2.Freqs 0 0 0 0 0 0 0 0 0) ;;
     ret (SweepState Model2.freqs (opt_params o) f
            (store (fun _ _ => None) 0 0
               (Model2.category_of (opt_threshold o) f)) [])).
Proof.
  intros Hone Hs. unfold sweep1, sweep2, sweep.
  destruct (Z.to_nat (opt_subdivisions o)) as [| n] eqn:E; [lia |].
  cbn [rows_loop]. rewrite E. cbn [row_loop]. unfold cell, grid_point.
  rewrite Hone. cbn [negb andb sw_params sw_f sw_result sw_text].
  cbv beta iota. rewrite !bind_ret_l, !bind_ret_r'. split; reflexivity.
Qed.

Lemma onerun_single_run_witness :
  sweep1 (Options default_params false 201 true 3 0.01 true false 4)
  = (f <- Model1.simulate default_params false 3
            (Model1.Freqs 0 0 0 0 0 0) ;;
     ret (SweepState Model1.freqs default_params f
            (store (fun _ _ => None) 0 0 (Model1.category_of 0.01 f)) [])).
Proof.
  refine (proj1 (onerun_single_run
                   (Options default_params false 201 true 3 0.01
                      true false 4) _ _)).
  - reflexivity.
  - cbn. lia.
Defined.

(** * The bitmap *)

Lemma extrabytes_spec (s m : Z) :
  (0 <= s)%Z -> (0 <= m)%Z ->
  (0 <= extrabytes s m < 4)%Z /\
  ((s * m * 3 + extrabytes s m) mod 4 = 0)%Z.
Proof.
  intros Hs Hm. unfold extrabytes.
  assert (Ha : (0 <= s * m * 3)%Z) by nia.
  rewrite Z.rem_mod_nonneg by lia.
  set (a := (s * m * 3)%Z) in *.
  assert (Hr := Z.mod_pos_bound a 4 ltac:(lia)).
  assert (Hd := Z.div_mod a 4 ltac:(lia)).
  destruct (Z.eqb_spec (4 - a mod 4) 4) as [E | E].
  - split; [lia |]. rewrite Z.add_0_r. replace (a mod 4)%Z with 0%Z in Hd by lia.
    rewrite Hd, Z.add_0_r, Z.mul_comm. apply Z_mod_mult.
  - split; [lia |].
    replace (a + (4 - a mod 4))%Z with ((a / 4 + 1) * 4)%Z by lia.
    apply Z_mod_mult.
Qed.

Lemma byte_of_range (v : Z) : (0 <= byte_of v < 256)%Z.
Proof. unfold byte_of. apply Z.mod_pos_bound. lia. Qed.

Lemma le_bytes_value (h : Z) :
  (0 <= h < 2 ^ 32)%Z -> le_value (le_bytes h) = h.
Proof.
  intros Hh. unfold le_bytes, le_value, byte_of; cbn [fold_right].
  rewrite !Z.shiftr_land.
  change (Z.shiftr 0x0000FF00 8) with (Z.ones 8).
  change (Z.shiftr 0x00FF0000 16) with (Z.ones 8).
  change (Z.shiftr 0xFF000000 24) with (Z.ones 8).
  change 0x000000FF%Z with (Z.ones 8).
  rewrite !Z.land_ones by lia. rewrite !Z.shiftr_div_pow2 by lia.
  change (2 ^ 8)%Z with 256%Z. change (2 ^ 16)%Z with 65536%Z.
  change (2 ^ 24)%Z with 16777216%Z. change (2 ^ 32)%Z with 4294967296%Z in Hh.
  rewrite !Z.mod_mod by lia.
  Z.to_euclidean_division_equations. lia.
Qed.

Lemma flat_map_length_const {A B} (f : A -> list B) (l : list A) (k : nat) :
  (forall a, length (f a) = k) -> length (flat_map f l) = (length l * k)%nat.
Proof.
  intros Hk. induction l as [| a l IH]; cbn; [reflexivity |].
  rewrite length_app, Hk, IH. reflexivity.
Qed.

Lemma for_up_length (n : Z) (out : Z -> list Z) (k : nat) :
  (forall i, length (out i) = k) ->
  length (for_up n out) = (Z.to_nat n * k)%nat.
Proof.
  intros Hk. unfold for_up.
  rewrite (flat_map_length_const _ _ k Hk), length_map, length_seq.
  reflexivity.
Qed.

Lemma pixel_row_length (result : Z -> Z -> Z) (s m y : Z) :
  (0 <= s)%Z -> (0 <= m)%Z ->
  Z.of_nat (length (pixel_row result s m y))
  = (s * m * 3 + extrabytes s m)%Z.
Proof.
  intros Hs Hm. unfold pixel_row.
  destruct (extrabytes_spec s m Hs Hm) as [He _].
  rewrite length_app.
  rewrite (for_up_length s _ (Z.to_nat m * 3)).
  - destruct (Z.eqb_spec (extrabytes s m) 0) as [E | E].
    + cbn [length]. rewrite E. nia.
    + rewrite (for_up_length _ _ 1) by reflexivity. nia.
  - intros x. destruct (colour (result x y)) as [[red green] blue].
    apply for_up_length. reflexivity.
Qed.

Lemma bmp_data_length (result : Z -> Z -> Z) (s m : Z) :
  (0 <= s)%Z -> (0 <= m)%Z ->
  Z.of_nat (length (for_up s (fun y =>
              for_up m (fun _ => pixel_row result s m y))))
  = paddedsize s m.
Proof.
  intros Hs Hm. unfold paddedsize.
  rewrite (for_up_length s _
             (Z.to_nat m * Z.to_nat (s * m * 3 + extrabytes s m))).
  - destruct (extrabytes_spec s m Hs Hm) as [He _]. nia.
  - intros y. apply for_up_length. intros _.
    rewrite <- (pixel_row_length result s m y Hs Hm).
    rewrite Nat2Z.id. reflexivity.
Qed.

Lemma drawbmp_length (result : Z -> Z -> Z) (s m : Z) :
  (0 <= s)%Z -> (0 <= m)%Z ->
  Z.of_nat (length (drawbmp result s m)) = (54 + paddedsize s m)%Z.
Proof.
  intros Hs Hm. unfold drawbmp.
  rewrite !length_app. cbn [flat_map le_bytes length app].
  rewrite !Nat2Z.inj_add, (bmp_data_length result s m Hs Hm). lia.
Qed.

Lemma for_up_Forall (P : Z -> Prop) (n : Z) (out : Z -> list Z) :
  (forall i, Forall P (out i)) -> Forall P (for_up n out).
Proof.
  intros H. unfold for_up. apply Forall_flat_map. apply Forall_forall.
  intros i _. apply H.
Qed.

(** X13: for a non-negative size and magnification, every horizontal line
    of the bitmap is padded by 0 to 3 bytes to a length divisible by 4, and
    the file has [54 + paddedsize] bytes, each between 0 and 255. *)
Theorem drawbmp_size (result : Z -> Z -> Z) (s m y : Z) :
  (0 <= s)%Z -> (0 <= m)%Z ->
  (0 <= extrabytes s m < 4)%Z /\
  (Z.of_nat (length (pixel_row result s m y)) mod 4 = 0)%Z /\
  Z.of_nat (length (drawbmp result s m)) = (54 + paddedsize s m)%Z /\
  Forall (fun b => 0 <= b < 256)%Z (drawbmp result s m).
Proof.
  intros Hs Hm. destruct (extrabytes_spec s m Hs Hm) as [He Hmod].
  split; [exact He |]. split.
  { rewrite pixel_row_length by assumption. exact Hmod. }
  split; [apply drawbmp_length; assumption |].
  unfold drawbmp, pixel_row, le_bytes. cbn [flat_map app].
  repeat (apply Forall_cons; [first [apply byte_of_range | lia] |]).
  apply for_up_Forall. intros y'. apply for_up_Forall. intros _.
  apply Forall_app. split.
  - apply for_up_Forall. intros x.
    destruct (colour (result x y')) as [[red green] blue].
    apply for_up_Forall. intros _.
    repeat (apply Forall_cons; [apply byte_of_range |]). apply Forall_nil.
  - destruct (extrabytes s m =? 0)%Z; [apply Forall_nil |].
    apply for_up_Forall. intros _.
    apply Forall_cons; [apply byte_of_range | apply Forall_nil].
Qed.

Lemma drawbmp_size_witness :
  Z.of_nat (length (drawbmp (fun _ _ => 3%Z) 201 1))
  = (54 + paddedsize 201 1)%Z.
Proof.
  refine (proj1 (proj2 (proj2 (drawbmp_size (fun _ _ => 3%Z) 201 1 0 _ _))));
    lia.
Defined.

Lemma paddedsize_bounds (s m : Z) :
  (0 <= s)%Z -> (0 <= m)%Z ->
  (0 <= s * m <= paddedsize s m)%Z.
Proof.
  intros Hs Hm. destruct (extrabytes_spec s m Hs Hm) as [He _].
  unfold paddedsize. set (e := extrabytes s m) in *.
  assert (H : (0 <= s * m)%Z) by nia.
  split; [exact H |].
  destruct (Z.eq_dec (s * m) 0) as [E | E]; [nia |].
  assert (1 <= s * m)%Z by lia. nia.
Qed.

(** X14: when the file is shorter than [2^32] bytes, its header can be
    read back: it starts with "BM"; the size field is the length of the
    file; the offset field is 54 and the header size 40; width and height
    are [subdivisions * magnify]; there is 1 plane of 24 bits; and the image
    size field is the number of bytes after the 54 of the header. *)
Theorem drawbmp_header (result : Z -> Z -> Z) (s m : Z) :
  (0 <= s)%Z -> (0 <= m)%Z -> (54 + paddedsize s m < 2 ^ 32)%Z ->
  let bytes := drawbmp result s m in
  firstn 2 bytes = [66; 77]%Z /\
  le_value (firstn 4 (skipn 2 bytes)) = Z.of_nat (length bytes) /\
  le_value (firstn 4 (skipn 10 bytes)) = 54%Z /\
  le_value (firstn 4 (skipn 14 bytes)) = 40%Z /\
  le_value (firstn 4 (skipn 18 bytes)) = (s * m)%Z /\
  le_value (firstn 4 (skipn 22 bytes)) = (s * m)%Z /\
  firstn 4 (skipn 26 bytes) = [1; 0; 24; 0]%Z /\
  le_value (firstn 4 (skipn 34 bytes)) = Z.of_nat (length (skipn 54 bytes)).
Proof.
  intros Hs Hm Hsize bytes.
  assert (Hlen := drawbmp_length result s m Hs Hm).
  assert (Hdata := bmp_data_length result s m Hs Hm).
  assert (Hp := paddedsize_bounds s m Hs Hm).
  assert (U : forall v, (0 <= v < 2 ^ 32)%Z -> u32 v = v)
    by (intros v Hv; unfold u32; apply Z.mod_small; exact Hv).
  subst bytes. rewrite Hlen. unfold drawbmp.
  cbn [flat_map app firstn skipn le_bytes]. fold (le_bytes (headers s m 0)).
  fold (le_bytes (headers s m 2)). fold (le_bytes (headers s m 3)).
  fold (le_bytes (headers s m 4)). fold (le_bytes (headers s m 5)).
  fold (le_bytes (headers s m 8)).
  assert (B : forall h, (0 <= h < 2 ^ 32)%Z -> le_value (le_bytes h) = h)
    by exact le_bytes_value.
  unfold headers. rewrite !U by lia. rewrite !B by lia.
  rewrite Hdata. repeat split; try reflexivity; try lia.
Qed.

Lemma drawbmp_header_witness :
  le_value (firstn 4 (skipn 18 (drawbmp (fun _ _ => 0%Z) 201 1))) = 201%Z.
Proof.
  refine (proj1 (proj2 (proj2 (proj2 (proj2
            (drawbmp_header (fun _ _ => 0%Z) 201 1 _ _ _)))))).
  - lia.
  - lia.
  - vm_compute. reflexivity.
Defined.

Lemma flat_map_block {A B} (f : A -> list B) (l : list A) (k i : nat)
  (d : A) :
  (forall a, length (f a) = k) -> (i < length l)%nat ->
  exists rest, skipn (i * k) (flat_map f l) = f (nth i l d) ++ rest.
Proof.
  intros Hk. revert i. induction l as [| a l IH]; intros i Hi; cbn in Hi.
  - lia.
  - destruct i as [| i]; cbn [flat_map nth Nat.mul].
    + exists (flat_map f l). reflexivity.
    + destruct (IH i ltac:(lia)) as (rest & Hr). exists rest.
      rewrite skipn_app, Hk.
      replace (k + i * k - k)%nat with (i * k)%nat by lia.
      rewrite skipn_all2 by (rewrite Hk; lia). exact Hr.
Qed.

Lemma for_up_block (n i : Z) (out : Z -> list Z) (k : nat) :
  (forall j, length (out j) = k) -> (0 <= i < n)%Z ->
  exists rest, skipn (Z.to_nat i * k) (for_up n out) = out i ++ rest.
Proof.
  intros Hk Hi. unfold for_up.
  destruct (flat_map_block out (map Z.of_nat (seq 0 (Z.to_nat n))) k
              (Z.to_nat i) 0%Z Hk) as (rest & Hr).
  - rewrite length_map, length_seq. lia.
  - exists rest. rewrite Hr.
    assert (E : nth (Z.to_nat i) (map Z.of_nat (seq 0 (Z.to_nat n))) 0%Z = i).
    { change 0%Z with (Z.of_nat 0). rewrite map_nth, seq_nth by lia. lia. }
    rewrite E. reflexivity.
Qed.

Lemma for_up_1 (out : Z -> list Z) : for_up 1 out = out 0%Z.
Proof.
  unfold for_up. change (Z.to_nat 1) with 1%nat. cbn [seq map flat_map].
  apply app_nil_r.
Qed.

Lemma colour_range (r : Z) :
  let '(red, green, blue) := colour r in
  byte_of red = red /\ byte_of green = green /\ byte_of blue = blue.
Proof.
  unfold colour.
  destruct (r =? code INC)%Z; [repeat split; reflexivity |].
  destruct (r =? code PAD)%Z; [repeat split; reflexivity |].
  destruct (r =? code SSD)%Z; [repeat split; reflexivity |].
  destruct (r =? code DIO)%Z; [repeat split; reflexivity |].
  destruct (r =? code PGD)%Z; repeat split; reflexivity.
Qed.

Lemma pixel_row_pixel (result : Z -> Z -> Z) (s x y : Z) :
  (0 <= x < s)%Z ->
  exists rest,
    skipn (Z.to_nat x * 3) (pixel_row result s 1 y)
    = (let '(red, green, blue) := colour (result x y) in [blue; green; red])
      ++ rest.
Proof.
  intros Hx. unfold pixel_row.
  set (pix := fun x0 : Z =>
         let '(red, green, blue) := colour (result x0 y) in
         for_up 1 (fun _ : Z => [byte_of blue; byte_of green; byte_of red])).
  assert (Hk : forall j, length (pix j) = 3%nat).
  { intros j. unfold pix. destruct (colour (result j y)) as [[r g] b].
    reflexivity. }
  destruct (for_up_block s x pix 3 Hk Hx) as (rest & Hr).
  eexists. rewrite skipn_app, Hr.
  unfold pix at 1. assert (C := colour_range (result x y)).
  destruct (colour (result x y)) as [[r g] b]. destruct C as (-> & -> & ->).
  rewrite for_up_1. reflexivity.
Qed.

Lemma drawbmp_data (result : Z -> Z -> Z) (s m : Z) (k : nat) :
  skipn (54 + k) (drawbmp result s m)
  = skipn k (for_up s (fun y =>
               for_up m (fun _ => pixel_row result s m y))).
Proof.
  unfold drawbmp. cbn [flat_map app le_bytes]. reflexivity.
Qed.

Lemma colour_injective (c1 c2 : category) :
  colour (code c1) = colour (code c2) -> c1 = c2.
Proof. destruct c1, c2; cbn; intros H; congruence. Qed.

Lemma drawbmp_pixel_at (result : Z -> Z -> Z) (s x y : Z) :
  (0 <= x < s)%Z -> (0 <= y < s)%Z ->
  firstn 3 (skipn (Z.to_nat (54 + y * (s * 3 + extrabytes s 1) + x * 3))
              (drawbmp result s 1))
  = (let '(red, green, blue) := colour (result x y) in [blue; green; red]).
Proof.
  intros Hx Hy.
  assert (Hs : (0 <= s)%Z) by lia.
  destruct (extrabytes_spec s 1 Hs ltac:(lia)) as [He _].
  set (row := Z.to_nat (s * 3 + extrabytes s 1)).
  replace (Z.to_nat (54 + y * (s * 3 + extrabytes s 1) + x * 3))
    with (54 + (Z.to_nat x * 3 + Z.to_nat y * row))%nat by (subst row; nia).
  rewrite drawbmp_data, <- skipn_skipn.
  assert (Hk : forall j,
             length (for_up 1 (fun _ : Z => pixel_row result s 1 j)) = row).
  { intros j. rewrite (for_up_length 1 _ row).
    - cbn. lia.
    - intros _. subst row.
      rewrite <- (Nat2Z.id (length _)).
      rewrite (pixel_row_length result s 1 j Hs ltac:(lia)).
      f_equal. lia. }
  destruct (for_up_block s y _ row Hk Hy) as (rest & Hr).
  rewrite Hr.
  rewrite for_up_1.
  destruct (pixel_row_pixel result s x y Hx) as (rest' & Hp).
  rewrite skipn_app, Hp.
  destruct (colour (result x y)) as [[r g] b]. reflexivity.
Qed.


(** X15: the picture can be read back.  In the file that [main] writes
    (magnification 1), the three bytes at offset
    [54 + y * (3 * subdivisions + extrabytes) + 3 * x] are the blue, green
    and red of the colour of [result[x][y]], for every pixel of the grid; and
    the six categories have six different colours. *)
Theorem drawbmp_pixel (result : Z -> Z -> Z) (s x y : Z) :
  (0 <= x < s)%Z -> (0 <= y < s)%Z ->
  firstn 3 (skipn (Z.to_nat (54 + y * (s * 3 + extrabytes s 1) + x * 3))
              (drawbmp result s 1))
  = (let '(red, green, blue) := colour (result x y) in [blue; green; red]) /\
  (forall c1 c2, colour (code c1) = colour (code c2) -> c1 = c2).
Proof.
  intros Hx Hy. split; [apply drawbmp_pixel_at; assumption |].
  exact colour_injective.
Qed.

Lemma drawbmp_pixel_witness :
  firstn 3 (skipn (Z.to_nat (54 + 1 * (2 * 3 + extrabytes 2 1) + 0 * 3))
              (drawbmp (fun x y => if (y =? 1)%Z then 3%Z else 0%Z) 2 1))
  = [255; 0; 127]%Z.
Proof.
  refine (proj1 (drawbmp_pixel (fun x y => if (y =? 1)%Z then 3%Z else 0%Z)
                   2 0 1 _ _)); lia.
Defined.

(** X16: end to end.  After a sweep (at least 2 subdivisions, non-negative
    axis limit, parameters in range) the bitmap that [main] draws from
    [result] shows, at every pixel of the grid, the colour of the category
    that a run of that grid point on its own gives. *)
Theorem sweep_bitmap (o : options) :
  opt_onerun o = false ->
  (2 <= opt_subdivisions o)%Z -> (0 <= opt_oldformatlimit o)%Z ->
  valid_base (opt_params o) ->
  let n := opt_subdivisions o in
  let pixel bytes x y :=
    firstn 3 (skipn (Z.to_nat (54 + y * (n * 3 + extrabytes n 1) + x * 3))
                bytes) in
  safe (sweep1 o) (fun s =>
    forall x y, (0 <= x < n)%Z -> (0 <= y < n)%Z ->
      exists cat,
        value (cell_category Model1.freqs Model1.simulate Model1.category_of
                 o (Model1.Freqs 0 0 0 0 0 0) x y) = Some cat /\
        pixel (drawbmp (result_codes (sw_result s)) n 1) x y
        = (let '(red, green, blue) := colour (code cat) in
           [blue; green; red])) /\
  safe (sweep2 o) (fun s =>
    forall x y, (0 <= x < n)%Z -> (0 <= y < n)%Z ->
      exists cat,
        value (cell_category Model2.freqs Model2.simulate Model2.category_of
                 o (Model2.Freqs 0 0 0 0 0 0 0 0 0) x y) = Some cat /\
        pixel (drawbmp (result_codes (sw_result s)) n 1) x y
        = (let '(red, green, blue) := colour (code cat) in
           [blue; green; red])).
Proof.
  intros Hone Hs Hl Hb n pixel. subst n pixel. cbv beta. split.
  - eapply runs_weaken.
    + apply sweep_result_inv; try eassumption;
        [intros; reflexivity | apply simulate_safe1].
    + cbv beta. intros s H x y Hx Hy.
      destruct (proj1 (H x y) (conj Hx Hy)) as (cat & Hc & Hr).
      exists cat. split; [exact Hc |].
      rewrite drawbmp_pixel_at by assumption.
      unfold result_codes. rewrite Hr. reflexivity.
  - eapply runs_weaken.
    + apply sweep_result_inv; try eassumption;
        [intros; reflexivity | apply simulate_safe2].
    + cbv beta. intros s H x y Hx Hy.
      destruct (proj1 (H x y) (conj Hx Hy)) as (cat & Hc & Hr).
      exists cat. split; [exact Hc |].
      rewrite drawbmp_pixel_at by assumption.
      unfold result_codes. rewrite Hr. reflexivity.
Qed.

Lemma sweep_bitmap_witness :
  safe (sweep1 (Options default_params false 2 false 1 0.01 false false 4))
    (fun _ => True).
Proof.
  eapply runs_weaken.
  - refine (proj1 (sweep_bitmap
                     (Options default_params false 2 false 1 0.01
                        false false 4) _ _ _ _)).
    + reflexivity.
    + cbn. lia.
    + cbn. lia.
    + unfold valid_base, unit_interval; cbn. lra.
  - auto.
Defined.

(** X21: the text of [--gnuplot].  After a sweep (at least 2 subdivisions,
    non-negative axis limit, parameters in range) the text holds one female
    frequency for every pixel and no more, in the order of the loops: the
    value of pixel [(x, y)] is the [(y * subdivisions + x)]-th, and it is
    the female frequency at the end of a run of that grid point on its own.
    Without [--gnuplot] nothing is written. *)
Theorem sweep_text (o : options) :
  opt_onerun o = false ->
  (2 <= opt_subdivisions o)%Z -> (0 <= opt_oldformatlimit o)%Z ->
  valid_base (opt_params o) ->
  let n := opt_subdivisions o in
  safe (sweep1 o) (fun s =>
    length (sw_text s) = (if opt_gnuplot o then Z.to_nat (n * n) else O) /\
    (opt_gnuplot o = true ->
     forall x y, (0 <= x < n)%Z -> (0 <= y < n)%Z ->
       exists f,
         value (cell_run Model1.freqs Model1.simulate o
                  (Model1.Freqs 0 0 0 0 0 0) x y) = Some f /\
         nth_error (sw_text s) (Z.to_nat (y * n + x))
         = Some (Model1.female f))) /\
  safe (sweep2 o) (fun s =>
    length (sw_text s) = (if opt_gnuplot o then Z.to_nat (n * n) else O) /\
    (opt_gnuplot o = true ->
     forall x y, (0 <= x < n)%Z -> (0 <= y < n)%Z ->
       exists f,
         value (cell_run Model2.freqs Model2.simulate o
                  (Model2.Freqs 0 0 0 0 0 0 0 0 0) x y) = Some f /\
         nth_error (sw_text s) (Z.to_nat (y * n + x))
         = Some (Model2.female f))).
Proof.
  intros Hone Hs Hl Hb n. subst n. split.
  - eapply runs_weaken.
    + apply sweep_inv; try eassumption;
        [intros; reflexivity | apply simulate_safe1].
    + cbv beta. intros s [L H]. split; [exact L |].
      intros Hg x y Hx Hy.
      destruct (proj1 (H x y) (conj Hx Hy)) as (f & F1 & _ & F3).
      exists f. split; [exact F1 | exact (F3 Hg)].
  - eapply runs_weaken.
    + apply sweep_inv; try eassumption;
        [intros; reflexivity | apply simulate_safe2].
    + cbv beta. intros s [L H]. split; [exact L |].
      intros Hg x y Hx Hy.
      destruct (proj1 (H x y) (conj Hx Hy)) as (f & F1 & _ & F3).
      exists f. split; [exact F1 | exact (F3 Hg)].
Qed.

Lemma sweep_text_witness :
  safe (sweep1 (Options default_params false 2 true 1 0.01 false false 4))
    (fun s => length (sw_text s) = 4%nat).
Proof.
  eapply runs_weaken.
  - refine (proj1 (sweep_text
                     (Options default_params false 2 true 1 0.01
                        false false 4) _ _ _ _)).
    + reflexivity.
    + cbn. lia.
    + cbn. lia.
    + unfold valid_base, unit_interval; cbn. lra.
  - cbn beta. intros s [L _]. exact L.
Defined.

(** * The command line *)

Module CommandLineFacts.
Import Ascii String CommandLine.
Local Open Scope string_scope.

Section ParseFacts.

Variable atof : string -> Q.
Variable atoi : string -> Z.
Variable model : Z.

(** X17: an option that wants a value but is the last argument is not
    taken as that option: the program reports it as unrecognised and exits,
    except for [--pi] and [--omega], which read the argument after the last
    one, a null pointer. *)
Theorem option_without_value (a : string) (o : options) :
  (In a (valued_options model) ->
   parse atof atoi model [a] o = ret (Unrecognised a)) /\
  (In a unchecked_options ->
   parse atof atoi model [a] o = ret NullArgument).
Proof.
  split; intros H.
  - unfold valued_options in H.
    destruct (Z.eqb_spec model 1) as [E | E]; cbn in H;
      repeat (destruct H as [<- | H]; [cbn; rewrite ?andb_false_r; reflexivity |]);
      contradiction.
  - cbn in H.
    repeat (destruct H as [<- | H]; [cbn; rewrite ?andb_false_r; reflexivity |]).
    contradiction.
Qed.

Lemma eqb_plain (a s : string) :
  looks_like_option a = false -> looks_like_option s = true ->
  String.eqb a s = false.
Proof.
  intros Ha Hs. destruct (String.eqb_spec a s) as [E | E]; [| reflexivity].
  subst. congruence.
Qed.

Lemma parse_plain (a : string) (rest : list string) (o : options) :
  looks_like_option a = false ->
  parse atof atoi model (a :: rest) o = parse atof atoi model rest o.
Proof.
  intros Ha. cbn [parse].
  repeat match goal with
         | |- context [String.eqb a ?s] =>
             rewrite (eqb_plain a s Ha eq_refl)
         end.
  rewrite Ha, ?andb_false_r. reflexivity.
Qed.

(** X18: arguments that do not start with '-' followed by a non-digit are
    passed over without a word: a command line of such arguments only, so
    also one of numbers, negative ones among them, or of misspelt words,
    leaves every global at its default. *)
Theorem plain_arguments_ignored (args : list string) (o : options) :
  Forall (fun a => looks_like_option a = false) args ->
  parse atof atoi model args o = ret (Parsed o).
Proof.
  intros H. induction H as [| a rest Ha _ IH]; [reflexivity |].
  rewrite parse_plain by exact Ha. exact IH.
Qed.

Lemma parse_unknown (a : string) (rest : list string) (o : options) :
  looks_like_option a = true -> ~ In a (known_options model) ->
  parse atof atoi model (a :: rest) o = ret (Unrecognised a).
Proof.
  intros Ha Hn. cbn [parse].
  assert (F : Forall (fun s => a <> s) (known_options model)).
  { apply Forall_forall. intros s Hs ->. exact (Hn Hs). }
  clear Hn.
  unfold known_options, valued_options, unchecked_options, flag_options in F.
  revert F.
  destruct (Z.eqb_spec model 1) as [E | E]; intros F;
    cbn [app] in F;
    repeat match goal with
           | K : Forall _ (_ :: _) |- _ =>
               apply Forall_cons_iff in K; destruct K as [? K]
           end;
    repeat match goal with
           | |- context [String.eqb a ?s] =>
               replace (String.eqb a s) with false
                 by (symmetry; apply String.eqb_neq; assumption)
           end;
    rewrite Ha; reflexivity.
Qed.

Lemma value_bind_fdiv {B} (x y : Q) (k : Q -> comp B) :
  value (q <- fdiv x y ;; k q)
  = if Qeq_bool y 0 then None else value (k (x / y)).
Proof. unfold bind, fdiv; cbn. destruct (Qeq_bool y 0); reflexivity. Qed.

(** X19: the program gets past its command line only if every argument
    that starts with '-' followed by a non-digit is one of its options: an
    argument such as [-x], [-.5] or (in model 2) [--ppY] stops it wherever
    it stands, also where an option expects its value. *)
Theorem unknown_option_never_parsed (args : list string) (o o' : options) :
  Exists (fun a => looks_like_option a = true /\
                   ~ In a (known_options model)) args ->
  value (parse atof atoi model args o) <> Some (Parsed o').
Proof.
  intros H. revert o. induction H as [a rest [Ha Hn] | a rest H IH]; intros o.
  - rewrite parse_unknown by assumption. discriminate.
  - cbn [parse].
    repeat match goal with
           | |- value (if ?b then _ else _) <> _ => destruct b
           end;
      try apply IH;
      try (rewrite value_bind_fdiv;
           match goal with
           | |- (if ?b then _ else _) <> _ => destruct b
           end; [discriminate | apply IH]);
      try discriminate.
    + destruct rest as [| v rest']; [inversion H |].
      rewrite value_bind_fdiv. destruct (Qeq_bool (atof v) 0);
        [discriminate | apply IH].
    + destruct rest as [| v rest']; [inversion H |].
      rewrite value_bind_fdiv. destruct (Qeq_bool (atof v) 0);
        [discriminate | apply IH].
Qed.

Lemma parse_K (v : string) (rest : list string) (o : options) :
  parse atof atoi model ("-K" :: v :: rest) o
  = (q <- fdiv 1 (1 + atof v) ;;
     parse atof atoi model (v :: rest)
       (set_params o (set_Q (opt_params o) q))).
Proof. cbn [parse String.eqb Ascii.eqb Bool.eqb orb andb hd].
  rewrite ?andb_false_r. reflexivity. Qed.

Lemma parse_pi (v : string) (rest : list string) (o : options) :
  parse atof atoi model ("--pi" :: v :: rest) o
  = (q <- fdiv 1 (atof v) ;;
     parse atof atoi model (v :: rest)
       (set_params o (set_Q (opt_params o) q))).
Proof. cbn [parse String.eqb Ascii.eqb Bool.eqb orb andb hd].
  rewrite ?andb_false_r. reflexivity. Qed.

Lemma parse_k (v : string) (rest : list string) (o : options) :
  parse atof atoi model ("-k" :: v :: rest) o
  = (q <- fdiv 1 (1 + atof v) ;;
     parse atof atoi model (v :: rest)
       (set_params o (set_F (opt_params o) q))).
Proof. cbn [parse String.eqb Ascii.eqb Bool.eqb orb andb hd].
  rewrite ?andb_false_r. reflexivity. Qed.

Lemma parse_omega (v : string) (rest : list string) (o : options) :
  parse atof atoi model ("--omega" :: v :: rest) o
  = (q <- fdiv 1 (atof v) ;;
     parse atof atoi model (v :: rest)
       (set_params o (set_F (opt_params o) q))).
Proof. cbn [parse String.eqb Ascii.eqb Bool.eqb orb andb hd].
  rewrite ?andb_false_r. reflexivity. Qed.

(** X20: [--pi] and [-K], and [--omega] and [-k], set the same value when
    [pi = K + 1] and [omega = k + 1]: for plain value arguments [v] and [w]
    with [atof w == 1 + atof v], not 0, both command lines are parsed and
    leave equal values of [Q] (of [F]), namely [1 / (1 + atof v)], with
    every other global unchanged. *)
Theorem pi_is_K_plus_one (v w : string) (o : options) :
  looks_like_option v = false -> looks_like_option w = false ->
  (atof w == 1 + atof v)%Q -> ~ (atof w == 0)%Q ->
  (exists q q',
     value (parse atof atoi model ["-K"; v] o)
       = Some (Parsed (set_params o (set_Q (opt_params o) q))) /\
     value (parse atof atoi model ["--pi"; w] o)
       = Some (Parsed (set_params o (set_Q (opt_params o) q'))) /\
     (q == q')%Q /\ (q == 1 / (1 + atof v))%Q) /\
  (exists q q',
     value (parse atof atoi model ["-k"; v] o)
       = Some (Parsed (set_params o (set_F (opt_params o) q))) /\
     value (parse atof atoi model ["--omega"; w] o)
       = Some (Parsed (set_params o (set_F (opt_params o) q'))) /\
     (q == q')%Q /\ (q == 1 / (1 + atof v))%Q).
Proof.
  intros Hv Hw E Hnz.
  assert (Hnz' : ~ (1 + atof v == 0)%Q) by (rewrite <- E; exact Hnz).
  assert (Z1 : Qeq_bool (atof w) 0 = false).
  { destruct (Qeq_bool (atof w) 0) eqn:B; [| reflexivity].
    apply Qeq_bool_iff in B. contradiction. }
  assert (Z2 : Qeq_bool (1 + atof v) 0 = false).
  { destruct (Qeq_bool (1 + atof v) 0) eqn:B; [| reflexivity].
    apply Qeq_bool_iff in B. contradiction. }
  split.
  - exists (1 / (1 + atof v))%Q, (1 / atof w)%Q.
    split; [| split; [| split]].
    + rewrite parse_K, value_bind_fdiv, Z2, parse_plain by exact Hv.
      reflexivity.
    + rewrite parse_pi, value_bind_fdiv, Z1, parse_plain by exact Hw.
      reflexivity.
    + rewrite E. reflexivity.
    + reflexivity.
  - exists (1 / (1 + atof v))%Q, (1 / atof w)%Q.
    split; [| split; [| split]].
    + rewrite parse_k, value_bind_fdiv, Z2, parse_plain by exact Hv.
      reflexivity.
    + rewrite parse_omega, value_bind_fdiv, Z1, parse_plain by exact Hw.
      reflexivity.
    + rewrite E. reflexivity.
    + reflexivity.
Qed.

End ParseFacts.

Lemma option_without_value_witness :
  parse (fun _ => 0%Q) (fun _ => 0%Z) 1 ["--threshold"] default_options
  = ret (Unrecognised "--threshold").
Proof.
  refine (proj1 (option_without_value (fun _ => 0%Q) (fun _ => 0%Z) 1
                   "--threshold" default_options) _).
  cbn. tauto.
Defined.

Lemma plain_arguments_ignored_witness :
  parse (fun _ => 0%Q) (fun _ => 0%Z) 1 ["0.3"; "-5"; "onerun"]
    default_options
  = ret (Parsed default_options).
Proof.
  refine (plain_arguments_ignored (fun _ => 0%Q) (fun _ => 0%Z) 1
            ["0.3"; "-5"; "onerun"] default_options _).
  repeat (apply Forall_cons; [reflexivity |]). apply Forall_nil.
Defined.

Lemma unknown_option_never_parsed_witness :
  value (parse (fun _ => 0%Q) (fun _ => 0%Z) 2 ["-h"; "-.5"] default_options)
  <> Some (Parsed default_options).
Proof.
  refine (unknown_option_never_parsed (fun _ => 0%Q) (fun _ => 0%Z) 2
            ["-h"; "-.5"] default_options default_options _).
  apply Exists_cons_tl. apply Exists_cons_hd. split; [reflexivity |].
  cbn. intros H.
  repeat (destruct H as [H | H]; [discriminate H |]). exact H.
Defined.

Lemma pi_is_K_plus_one_witness :
  let atof := fun s => if String.eqb s "5" then 5%Q else 4%Q in
  exists q q',
    value (parse atof (fun _ => 0%Z) 1 ["-K"; "4"] default_options)
      = Some (Parsed (set_params default_options
                        (set_Q (opt_params default_options) q))) /\
    value (parse atof (fun _ => 0%Z) 1 ["--pi"; "5"] default_options)
      = Some (Parsed (set_params default_options
                        (set_Q (opt_params default_options) q'))) /\
    (q == q')%Q /\ (q == 1 / (1 + atof "4"))%Q.
Proof.
  intros atof.
  refine (proj1 (pi_is_K_plus_one atof (fun _ => 0%Z) 1 "4" "5"
                   default_options _ _ _ _)).
  - reflexivity.
  - reflexivity.
  - reflexivity.
  - discriminate.
Defined.

End CommandLineFacts.
